(** * QuizGen: document-to-quiz pipeline and quiz session engine

  A shallow embedding of the TypeScript sources

    - [src/types.ts]                 (the data model),
    - [src/components/QuizView.tsx]  (the quiz session component),
    - [src/App.tsx]                  ([startQuiz] and its shuffle),
    - [src/services/fileParser.ts]   (the content extractors),
    - [src/components/FileUpload.tsx] ([validateAndSelect]),

  followed by the properties of the specification, each one proved or
  refuted on the embedding. *)

From Stdlib Require Import Ascii String QArith Qround.
From Stdlib Require Import Floats.SpecFloat.
From stdpp Require Import gmap strings list pretty.

Set Default Proof Using "Type".

(** ** JavaScript primitives used by the sources *)

Module JS.

(** Strings are sequences of 8-bit characters; the Unicode-aware parts of
    [toLowerCase] and [trim] are modelled on the ASCII range, characters
    above it are left alone. *)

Definition LF : string := String (ascii_of_nat 10) "".

Definition lowerChar (c : ascii) : ascii :=
  let n := nat_of_ascii c in
  if (65 <=? n) && (n <=? 90) then ascii_of_nat (n + 32) else c.

Fixpoint toLowerCase (s : string) : string :=
  match s with
  | EmptyString => EmptyString
  | String c s' => String (lowerChar c) (toLowerCase s')
  end.

Definition upperChar (c : ascii) : ascii :=
  let n := nat_of_ascii c in
  if (97 <=? n) && (n <=? 122) then ascii_of_nat (n - 32) else c.

Fixpoint toUpperCase (s : string) : string :=
  match s with
  | EmptyString => EmptyString
  | String c s' => String (upperChar c) (toUpperCase s')
  end.

(** White space and line terminators of [String.prototype.trim]:
    TAB, LF, VT, FF, CR and SPACE. *)
Definition isWhiteSpace (c : ascii) : bool :=
  let n := nat_of_ascii c in
  ((9 <=? n) && (n <=? 13)) || (n =? 32).

Fixpoint trimStart (s : string) : string :=
  match s with
  | EmptyString => EmptyString
  | String c s' => if isWhiteSpace c then trimStart s' else s
  end.

Definition trimEnd (s : string) : string :=
  String.rev (trimStart (String.rev s)).

Definition trim (s : string) : string := trimEnd (trimStart s).

(** [s.endsWith(suffix)] and [s.startsWith(prefix)]. *)
Definition startsWith (s pre : string) : bool := String.prefix pre s.

Definition endsWith (s suf : string) : bool :=
  String.prefix (String.rev suf) (String.rev s).

(** [items.join(sep)]. *)
Fixpoint join (sep : string) (items : list string) : string :=
  match items with
  | [] => ""
  | [x] => x
  | x :: rest => x +:+ sep +:+ join sep rest
  end.

(** Truthiness of a value of type [string | undefined]: [undefined] and
    the empty string are falsy. *)
Definition truthy (v : option string) : bool :=
  match v with
  | None => false
  | Some s => negb (bool_decide (s = ""))
  end.

(** [v || d] on [string | undefined]. *)
Definition orElse (v : option string) (d : string) : string :=
  match v with
  | Some s => if bool_decide (s = "") then d else s
  | None => d
  end.

(** What reading a property of a plain object gives when the object's
    own properties hold strings: the string of an own property; a member
    of [Object.prototype] when the object has no own property of that
    name and the prototype has one (a function, or the prototype itself
    for [__proto__]); [undefined] otherwise. *)
Inductive Value :=
| undefined
| str (s : string)
| inherited.

(** The property names of [Object.prototype]. *)
Definition prototypeNames : list string :=
  [ "constructor"; "__defineGetter__"; "__defineSetter__"; "hasOwnProperty";
    "__lookupGetter__"; "__lookupSetter__"; "isPrototypeOf";
    "propertyIsEnumerable"; "toString"; "valueOf"; "__proto__";
    "toLocaleString" ].

(** [o[k]] for an object [o] created by an object literal, its own
    properties given as a map. *)
Definition get (o : gmap string string) (k : string) : Value :=
  match o !! k with
  | Some s => str s
  | None => if bool_decide (k ∈ prototypeNames) then inherited else undefined
  end.

(** Truthiness of such a value: functions and objects are truthy. *)
Definition toBoolean (v : Value) : bool :=
  match v with
  | undefined => false
  | str s => negb (bool_decide (s = ""))
  | inherited => true
  end.

(** Numbers are IEEE 754 binary64 values; division and multiplication
    round to nearest, ties to even. *)
Definition prec : Z := 53.
Definition emax : Z := 1024.
Abbreviation number := spec_float.

Definition ofNat (n : nat) : number :=
  binary_normalize prec emax (Z.of_nat n) 0 false.
Definition div (x y : number) : number := SFdiv prec emax x y.
Definition mul (x y : number) : number := SFmul prec emax x y.

(** [Math.round]: the integer nearest to a finite number, the upper one
    at a tie; [None] for [NaN] and the infinities, which are not
    integers. *)
Definition Math_round (x : number) : option Z :=
  match x with
  | S754_zero _ => Some 0%Z
  | S754_finite s m e =>
      let sm := if s then Z.neg m else Z.pos m in
      Some (match e with
            | Z.neg k => ((2 * sm + 2 ^ Z.pos k) / 2 ^ (Z.pos k + 1))%Z
            | _ => (sm * 2 ^ e)%Z
            end)
  | S754_infinity _ | S754_nan => None
  end.

(** The number that rounding builds from a significand and an exponent
    (the last step of a binary64 multiplication). *)
Definition build (m e : Z) : number :=
  match m with
  | Z0 => S754_zero false
  | Zpos p => if (e <=? emax - prec)%Z then S754_finite false p e else S754_infinity false
  | Zneg _ => S754_nan
  end.

(** [Math.floor]: the largest integer not above a finite number. *)
Definition Math_floor (x : number) : option Z :=
  match x with
  | S754_zero _ => Some 0%Z
  | S754_finite s m e =>
      let sm := if s then Z.neg m else Z.pos m in
      Some (match e with
            | Z.neg k => (sm / 2 ^ Z.pos k)%Z
            | _ => (sm * 2 ^ e)%Z
            end)
  | S754_infinity _ | S754_nan => None
  end.

(** The values of [Math.random()]: the binary64 numbers that are at
    least 0 and less than 1. *)
Definition isDraw (x : number) : bool :=
  match x with
  | S754_zero false => true
  | S754_finite false m e =>
      bounded prec emax m e && (e <? 0)%Z && (Z.pos m <? 2 ^ (- e))%Z
  | _ => false
  end.

(** The rational number a finite number stands for. *)
Definition toQ (x : number) : Q :=
  match x with
  | S754_finite s m e =>
      let sm := if s then Z.neg m else Z.pos m in
      match e with
      | Z.neg k => sm # (2 ^ k)
      | _ => inject_Z (sm * 2 ^ e)
      end
  | _ => 0
  end.

End JS.

(** ** The data model, [src/types.ts] *)

Inductive QuestionType := MULTIPLE_CHOICE | TRUE_FALSE | SHORT_ANSWER.

Global Instance QuestionType_eq_dec : EqDecision QuestionType.
Proof. solve_decision. Defined.

Module Question.
Record t := mk {
  id : string;
  type : QuestionType;
  question : string;
  options : option (list string);
  correctAnswer : string;
  explanation : string
}.
End Question.
Abbreviation Question := Question.t.

(** A quiz object.  The field [questions] is a JavaScript array: the
  session component reads it as a value ([A := list Question]), the
  application holds it by reference ([A := loc], see [App]). *)
Module Quiz.
Record t (A : Type) := mk {
  id : string;
  title : string;
  sourceFileName : string;
  createdAt : Z;
  questions : A;
  score : option nat;
  totalQuestions : nat
}.
Global Arguments mk {A}.
Global Arguments id {A}.
Global Arguments title {A}.
Global Arguments sourceFileName {A}.
Global Arguments createdAt {A}.
Global Arguments questions {A}.
Global Arguments score {A}.
Global Arguments totalQuestions {A}.
End Quiz.
Abbreviation Quiz := (Quiz.t (list Question)).

Module QuizAttempt.
Record t := mk {
  answers : gmap string string;
  isSubmitted : bool;
  score : nat
}.
End QuizAttempt.
Abbreviation QuizAttempt := QuizAttempt.t.

(** ** The quiz session component, [src/components/QuizView.tsx] *)

Module QuizView.

(** The four [useState] cells of the component. *)
Record State := mkState {
  currentQuestionIndex : nat;
  answers : gmap string string;
  showFeedback : bool;
  isFinished : bool
}.

(** The values of the [useState] initialisers; the effect on [quiz.id]
    stores the same four values. *)
Definition initial : State := mkState 0 ∅ false false.

Definition reset (_ : State) : State := initial.

(** A task handed to [setTimeout]: the delay asked for and the index the
    callback's closure captured. *)
Record Timeout := mkTimeout {
  delay : nat;
  capturedIndex : nat
}.

Section Component.
Context (quiz : Quiz).

(** [quiz.questions[currentQuestionIndex]], [undefined] out of range. *)
Definition currentQuestion (s : State) : option Question :=
  Quiz.questions quiz !! currentQuestionIndex s.

(** [currentQuestionIndex === quiz.questions.length - 1], on numbers. *)
Definition isLastQuestion (s : State) : bool :=
  (Z.of_nat (currentQuestionIndex s) =? Z.of_nat (length (Quiz.questions quiz)) - 1)%Z.

(** The condition of the scoring loops,
    [answers[q.id]?.toLowerCase().trim() === q.correctAnswer.toLowerCase().trim()].
    For [undefined] the optional chain stops and the left side is
    [undefined], which is not identical to any string.  A member of
    [Object.prototype] is not [undefined] and has no [toLowerCase]: the
    call raises a [TypeError] ([None]). *)
Definition answerMatches (ans : gmap string string) (q : Question) : option bool :=
  match JS.get ans (Question.id q) with
  | JS.undefined => Some false
  | JS.str a =>
      Some (bool_decide (JS.trim (JS.toLowerCase a)
                         = JS.trim (JS.toLowerCase (Question.correctAnswer q))))
  | JS.inherited => None
  end.

(** The [forEach] of both scoring loops, entered with the counter at
    [score]: [score++] for each question whose condition holds; an
    exception leaves the loop. *)
Fixpoint scoreFrom (ans : gmap string string) (qs : list Question) (score : nat)
  : option nat :=
  match qs with
  | [] => Some score
  | q :: rest =>
      matches ← answerMatches ans q;
      scoreFrom ans rest (if matches : bool then S score else score)
  end.

(** [let score = 0] and the loop. *)
Definition scoreLoop (ans : gmap string string) (qs : list Question) : option nat :=
  scoreFrom ans qs 0.

(** The questions a scoring loop counts. *)
Definition correctQuestions (ans : gmap string string) (qs : list Question)
  : list Question :=
  filter (λ q, answerMatches ans q = Some true) qs.

(** No scoring condition raises: no question without a recorded answer
    has an id that names a member of [Object.prototype]. *)
Definition scorable (ans : gmap string string) (qs : list Question) : Prop :=
  Forall (λ q, ans !! Question.id q = None → Question.id q ∉ JS.prototypeNames) qs.

Global Instance scorable_dec ans qs : Decision (scorable ans qs).
Proof. unfold scorable. apply _. Defined.

(** No question id names a member of [Object.prototype]. *)
Definition plainIds : Prop :=
  Forall (λ q, Question.id q ∉ JS.prototypeNames) (Quiz.questions quiz).

Global Instance plainIds_dec : Decision plainIds.
Proof. unfold plainIds. apply _. Defined.

(** [finishQuiz]: sets [isFinished], runs the scoring loop and hands one
    attempt to [onComplete].  When the loop raises, [onComplete] is not
    reached ([None]); the state update made before the loop stands. *)
Definition finishQuiz (s : State) : State * option QuizAttempt :=
  (mkState (currentQuestionIndex s) (answers s) (showFeedback s) true,
   score ← scoreLoop (answers s) (Quiz.questions quiz);
   Some (QuizAttempt.mk (answers s) true score)).

(** [getScore()]; [None] when the loop raises. *)
Definition getScore (s : State) : option nat :=
  scoreLoop (answers s) (Quiz.questions quiz).

(** [Math.round((score / quiz.questions.length) * 100)]; [None] stands for
    [NaN], the value for a quiz without questions ([0 / 0]). *)
Definition percentageOf (score total : nat) : option Z :=
  JS.Math_round (JS.mul (JS.div (JS.ofNat score) (JS.ofNat total)) (JS.ofNat 100)).

(** The percentage of the result page, computed from [getScore()]. *)
Definition percentage (s : State) : option (option Z) :=
  score ← getScore s;
  Some (percentageOf score (length (Quiz.questions quiz))).

(** The integer nearest to [100 * score / total], the upper one at a
    tie, in exact arithmetic. *)
Definition nearestPercent (score total : nat) : Z :=
  ((200 * Z.of_nat score + Z.of_nat total) / (2 * Z.of_nat total))%Z.

(** Whether [percentageOf] agrees with [nearestPercent] for every score
    of every quiz of 1 to [bound] questions. *)
Definition percentagesExact (bound : nat) : bool :=
  forallb (λ total,
             forallb (λ score,
                        bool_decide (percentageOf score total
                                     = Some (nearestPercent score total)))
                     (seq 0 (S total)))
          (seq 1 bound).

(** One entry of the review list rendered once [isFinished] holds. *)
Record ReviewRow := mkReviewRow {
  rowIsCorrect : bool;
  rowUserAnswer : string;
  rowCorrectAnswer : string;
  rowExplanation : option string
}.

(** The row built from [userAnswer], a string. *)
Definition rowOf (userAnswer : string) (q : Question) : ReviewRow :=
  let isCorrect :=
    bool_decide (JS.trim (JS.toLowerCase userAnswer)
                 = JS.trim (JS.toLowerCase (Question.correctAnswer q))) in
  mkReviewRow isCorrect userAnswer (Question.correctAnswer q)
              (if isCorrect then None else Some (Question.explanation q)).

(** [const userAnswer = answers[q.id] || "No answer"] and the row made of
    it.  A member of [Object.prototype] is truthy, so it is the value of
    [userAnswer], and [userAnswer.toLowerCase()] raises ([None]). *)
Definition reviewRow (s : State) (q : Question) : option ReviewRow :=
  match JS.get (answers s) (Question.id q) with
  | JS.undefined => Some (rowOf "No answer" q)
  | JS.str a => Some (rowOf (if bool_decide (a = "") then "No answer" else a) q)
  | JS.inherited => None
  end.

(** [quiz.questions.map(..)] of the result page. *)
Definition review (s : State) : option (list ReviewRow) :=
  mapM (reviewRow s) (Quiz.questions quiz).

(** Whether the result page renders: it calls [getScore()] and builds
    the review rows. *)
Definition rendersResults (s : State) : bool :=
  match getScore s, review s with
  | Some _, Some _ => true
  | _, _ => false
  end.

(** [handleAnswer]: returns the next state and the task given to
    [setTimeout], if any.  The function the handler returns (a call of
    [clearTimeout]) goes to the [onClick]/[onChange] caller, which drops
    it.  [None] is the [TypeError] of reading [currentQuestion.id] when
    [currentQuestion] is [undefined]. *)
Definition handleAnswer (s : State) (answer : string)
  : option (State * option Timeout) :=
  if showFeedback s || isFinished s then Some (s, None)
  else
    q ← currentQuestion s;
    let s' := mkState (currentQuestionIndex s)
                      (<[Question.id q := answer]> (answers s))
                      (showFeedback s) (isFinished s) in
    if (bool_decide (Question.type q = MULTIPLE_CHOICE)
        || bool_decide (Question.type q = TRUE_FALSE))
       && negb (isLastQuestion s)
    then Some (s', Some (mkTimeout 700 (currentQuestionIndex s)))
    else Some (s', None).

(** The callback of the timeout: the functional update of the index,
    then [setShowFeedback(false)]. *)
Definition autoAdvance (captured : nat) (s : State) : State :=
  mkState (if currentQuestionIndex s =? captured
           then currentQuestionIndex s + 1 else currentQuestionIndex s)
          (answers s) false (isFinished s).

Definition handleNext (s : State) : State * option QuizAttempt :=
  if isLastQuestion s then finishQuiz s
  else
    (mkState (currentQuestionIndex s + 1) (answers s) false (isFinished s), None).

Definition handlePrevious (s : State) : State :=
  if 0 <? currentQuestionIndex s then
    mkState (currentQuestionIndex s - 1) (answers s) false (isFinished s)
  else s.

(** The [disabled] attribute of the Next/Finish button,
    [!answers[currentQuestion.id]]. *)
Definition nextDisabled (s : State) : option bool :=
  q ← currentQuestion s;
  Some (negb (JS.toBoolean (JS.get (answers s) (Question.id q)))).

(** [goNext]: a click on the Next/Finish button.  The button is part of
    the in-progress view only, and a disabled button does not call its
    [onClick] handler. *)
Definition goNext (s : State) : option (State * option QuizAttempt) :=
  if isFinished s then Some (s, None)
  else
    nextDisabled s ≫= λ disabled : bool,
      if disabled then Some (s, None) else Some (handleNext s).

(** [goPrevious]: a click on the Previous button, disabled at index 0. *)
Definition goPrevious (s : State) : State :=
  if isFinished s then s
  else if currentQuestionIndex s =? 0 then s
  else handlePrevious s.

End Component.

End QuizView.

(** ** The event loop around the session component

    The browser side of [QuizView]: the clock, the tasks registered with
    [setTimeout] and not yet run, and whether the component is mounted
    (the application renders it while [appState === 'TAKING_QUIZ'], and
    [onExit] leaves that state).  [clearTimeout] is called nowhere: the
    only use the source makes of it is inside the function that
    [handleAnswer] returns to its caller. *)

Module EventLoop.
Import QuizView.

Record Task := mkTask {
  due : nat;
  captured : nat
}.

Record World := mkWorld {
  state : State;
  mounted : bool;
  clock : nat;
  tasks : list Task;
  fired : list Task;
  completed : list QuizAttempt
}.

Inductive Event :=
| Answer (value : string)
| Next
| Previous
| Exit
| Elapse (dt : nat).

Definition start : World := mkWorld initial true 0 [] [] [].

Section Loop.
Context (quiz : Quiz).

(** Running one due task: the callback always runs; its state updates
    reach the component only while it is mounted. *)
Definition fire (w : World) (t : Task) : World :=
  mkWorld (if mounted w then autoAdvance (captured t) (state w) else state w)
          (mounted w) (clock w) (tasks w) (fired w ++ [t]) (completed w).

Definition isDue (now : nat) (t : Task) : bool := due t <=? now.

Definition runDue (w : World) : World :=
  let ready := filter (λ t, isDue (clock w) t = true) (tasks w) in
  let later := filter (λ t, isDue (clock w) t = false) (tasks w) in
  foldl fire (mkWorld (state w) (mounted w) (clock w) later (fired w) (completed w))
        ready.

(** One event.  [None] is the [TypeError] of a handler that reads the
    current question where there is none.  After Next the component is
    rendered again; when the result page raises while rendering
    ([rendersResults]), React unmounts the tree. *)
Definition step (w : World) (e : Event) : option World :=
  match e with
  | Answer value =>
      if mounted w then
        '(s', timeout) ← handleAnswer quiz (state w) value;
        Some (mkWorld s' (mounted w) (clock w)
                (match timeout with
                 | Some t => tasks w ++ [mkTask (clock w + delay t) (capturedIndex t)]
                 | None => tasks w
                 end)
                (fired w) (completed w))
      else Some w
  | Next =>
      if mounted w then
        '(s', attempt) ← goNext quiz (state w);
        Some (mkWorld s' (if isFinished s' then rendersResults quiz s' else mounted w)
                (clock w) (tasks w) (fired w)
                (match attempt with
                 | Some a => completed w ++ [a]
                 | None => completed w
                 end))
      else Some w
  | Previous =>
      if mounted w then
        Some (mkWorld (goPrevious (state w)) (mounted w) (clock w) (tasks w)
                (fired w) (completed w))
      else Some w
  | Exit =>
      Some (mkWorld (state w) false (clock w) (tasks w) (fired w) (completed w))
  | Elapse dt =>
      Some (runDue (mkWorld (state w) (mounted w) (clock w + dt) (tasks w)
                      (fired w) (completed w)))
  end.

Fixpoint run (w : World) (es : list Event) : option World :=
  match es with
  | [] => Some w
  | e :: es' => w' ← step w e; run w' es'
  end.

End Loop.

End EventLoop.

(** ** The application component, [src/App.tsx]: [startQuiz] *)

Module App.

(** Arrays live in a store and quiz objects hold a reference to their
    [questions] array, so that writing through one reference is seen
    through every other. *)
Abbreviation loc := nat.
Abbreviation store := (gmap loc (list Question)).

Inductive AppState := DASHBOARD | GENERATING | TAKING_QUIZ | REVIEW.

Record State := mkState {
  heap : store;
  quizzes : list (Quiz.t loc);
  currentQuiz : option (Quiz.t loc);
  previewQuiz : option (Quiz.t loc);
  appState : AppState;
  randomCalls : nat
}.

(** [Math.floor(Math.random() * (i + 1))] for a value [r] of
    [Math.random()]: the product is a binary64 product, rounded to
    nearest.  For the values [Math.random()] can return the floor is an
    index from 0 to [i] (see [pickIndex_draw]); 0 stands for the index
    that other numbers would give. *)
Definition pickIndex (r : JS.number) (i : nat) : nat :=
  match JS.Math_floor (JS.mul r (JS.ofNat (i + 1))) with
  | Some j => Z.to_nat j
  | None => 0
  end.

(** [[a[i], a[j]] = [a[j], a[i]]]: both reads come first, then the write
    to [a[i]], then the write to [a[j]].  Both indices are inside the
    array on every call the loop makes (see [pickIndex_draw]). *)
Definition swap (a : list Question) (i j : nat) : list Question :=
  match a !! j, a !! i with
  | Some aj, Some ai => <[j := ai]> (<[i := aj]> a)
  | _, _ => a
  end.

Section Shuffle.
(** [random k] is the value of the [k]-th call of [Math.random()]. *)
Context (random : nat → JS.number).

(** The loop [for (let i = ...; i > 0; i--)], entered with index [i] after
    [calls] draws. *)
Fixpoint shuffleLoop (calls : nat) (i : nat) (a : list Question)
  : list Question * nat :=
  match i with
  | 0 => (a, calls)
  | S i' =>
      let j := pickIndex (random calls) i in
      shuffleLoop (S calls) i' (swap a i j)
  end.

(** [[...quiz.questions]] followed by the loop, on a copy. *)
Definition shuffle (calls : nat) (qs : list Question) : list Question * nat :=
  let shuffledQuestions := qs in
  shuffleLoop calls (length shuffledQuestions - 1) shuffledQuestions.

(** [startQuiz(quiz, randomize)].  [{ ...quiz }] copies the fields, the
    [questions] reference included; the spread [[...quiz.questions]]
    allocates a new array. *)
Definition startQuiz (quiz : Quiz.t loc) (randomize : bool) (st : State) : State :=
  let quizToStart := quiz in
  if randomize then
    let source := default [] (heap st !! Quiz.questions quiz) in
    let '(shuffledQuestions, calls') := shuffle (randomCalls st) source in
    let l := fresh (dom (heap st)) in
    let quizToStart :=
      Quiz.mk (Quiz.id quiz) (Quiz.title quiz) (Quiz.sourceFileName quiz)
              (Quiz.createdAt quiz) l (Quiz.score quiz)
              (Quiz.totalQuestions quiz) in
    mkState (<[l := shuffledQuestions]> (heap st)) (quizzes st)
            (Some quizToStart) None TAKING_QUIZ calls'
  else
    mkState (heap st) (quizzes st) (Some quizToStart) None TAKING_QUIZ
            (randomCalls st).

End Shuffle.

(** The backward Fisher-Yates pass with the choice at index [i] given by
    [pick i]: for [i] from the last index down to 1, swap [i] and
    [pick i]. *)
Fixpoint fisherYates (pick : nat → nat) (i : nat) (a : list Question)
  : list Question :=
  match i with
  | 0 => a
  | S i' => fisherYates pick i' (swap a i (pick i))
  end.

(** The choice the loop of [shuffle] makes at index [k] when it is
    entered at index [i] after [calls] draws: the loop reaches [k] after
    [i - k] further draws. *)
Definition choices (random : nat → JS.number) (calls i : nat) (k : nat) : nat :=
  pickIndex (random (calls + (i - k))) k.

(** Choices that stay inside the part of the array still to be
    shuffled: [pick k] in [[0, k]] for every index [k] the pass visits. *)
Definition bounded (pick : nat → nat) (i : nat) : Prop :=
  ∀ k, 1 ≤ k ≤ i → pick k ≤ k.

(** The quiz handed to the session component: the object with its array
    read from the store. *)
Definition props (h : store) (quiz : Quiz.t loc) : Quiz :=
  Quiz.mk (Quiz.id quiz) (Quiz.title quiz) (Quiz.sourceFileName quiz)
          (Quiz.createdAt quiz) (default [] (h !! Quiz.questions quiz))
          (Quiz.score quiz) (Quiz.totalQuestions quiz).

End App.

(** ** The content extractors, [src/services/fileParser.ts] *)

Module FileParser.

(** A [File]: its name, its declared media type, and what reading it
    yields ([None]: the read fails). *)
Record File := mkFile {
  name : string;
  type : string;
  contents : option string
}.

Inductive ParsedContent :=
| text (content : string)
| image (data : option string) (mimeType : string).

(** What a call does to the outside, in order. *)
Inductive Effect :=
| ReadFile (fileName : string)
| DecodePdf
| DecodeWorkbook.

(** A promise that has settled: resolved with a value or rejected with an
    [Error] carrying a message. *)
Inductive Settled (A : Type) :=
| Resolved (a : A)
| Rejected (message : string).
Global Arguments Resolved {A}.
Global Arguments Rejected {A}.

(** Computations: the effects performed and how the promise settled. *)
Definition Async (A : Type) : Type := list Effect * Settled A.

Definition ret {A} (a : A) : Async A := ([], Resolved a).
Definition throw {A} (message : string) : Async A := ([], Rejected message).
Definition perform (e : Effect) : Async unit := ([e], Resolved tt).

Definition bind {A B} (c : Async A) (k : A → Async B) : Async B :=
  match c with
  | (log, Resolved a) => let '(log', r) := k a in (log ++ log', r)
  | (log, Rejected m) => (log, Rejected m)
  end.

(** Settling a promise through its [resolve] and [reject] functions. *)
Definition settle {A} (r : Settled A) : Async A := ([], r).

(** [try { c } catch (error) { handler(error) }]. *)
Definition tryCatch {A} (c : Async A) (handler : string → Async A) : Async A :=
  match c with
  | (log, Resolved a) => (log, Resolved a)
  | (log, Rejected m) => let '(log', r) := handler m in (log ++ log', r)
  end.

Notation "'let!' x := c 'in' k" := (bind c (λ x, k))
  (at level 10, x name, c at level 100, k at level 200, only parsing).

(** The messages of the [Error] objects the module creates. *)
Definition UNSUPPORTED : string :=
  "Unsupported file type. Please upload a PDF, Excel, or Image file.".
Definition IMAGE_FAILED : string := "Failed to process image file.".
Definition READ_FAILED : string := "Failed to read file.".
Definition PDF_EMPTY : string :=
  "PDF appears to be empty or contains only images. Try taking a screenshot or converting to image for OCR.".
Definition PDF_FAILED : string :=
  "Failed to read PDF file. It might be corrupted or password protected.".
Definition EXCEL_EMPTY : string := "Excel file appears to be empty.".
Definition EXCEL_FAILED : string := "Failed to parse Excel file.".

(** The module creates plain [Error] objects and tells them apart by
    their messages only.  The kinds below are the error taxonomy of the
    specification; [errorKind] reads each message as the kind it words. *)
Inductive ErrorKind :=
| UnsupportedTypeError
| CorruptFileError
| EmptyContentError
| GenerationError
| IOError.

Definition errorKind (message : string) : option ErrorKind :=
  if bool_decide (message = UNSUPPORTED) then Some UnsupportedTypeError
  else if bool_decide (message = PDF_EMPTY) then Some EmptyContentError
  else if bool_decide (message = EXCEL_EMPTY) then Some EmptyContentError
  else if bool_decide (message = PDF_FAILED) then Some CorruptFileError
  else if bool_decide (message = EXCEL_FAILED) then Some CorruptFileError
  else if bool_decide (message = IMAGE_FAILED) then Some CorruptFileError
  else if bool_decide (message = READ_FAILED) then Some IOError
  else None.

(** Failing with a given kind. *)
Definition failsWith {A} (c : Async A) (k : ErrorKind) : Prop :=
  ∃ m, c.2 = Rejected m ∧ errorKind m = Some k.

(** A decoded PDF document: for each page the [str] fields of its text
    items, [None] when [getPage] or [getTextContent] rejects. *)
Record PdfDocument := mkPdf {
  pages : list (option (list string))
}.

(** A decoded workbook. *)
Record Workbook (Sheet : Type) := mkWorkbook {
  SheetNames : list string;
  Sheets : gmap string Sheet
}.
Global Arguments mkWorkbook {Sheet}.
Global Arguments SheetNames {Sheet}.
Global Arguments Sheets {Sheet}.

(** [workbook.Sheets[workbook.SheetNames[0]]], [undefined] when the
    workbook lists no sheet or holds none under that name. *)
Definition firstSheet {Sheet : Type} (workbook : Workbook Sheet) : option Sheet :=
  SheetNames workbook !! 0 ≫= λ n, Sheets workbook !! n.

Section Parsers.
(** The two decoding libraries: [pdfjsLib.getDocument(..).promise] and
    [XLSX.read], [None] when they fail, and [XLSX.utils.sheet_to_csv],
    applied to [workbook.Sheets[sheetName]] ([None] for [undefined]),
    [None] when it throws. *)
Context {Sheet : Type}.
Context (getDocument : string → option PdfDocument).
Context (XLSX_read : string → option (Workbook Sheet)).
Context (sheet_to_csv : option Sheet → option string).

(** [reader.readAsDataURL], [reader.readAsBinaryString] and
    [file.arrayBuffer()]; [onerror] or rejection when the read fails. *)
Definition readFile (file : File) (onerror : string) : Async string :=
  let! _ := perform (ReadFile (name file)) in
  match contents file with
  | Some data => ret data
  | None => throw onerror
  end.

(** The capture group of [metadata.match(/:(.*?);/)]: the text between
    the first colon that a semicolon follows on the same line and that
    semicolon. *)
Fixpoint untilSemicolon (s : string) : option string :=
  match s with
  | EmptyString => None
  | String c s' =>
      if bool_decide (c = ";"%char) then Some ""
      else if bool_decide (c = ascii_of_nat 10) || bool_decide (c = ascii_of_nat 13)
      then None
      else String c <$> untilSemicolon s'
  end.

Fixpoint matchMime (s : string) : option string :=
  match s with
  | EmptyString => None
  | String c s' =>
      if bool_decide (c = ":"%char) then
        match untilSemicolon s' with
        | Some m => Some m
        | None => matchMime s'
        end
      else matchMime s'
  end.

(** [result.split(',')]. *)
Fixpoint split_go (cur : string) (s : string) : list string :=
  match s with
  | EmptyString => [String.rev cur]
  | String c s' =>
      if bool_decide (c = ","%char) then String.rev cur :: split_go "" s'
      else split_go (String c cur) s'
  end.
Definition split (s : string) : list string := split_go "" s.

(** The data URL the reader builds from the bytes it read is an input of
    the model: [contents] of an image file holds it. *)
Definition parseImage (file : File) : Async ParsedContent :=
  let! result := readFile file READ_FAILED in
  let parts := split result in
  match parts !! 0 with
  | Some metadata =>
      let mimeType := JS.orElse (matchMime metadata) (type file) in
      ret (image (parts !! 1) mimeType)
  | None => throw IMAGE_FAILED
  end.

(** The page loop of [parsePdf], entered at page number [i]. *)
Fixpoint pageLoop (i : nat) (ps : list (option (list string))) (fullText : string)
  : Async string :=
  match ps with
  | [] => ret fullText
  | None :: _ => throw "getPage"
  | Some items :: rest =>
      let pageText := JS.join " " items in
      pageLoop (S i) rest
        (fullText +:+ "--- Page " +:+ pretty i +:+ " ---" +:+ JS.LF
                  +:+ pageText +:+ JS.LF +:+ JS.LF)
  end.

Definition parsePdf (file : File) : Async string :=
  tryCatch
    (let! arrayBuffer := readFile file "arrayBuffer" in
     let! _ := perform DecodePdf in
     match getDocument arrayBuffer with
     | None => throw "getDocument"
     | Some pdf =>
         let! fullText := pageLoop 1 (pages pdf) "" in
         if String.length (JS.trim fullText) =? 0 then throw PDF_EMPTY
         else ret fullText
     end)
    (λ _, throw PDF_FAILED).

(** [parseExcel] builds its promise by hand: inside [reader.onload] the
    calls [resolve(..)] and [reject(..)] settle it and are not exceptions,
    so the [catch] block sees only what the decoding calls throw. *)
Definition parseExcel (file : File) : Async string :=
  let! data := readFile file READ_FAILED in
  let! outcome :=
    tryCatch
      (let! _ := perform DecodeWorkbook in
       match XLSX_read data with
       | None => throw "XLSX.read"
       | Some workbook =>
           let sheetName := SheetNames workbook !! 0 in
           let sheet := firstSheet workbook in
           match sheet_to_csv sheet with
           | None => throw "sheet_to_csv"
           | Some csv =>
               if (String.length csv =? 0) || (String.length (JS.trim csv) =? 0)
               then ret (Rejected EXCEL_EMPTY)
               else ret (Resolved ("--- Excel Sheet: "
                                   +:+ default "undefined" sheetName
                                   +:+ " ---" +:+ JS.LF +:+ csv))
           end
       end)
      (λ _, ret (Rejected EXCEL_FAILED)) in
  settle outcome.

Definition parseFile (file : File) : Async ParsedContent :=
  let fileType := type file in
  if bool_decide (fileType = "application/pdf") then
    let! t := parsePdf file in ret (text t)
  else if bool_decide (fileType = "application/vnd.openxmlformats-officedocument.spreadsheetml.sheet")
          || bool_decide (fileType = "application/vnd.ms-excel")
          || JS.endsWith (name file) ".xlsx"
          || JS.endsWith (name file) ".xls" then
    let! t := parseExcel file in ret (text t)
  else if JS.startsWith fileType "image/" then
    parseImage file
  else throw UNSUPPORTED.

End Parsers.

End FileParser.

(** ** The upload widget, [src/components/FileUpload.tsx] *)

Module FileUpload.
Import FileParser.

Definition validTypes : list string :=
  [ "application/pdf";
    "application/vnd.openxmlformats-officedocument.spreadsheetml.sheet";
    "application/vnd.ms-excel";
    "image/png"; "image/jpeg"; "image/webp"; "image/heic" ].

Definition validExtensions : list string :=
  [ ".pdf"; ".xlsx"; ".xls"; ".png"; ".jpg"; ".jpeg"; ".webp"; ".heic" ].

(** [validateAndSelect]: [true] when the file goes to [onFileSelect]. *)
Definition validateAndSelect (file : File) : bool :=
  let hasValidExtension :=
    existsb (λ ext, JS.endsWith (JS.toLowerCase (name file)) ext) validExtensions in
  bool_decide (type file ∈ validTypes) || hasValidExtension.

End FileUpload.

(** ** Sample data *)

Module Sample.

Definition q1 : Question :=
  Question.mk "q1" MULTIPLE_CHOICE "2+2" (Some ["3"; "4"; "5"; "22"]) "4"
              "Two plus two is four.".
Definition q2 : Question :=
  Question.mk "q2" TRUE_FALSE "Sky is blue" None "True"
              "Rayleigh scattering.".
Definition q3 : Question :=
  Question.mk "q3" SHORT_ANSWER "Capital of France" None "Paris"
              "Paris is the capital of France.".

Definition quiz : Quiz :=
  Quiz.mk "1700000000000" "Basics" "basics.pdf" 1700000000000%Z [q1; q2; q3] None 3.

(** The same questions in another order. *)
Definition reordered : Quiz :=
  Quiz.mk "1700000000000" "Basics" "basics.pdf" 1700000000000%Z [q3; q1; q2] None 3.

(** All three answered, the last one in lower case with a trailing
    space. *)
Definition allRight : QuizView.State :=
  QuizView.mkState 2 (<["q3" := "paris "]> (<["q2" := "True"]> {["q1" := "4"]}))
                   false false.

(** Two wrong answers, the last question left blank. *)
Definition allWrong : QuizView.State :=
  QuizView.mkState 2 (<["q2" := "False"]> {["q1" := "3"]}) false false.

(** A quiz on object-oriented programming whose second question has the
    id "constructor", a name every plain object inherits. *)
Definition classes : Question :=
  Question.mk "class" SHORT_ANSWER "Which keyword declares a class?" None "class"
              "A class is declared with the keyword class.".
Definition constructor : Question :=
  Question.mk "constructor" SHORT_ANSWER
              "Which method runs when an object is created?" None "constructor"
              "The constructor initialises a new object.".

Definition objectsQuiz : Quiz :=
  Quiz.mk "1700000000002" "Objects" "objects.pdf" 1700000000002%Z
          [classes; constructor] None 2.

(** The first question is answered, then Next is clicked twice: the
    second click is on Finish, with the second question left blank. *)
Definition skipped : list EventLoop.Event :=
  [ EventLoop.Answer "class"; EventLoop.Next; EventLoop.Next ].

(** A quiz whose first question offers the empty string as an option
    and has it as its key. *)
Definition padding : Question :=
  Question.mk "q1" MULTIPLE_CHOICE
              "What does trim() leave of a string of spaces?"
              (Some [""; " "; "undefined"; "null"]) ""
              "Trimming a string of spaces leaves the empty string.".

Definition stringsQuiz : Quiz :=
  Quiz.mk "1700000000003" "Strings" "strings.pdf" 1700000000003%Z
          [padding; q3] None 2.

(** The empty option is clicked, the delay passes, the second question
    is answered and Finish is clicked. *)
Definition emptyOption : list EventLoop.Event :=
  [ EventLoop.Answer ""; EventLoop.Elapse 700; EventLoop.Answer "Paris";
    EventLoop.Next ].

(** The last question of the sample quiz with its input typed, then
    cleared. *)
Definition cleared : QuizView.State :=
  QuizView.mkState 2 (<["q3" := ""]> (<["q2" := "True"]> {["q1" := "4"]}))
                   false false.

(** Three sessions on the sample quiz, with the time between the events.
    [backAndForth]: the first question is answered, then Next and
    Previous are clicked before the 700 units have passed.
    [exited]: the first question is answered and the session is left.
    [straightThrough]: three answers, the Next clicks and Finish, all
    within the delay; then the delay passes. *)
Definition backAndForth : list EventLoop.Event :=
  [ EventLoop.Answer "4"; EventLoop.Elapse 100; EventLoop.Next;
    EventLoop.Elapse 100; EventLoop.Previous; EventLoop.Elapse 500 ].

Definition exited : list EventLoop.Event :=
  [ EventLoop.Answer "4"; EventLoop.Elapse 100; EventLoop.Exit;
    EventLoop.Elapse 600 ].

Definition straightThrough : list EventLoop.Event :=
  [ EventLoop.Answer "4"; EventLoop.Next; EventLoop.Answer "True";
    EventLoop.Next; EventLoop.Answer "Paris"; EventLoop.Next;
    EventLoop.Elapse 700 ].

(** Stand-ins for the two decoding libraries, defined on a few file
    contents: a PDF document without pages, one with a single page that
    carries no text item (a scan), one with text; a workbook whose first
    sheet has no rows and one with two sheets.  A sheet is the list of
    its rows. *)
Definition getDocument (data : string) : option FileParser.PdfDocument :=
  if bool_decide (data = "%PDF-blank") then Some (FileParser.mkPdf [])
  else if bool_decide (data = "%PDF-scan") then Some (FileParser.mkPdf [Some []])
  else if bool_decide (data = "%PDF-text")
  then Some (FileParser.mkPdf [Some ["Hello"; "world"]; Some ["Bye"]])
  else None.

Definition XLSX_read (data : string)
  : option (FileParser.Workbook (list (list string))) :=
  if bool_decide (data = "PK-empty")
  then Some (FileParser.mkWorkbook ["Sheet1"] {["Sheet1" := []]})
  else if bool_decide (data = "PK-data")
  then Some (FileParser.mkWorkbook ["Data"; "More"]
               (<["More" := [["x"]]]> {["Data" := [["a"; "b"]; ["1"; "2"]]]}))
  else None.

Definition sheet_to_csv (sheet : option (list (list string))) : option string :=
  match sheet with
  | None => Some ""
  | Some rows => Some (JS.join JS.LF (JS.join "," <$> rows))
  end.

Definition blankPdf : FileParser.File :=
  FileParser.mkFile "blank.pdf" "application/pdf" (Some "%PDF-blank").
Definition scanPdf : FileParser.File :=
  FileParser.mkFile "scan.pdf" "application/pdf" (Some "%PDF-scan").
Definition textPdf : FileParser.File :=
  FileParser.mkFile "text.pdf" "application/pdf" (Some "%PDF-text").
Definition emptyBook : FileParser.File :=
  FileParser.mkFile "empty.xlsx"
    "application/vnd.openxmlformats-officedocument.spreadsheetml.sheet"
    (Some "PK-empty").
Definition dataBook : FileParser.File :=
  FileParser.mkFile "data.xlsx"
    "application/vnd.openxmlformats-officedocument.spreadsheetml.sheet"
    (Some "PK-data").

(** Files whose declared media type is empty, as browsers report it for
    types they do not know. *)
Definition untypedPdf : FileParser.File :=
  FileParser.mkFile "notes.pdf" "" (Some "%PDF-text").
Definition untypedHeic : FileParser.File :=
  FileParser.mkFile "photo.heic" "" (Some "data:image/heic;base64,AAAA").
Definition upperBook : FileParser.File :=
  FileParser.mkFile "REPORT.XLSX" "" (Some "PK-data").
Definition textFile : FileParser.File :=
  FileParser.mkFile "notes.txt" "text/plain" (Some "hello").

(** The application state with the sample quiz in its library, its array
    stored at location 0, and a source of random numbers that always
    returns one half. *)
Definition stored : Quiz.t App.loc :=
  Quiz.mk "1700000000000" "Basics" "basics.pdf" 1700000000000%Z 0 None 3.

Definition app : App.State :=
  App.mkState {[0 := [q1; q2; q3]]} [stored] None (Some stored) App.DASHBOARD 0.

Definition halves (_ : nat) : JS.number :=
  S754_finite false 4503599627370496 (-53).

(** A draw just below two thirds: [6004799503160661 / 2 ^ 53]. *)
Definition belowTwoThirds : JS.number :=
  S754_finite false 6004799503160661 (-53).

End Sample.

(** ** Classes of strings *)

Module Text.

(** Strings made of white space only (possibly empty). *)
Fixpoint blank (s : string) : bool :=
  match s with
  | EmptyString => true
  | String c s' => JS.isWhiteSpace c && blank s'
  end.

(** Strings of ASCII characters: on these [JS.toLowerCase] and
    [JS.toUpperCase] are the functions of the language. *)
Fixpoint ascii7 (s : string) : bool :=
  match s with
  | EmptyString => true
  | String c s' => (nat_of_ascii c <? 128) && ascii7 s'
  end.

(** Whether a character occurs in a string. *)
Fixpoint occurs (c : ascii) (s : string) : bool :=
  match s with
  | EmptyString => false
  | String c' s' => bool_decide (c' = c) || occurs c s'
  end.

End Text.

(** ** Sessions as the user interface allows them *)

Module Session.
Import QuizView EventLoop.

Section Offered.
Context (quiz : Quiz).

(** The values the in-progress view passes to [handleAnswer]: one button
    per entry of [options] for a MULTIPLE_CHOICE question
    ([currentQuestion.options?.map]), the buttons ['True'] and ['False']
    for a TRUE_FALSE question, and whatever the text input holds for a
    SHORT_ANSWER question. *)
Definition offers (q : Question) (value : string) : Prop :=
  match Question.type q with
  | MULTIPLE_CHOICE => value ∈ default [] (Question.options q)
  | TRUE_FALSE => value ∈ ["True"; "False"]
  | SHORT_ANSWER => True
  end.

Definition offered (w : World) (e : Event) : Prop :=
  match e with
  | Answer value =>
      ∀ q, currentQuestion quiz (state w) = Some q → offers q value
  | _ => True
  end.

(** A sequence of events each of which the view offers in the world it
    arrives in. *)
Fixpoint allOffered (w : World) (es : list Event) : Prop :=
  match es with
  | [] => True
  | e :: es' =>
      offered w e ∧
      match step quiz w e with
      | Some w' => allOffered w' es'
      | None => True
      end
  end.

(** No MULTIPLE_CHOICE question has the empty string among its
    options. *)
Definition optionsNonEmpty : Prop :=
  ∀ q, q ∈ Quiz.questions quiz → Question.type q = MULTIPLE_CHOICE →
       "" ∉ default [] (Question.options q).

(** The question at position [i] has a recorded answer that is not the
    empty string. *)
Definition answeredAt (ans : gmap string string) (i : nat) : Prop :=
  ∃ q, Quiz.questions quiz !! i = Some q ∧ JS.truthy (ans !! Question.id q) = true.

(** What every run keeps: the index is inside the question sequence,
    every queued advance was captured before the last index, feedback is
    never shown, and a finished session stands on the last question,
    with its one attempt emitted when the scoring loop returns, and with
    no attempt and the tree unmounted when it raises. *)
Record Safe (w : World) : Prop := mkSafe {
  safe_index : currentQuestionIndex (state w) < length (Quiz.questions quiz);
  safe_tasks : ∀ t, t ∈ tasks w → captured t + 1 < length (Quiz.questions quiz);
  safe_feedback : showFeedback (state w) = false;
  safe_finished :
    if isFinished (state w)
    then currentQuestionIndex (state w) + 1 = length (Quiz.questions quiz)
         ∧ completed w
           = match getScore quiz (state w) with
             | Some score => [QuizAttempt.mk (answers (state w)) true score]
             | None => []
             end
         ∧ (getScore quiz (state w) = None → mounted w = false)
    else completed w = []
}.

(** What runs of offered events keep: the questions before the current
    one are answered, the question a queued advance was captured at is
    answered, and in a finished session every question is. *)
Record Answered (w : World) : Prop := mkAnswered {
  answered_before :
    ∀ i, i < currentQuestionIndex (state w) → answeredAt (answers (state w)) i;
  answered_tasks :
    ∀ t, t ∈ tasks w →
      ∃ q, Quiz.questions quiz !! captured t = Some q
           ∧ Question.type q ≠ SHORT_ANSWER
           ∧ JS.truthy (answers (state w) !! Question.id q) = true;
  answered_finished :
    isFinished (state w) = true →
    ∀ i, i < length (Quiz.questions quiz) → answeredAt (answers (state w)) i
}.

End Offered.

End Session.

(** ** What the extractors produce, in closed form *)

Module Extracted.

(** The text [parsePdf] appends for page number [i]. *)
Definition pageBlock (i : nat) (items : list string) : string :=
  "--- Page " +:+ pretty i +:+ " ---" +:+ JS.LF
  +:+ JS.join " " items +:+ JS.LF +:+ JS.LF.

(** The blocks of consecutive pages, the first one numbered [i]. *)
Fixpoint pdfText (i : nat) (texts : list (list string)) : string :=
  match texts with
  | [] => ""
  | items :: rest => pageBlock i items +:+ pdfText (S i) rest
  end.

(** A data URL as [readAsDataURL] builds it. *)
Definition dataUrl (mimeType payload : string) : string :=
  "data:" +:+ mimeType +:+ ";base64," +:+ payload.

(** The effect logs a call of [parseFile] can leave. *)
Definition effectLogs (file : FileParser.File) : list (list FileParser.Effect) :=
  [ [];
    [FileParser.ReadFile (FileParser.name file)];
    [FileParser.ReadFile (FileParser.name file); FileParser.DecodePdf];
    [FileParser.ReadFile (FileParser.name file); FileParser.DecodeWorkbook] ].

(** The messages a rejection of [parseFile] can carry. *)
Definition messages : list string :=
  [ FileParser.UNSUPPORTED; FileParser.PDF_FAILED; FileParser.READ_FAILED;
    FileParser.EXCEL_EMPTY; FileParser.EXCEL_FAILED ].

(** The condition under which no branch of [parseFile] is taken. *)
Definition noBranch (file : FileParser.File) : bool :=
  negb (bool_decide (FileParser.type file = "application/pdf"))
  && negb (bool_decide (FileParser.type file
                        = "application/vnd.openxmlformats-officedocument.spreadsheetml.sheet"))
  && negb (bool_decide (FileParser.type file = "application/vnd.ms-excel"))
  && negb (JS.endsWith (FileParser.name file) ".xlsx")
  && negb (JS.endsWith (FileParser.name file) ".xls")
  && negb (JS.startsWith (FileParser.type file) "image/").

End Extracted.

(** ** The quiz library, [src/App.tsx]: generation, preview, completion,
    deletion *)

Module Library.
Import App.

(** The generation form: the selected file, the two flags shown while
    and after processing, and the generation settings. *)
Record Form := mkForm {
  file : option FileParser.File;
  isProcessing : bool;
  error : option string;
  questionCount : nat;
  difficulty : string
}.

Definition initialForm : Form := mkForm None false None 5 "Medium".

Definition initial : State := mkState ∅ [] None None DASHBOARD 0.

(** [{ ...q, score }]: a new object with the fields of [q], the
    [questions] reference included, and the given score. *)
Definition withScore (q : Quiz.t loc) (score : nat) : Quiz.t loc :=
  Quiz.mk (Quiz.id q) (Quiz.title q) (Quiz.sourceFileName q) (Quiz.createdAt q)
          (Quiz.questions q) (Some score) (Quiz.totalQuestions q).

(** [deleteQuiz(id)]. *)
Definition deleteQuiz (id : string) (st : State) : State :=
  mkState (heap st) (filter (λ q, Quiz.id q ≠ id) (quizzes st)) (currentQuiz st)
          (if bool_decide (Quiz.id <$> previewQuiz st = Some id)
           then None else previewQuiz st)
          (appState st) (randomCalls st).

(** [openQuizPreview(quiz)]. *)
Definition openQuizPreview (quiz : Quiz.t loc) (st : State) : State :=
  mkState (heap st) (quizzes st) (currentQuiz st) (Some quiz) (appState st)
          (randomCalls st).

(** [handleQuizComplete(attempt)]. *)
Definition handleQuizComplete (attempt : QuizAttempt) (st : State) : State :=
  match currentQuiz st with
  | None => st
  | Some current =>
      mkState (heap st)
              (map (λ q, if bool_decide (Quiz.id q = Quiz.id current)
                         then withScore q (QuizAttempt.score attempt) else q)
                   (quizzes st))
              (currentQuiz st) (previewQuiz st) (appState st) (randomCalls st)
  end.

Section Generate.
(** The decoding libraries of the parser and the generation service,
    which settles with a title and a question sequence or rejects. *)
Context {Sheet : Type}.
Context (getDocument : string → option FileParser.PdfDocument).
Context (XLSX_read : string → option (FileParser.Workbook Sheet)).
Context (sheet_to_csv : option Sheet → option string).
Context (generateQuizFromContent :
           FileParser.ParsedContent → nat → string →
           FileParser.Settled (string * list Question)).

(** What the [try] block of [handleGenerate] awaits: the parsed content,
    then the generated data. *)
Definition generated (f : FileParser.File) (fm : Form)
  : FileParser.Settled (string * list Question) :=
  match (FileParser.parseFile getDocument XLSX_read sheet_to_csv f).2 with
  | FileParser.Rejected m => FileParser.Rejected m
  | FileParser.Resolved content =>
      generateQuizFromContent content (questionCount fm) (difficulty fm)
  end.

(** [handleGenerate], with the two values [Date.now()] returns, for the id
    and for [createdAt].  The array of generated questions is stored at a
    new location. *)
Definition handleGenerate (now1 now2 : Z) (st : State) (fm : Form) : State * Form :=
  match file fm with
  | None => (st, fm)
  | Some f =>
      match generated f fm with
      | FileParser.Resolved (title, questions) =>
          let l := fresh (dom (heap st)) in
          let newQuiz :=
            Quiz.mk (pretty now1) title (FileParser.name f) now2 l None
                    (length questions) in
          (mkState (<[l := questions]> (heap st)) (newQuiz :: quizzes st)
                   (Some newQuiz) (previewQuiz st) TAKING_QUIZ (randomCalls st),
           mkForm None false None (questionCount fm) (difficulty fm))
      | FileParser.Rejected message =>
          (st, mkForm (file fm) false
                 (Some (JS.orElse (Some message) "An unexpected error occurred."))
                 (questionCount fm) (difficulty fm))
      end
  end.

(** What the user can do with the application. *)
Inductive Action :=
| SelectFile (f : FileParser.File)
| Generate (now1 now2 : Z)
| Preview (position : nat)
| Start (randomize : bool)
| Complete (index : nat) (answers : gmap string string)
| Delete (id : string)
| ExitQuiz.

Context (random : nat → JS.number).

(** The attempt a session on the current quiz hands to [onComplete] when
    it finishes with the given answers; none when its scoring loop
    raises. *)
Definition attemptOf (st : State) (index : nat) (answers : gmap string string)
  : option QuizAttempt :=
  current ← currentQuiz st;
  (QuizView.finishQuiz (props (heap st) current)
     (QuizView.mkState index answers false false)).2.

Definition step (st : State) (fm : Form) (a : Action) : State * Form :=
  match a with
  | SelectFile f =>
      (st, mkForm (Some f) (isProcessing fm) (error fm) (questionCount fm)
             (difficulty fm))
  | Generate now1 now2 => handleGenerate now1 now2 st fm
  | Preview position =>
      match quizzes st !! position with
      | Some quiz => (openQuizPreview quiz st, fm)
      | None => (st, fm)
      end
  | Start randomize =>
      match previewQuiz st with
      | Some quiz => (startQuiz random quiz randomize st, fm)
      | None => (st, fm)
      end
  | Complete index answers =>
      match attemptOf st index answers with
      | Some attempt => (handleQuizComplete attempt st, fm)
      | None => (st, fm)
      end
  | Delete id => (deleteQuiz id st, fm)
  | ExitQuiz =>
      (mkState (heap st) (quizzes st) (currentQuiz st) (previewQuiz st) DASHBOARD
               (randomCalls st), fm)
  end.

Fixpoint run (st : State) (fm : Form) (actions : list Action) : State * Form :=
  match actions with
  | [] => (st, fm)
  | a :: rest => let '(st', fm') := step st fm a in run st' fm' rest
  end.

(** [Date.now()] has moved on between two generations: the id of a new
    quiz is not the id of a quiz of the library. *)
Fixpoint freshIds (st : State) (fm : Form) (actions : list Action) : Prop :=
  match actions with
  | [] => True
  | a :: rest =>
      match a with
      | Generate now1 _ => pretty now1 ∉ Quiz.id <$> quizzes st
      | _ => True
      end
      ∧ let '(st', fm') := step st fm a in freshIds st' fm' rest
  end.

End Generate.

(** A quiz object agrees with the store: its array is there,
    [totalQuestions] is its length and a score does not exceed it. *)
Definition sound (h : store) (quiz : Quiz.t loc) : Prop :=
  ∃ qs, h !! Quiz.questions quiz = Some qs
        ∧ Quiz.totalQuestions quiz = length qs
        ∧ ∀ score, Quiz.score quiz = Some score → score ≤ length qs.

(** A quiz object outside the library ([currentQuiz], [previewQuiz])
    that shares its id with a quiz of the library has as many
    questions. *)
Definition linked (library : list (Quiz.t loc)) (quiz : Quiz.t loc) : Prop :=
  ∀ q, q ∈ library → Quiz.id q = Quiz.id quiz →
       Quiz.totalQuestions q = Quiz.totalQuestions quiz.

Record Consistent (st : State) : Prop := mkConsistent {
  consistent_ids : NoDup (Quiz.id <$> quizzes st);
  consistent_library : ∀ q, q ∈ quizzes st → sound (heap st) q;
  consistent_current :
    ∀ q, currentQuiz st = Some q → sound (heap st) q ∧ linked (quizzes st) q;
  consistent_preview :
    ∀ q, previewQuiz st = Some q →
         sound (heap st) q ∧ linked (quizzes st) q
         ∧ Quiz.id q ∈ Quiz.id <$> quizzes st
}.

End Library.

(** ** A sample run of the application *)

Module Scenario.

(** A generation service that answers every text with the three sample
    questions and has no answer for images. *)
Definition generate (content : FileParser.ParsedContent) (count : nat)
    (difficulty : string) : FileParser.Settled (string * list Question) :=
  match content with
  | FileParser.text _ =>
      FileParser.Resolved ("Basics", [Sample.q1; Sample.q2; Sample.q3])
  | FileParser.image _ _ =>
      FileParser.Rejected "No response received from Gemini."
  end.

(** The sample PDF is uploaded and a quiz generated from it; the user
    leaves the session, opens the preview of the new quiz, starts a
    randomized retake, finishes it with all answers right and goes back
    to the dashboard. *)
Definition actions : list Library.Action :=
  [ Library.SelectFile Sample.textPdf;
    Library.Generate 1700000000000 1700000000001;
    Library.ExitQuiz;
    Library.Preview 0;
    Library.Start true;
    Library.Complete 2 (QuizView.answers Sample.allRight);
    Library.ExitQuiz ].

Definition step :=
  Library.step Sample.getDocument Sample.XLSX_read Sample.sheet_to_csv generate
               Sample.halves.

Definition run :=
  Library.run Sample.getDocument Sample.XLSX_read Sample.sheet_to_csv generate
              Sample.halves.

End Scenario.

(** ** The generation service, [generateQuizFromContent] *)

Module GeminiService.

(** [process.env]. *)
Record Env := mkEnv {
  API_KEY : option string;
  GEMINI_API_KEY : option string
}.

(** A part of the request. *)
Inductive Part :=
| textPart (text : string)
| inlineDataPart (data : option string) (mimeType : string).

(** A call of [ai.models.generateContent] with the client's key and the
    parts of [contents]; the model name and the response schema are the
    same in every call. *)
Record Call := mkCall {
  apiKey : string;
  parts : list Part
}.

(** [s.slice(0, n)]. *)
Fixpoint slice0 (n : N) (s : string) : string :=
  match s with
  | EmptyString => EmptyString
  | String c s' => if (n =? 0)%N then EmptyString else String c (slice0 (N.pred n) s')
  end.

(** [a || b] on values of type [string | undefined], the result
    included. *)
Definition orUndefined (a b : option string) : option string :=
  if JS.truthy a then a else b.

Definition KEY_MISSING : string :=
  "Gemini API Key is missing. Please check your Vercel Environment Variables.".
Definition NO_RESPONSE : string := "No response received from Gemini.".
Definition INVALID_DATA : string := "Failed to generate valid quiz data.".

(** The text of [instructionPart]. *)
Definition instruction (questionCount : nat) (difficulty : string) : string :=
  "
    You are an expert educational content creator and quiz master.
    Analyze the provided document or image content and generate a quiz.
    
    Requirements:
    1. Generate exactly " +:+ pretty questionCount +:+ " questions.
    2. Difficulty level: " +:+ difficulty +:+ ".
    3. Mix of Question Types: Multiple Choice, True/False, Short Answer.
    4. For Multiple Choice, provide 4 options.
    5. Provide a short, concise explanation for the correct answer.
    6. Generate a catchy title for this quiz based on the content.
    
    If the content is an image, perform OCR and visual analysis to extract relevant educational information before creating the quiz.
    ".

Section Service.
(** The client: [generateContent] settles with [response.text] or
    rejects; [JSON.parse] returns the data or throws. *)
Context (generateContent : Call → FileParser.Settled (option string)).
Context (JSON_parse : string → FileParser.Settled (string * list Question)).

(** [contents] as built before the call. *)
Definition contentsOf (content : FileParser.ParsedContent) (questionCount : nat)
    (difficulty : string) : list Part :=
  [ textPart (instruction questionCount difficulty);
    match content with
    | FileParser.text c =>
        textPart ("Document Content:" +:+ JS.LF +:+ slice0 100000 c)
    | FileParser.image data mimeType => inlineDataPart data mimeType
    end ].

(** The calls made and how the promise settles. *)
Definition generateQuizFromContent (env : Env) (content : FileParser.ParsedContent)
    (questionCount : nat) (difficulty : string)
  : list Call * FileParser.Settled (string * list Question) :=
  match orUndefined (API_KEY env) (GEMINI_API_KEY env) with
  | None => ([], FileParser.Rejected KEY_MISSING)
  | Some key =>
      if bool_decide (key = "") then ([], FileParser.Rejected KEY_MISSING)
      else
        let call := mkCall key (contentsOf content questionCount difficulty) in
        let rethrow (message : string) :=
          FileParser.Rejected (JS.orElse (Some message) INVALID_DATA) in
        ([call],
         match generateContent call with
         | FileParser.Rejected message => rethrow message
         | FileParser.Resolved text =>
             if JS.truthy text then
               match JSON_parse (default "" text) with
               | FileParser.Resolved data => FileParser.Resolved data
               | FileParser.Rejected message => rethrow message
               end
             else rethrow NO_RESPONSE
         end)
  end.

End Service.

End GeminiService.

(** * Properties *)

(** ** Scoring *)

Section Scoring.
Import QuizView.
Context (quiz : Quiz).

Lemma get_own (ans : gmap string string) (k a : string) :
  ans !! k = Some a → JS.get ans k = JS.str a.
Proof. intros H. unfold JS.get. by rewrite H. Qed.

Lemma get_plain (ans : gmap string string) (k : string) :
  ans !! k = None → k ∉ JS.prototypeNames → JS.get ans k = JS.undefined.
Proof.
  intros H Hk. unfold JS.get. rewrite H. by rewrite bool_decide_eq_false_2.
Qed.

Lemma get_inherited (ans : gmap string string) (k : string) :
  JS.get ans k = JS.inherited ↔ ans !! k = None ∧ k ∈ JS.prototypeNames.
Proof.
  unfold JS.get. destruct (ans !! k) as [a|]; [by split; [|intros [? _]]|].
  case_bool_decide; split; try done; by intros [_ ?].
Qed.

Lemma answerMatches_spec (ans : gmap string string) (q : Question) :
  answerMatches ans q = Some true ↔
  ∃ a, ans !! Question.id q = Some a ∧
       JS.trim (JS.toLowerCase a)
       = JS.trim (JS.toLowerCase (Question.correctAnswer q)).
Proof.
  unfold answerMatches, JS.get. destruct (ans !! Question.id q) as [a|].
  - split.
    + intros [= H%bool_decide_eq_true]. by exists a.
    + intros (a' & [= <-] & H). by rewrite bool_decide_eq_true_2.
  - case_bool_decide; (split; [done|]); intros (a & [=] & _).
Qed.

Lemma answerMatches_unanswered (ans : gmap string string) (q : Question) :
  ans !! Question.id q = None → Question.id q ∉ JS.prototypeNames →
  answerMatches ans q = Some false.
Proof. intros H Hk. unfold answerMatches. by rewrite get_plain. Qed.

Lemma answerMatches_raises (ans : gmap string string) (q : Question) :
  answerMatches ans q = None ↔
  ans !! Question.id q = None ∧ Question.id q ∈ JS.prototypeNames.
Proof.
  rewrite <- get_inherited. unfold answerMatches.
  by destruct (JS.get ans (Question.id q)).
Qed.

Lemma answerMatches_is_Some (ans : gmap string string) (q : Question) :
  is_Some (answerMatches ans q) ↔
  (ans !! Question.id q = None → Question.id q ∉ JS.prototypeNames).
Proof.
  rewrite <- not_eq_None_Some, answerMatches_raises. split.
  - intros H Hn Hk. by apply H.
  - intros H [Hn Hk]. by apply H.
Qed.

Lemma scoreFrom_count (ans : gmap string string) (qs : list Question) (n : nat) :
  scorable ans qs →
  scoreFrom ans qs n = Some (n + length (correctQuestions ans qs)).
Proof.
  unfold scorable. revert n. induction qs as [|q qs IH]; intros n Hs; simpl.
  - unfold correctQuestions. simpl. f_equal. lia.
  - apply Forall_cons in Hs as [Hq Hs].
    apply answerMatches_is_Some in Hq as [b Hb]. rewrite Hb. simpl.
    rewrite IH by done. unfold correctQuestions. destruct b.
    + rewrite filter_cons_True by done. simpl. f_equal. lia.
    + rewrite filter_cons_False by congruence. done.
Qed.

Lemma scoreFrom_raises (ans : gmap string string) (qs : list Question) (n : nat) :
  ¬ scorable ans qs → scoreFrom ans qs n = None.
Proof.
  unfold scorable. revert n. induction qs as [|q qs IH]; intros n Hs; simpl.
  - by destruct Hs.
  - destruct (answerMatches ans q) as [b|] eqn:Hb; [|done]. simpl.
    apply IH. intros Hqs. apply Hs. apply Forall_cons. split; [|done].
    apply answerMatches_is_Some. by exists b.
Qed.

Lemma scoreLoop_count (ans : gmap string string) (qs : list Question) :
  scorable ans qs → scoreLoop ans qs = Some (length (correctQuestions ans qs)).
Proof. intros H. unfold scoreLoop. by rewrite scoreFrom_count. Qed.

Lemma scoreLoop_raises (ans : gmap string string) (qs : list Question) :
  ¬ scorable ans qs → scoreLoop ans qs = None.
Proof. apply scoreFrom_raises. Qed.

Lemma scoreLoop_is_Some (ans : gmap string string) (qs : list Question) :
  is_Some (scoreLoop ans qs) ↔ scorable ans qs.
Proof.
  split.
  - intros [n Hn]. destruct (decide (scorable ans qs)) as [|Hno]; [done|].
    by rewrite scoreLoop_raises in Hn.
  - intros H. rewrite scoreLoop_count by done. by eexists.
Qed.

Lemma scoreLoop_Some (ans : gmap string string) (qs : list Question) (n : nat) :
  scoreLoop ans qs = Some n →
  scorable ans qs ∧ n = length (correctQuestions ans qs).
Proof.
  intros Hn. assert (Hs : scorable ans qs) by (apply scoreLoop_is_Some; by eexists).
  split; [done|]. rewrite scoreLoop_count in Hn by done. congruence.
Qed.

Lemma scoreLoop_le (ans : gmap string string) (qs : list Question) (n : nat) :
  scoreLoop ans qs = Some n → n ≤ length qs.
Proof. intros [_ ->]%scoreLoop_Some. apply length_filter. Qed.

Lemma plainIds_scorable (ans : gmap string string) :
  plainIds quiz → scorable ans (Quiz.questions quiz).
Proof. unfold plainIds, scorable. intros H. eapply Forall_impl; [exact H|]. auto. Qed.

End Scoring.

(** ** The percentage shown on the result page *)

(** The quotient [(200 s + n) / 2 n] is the integer nearest to
    [100 s / n], the upper one at a tie. *)
Lemma nearest_percent (s n : nat) :
  0 < n →
  let p := QuizView.nearestPercent s n in
  ((2 * p - 1) * Z.of_nat n ≤ 200 * Z.of_nat s < (2 * p + 1) * Z.of_nat n)%Z.
Proof.
  intros Hn p. unfold QuizView.nearestPercent in p.
  pose proof (Z.div_mod (200 * Z.of_nat s + Z.of_nat n) (2 * Z.of_nat n)
                ltac:(lia)) as Hdm.
  pose proof (Z.mod_pos_bound (200 * Z.of_nat s + Z.of_nat n) (2 * Z.of_nat n)
                ltac:(lia)) as Hb.
  fold p in Hdm. nia.
Qed.

(** Up to 39 questions the double precision computation gives the
    nearest integer; with 40 questions it does not: [23 / 40] is a
    double just below 0.575, its product with 100 is just below 57.5. *)
Lemma percentagesExact_39 : QuizView.percentagesExact 39 = true.
Proof. vm_compute. reflexivity. Qed.

Example percentage_23_of_40 :
  QuizView.percentageOf 23 40 = Some 57%Z ∧ QuizView.nearestPercent 23 40 = 58%Z.
Proof. vm_compute. auto. Qed.

Lemma percentageOf_nearest (score total : nat) :
  1 ≤ total ≤ 39 → score ≤ total →
  QuizView.percentageOf score total = Some (QuizView.nearestPercent score total).
Proof.
  intros Ht Hs. pose proof percentagesExact_39 as H.
  unfold QuizView.percentagesExact in H.
  assert (Htotal : In total (seq 1 39)) by (apply in_seq; lia).
  assert (Hscore : In score (seq 0 (S total))) by (apply in_seq; lia).
  pose proof (proj1 (forallb_forall _ _) H total Htotal) as H'.
  pose proof (proj1 (forallb_forall _ _) H' score Hscore) as H''.
  by apply bool_decide_eq_true in H''.
Qed.

(** C1 as stated does not hold.  A question without a recorded answer
    whose id names a member of [Object.prototype] makes the scoring loop
    raise, so that no attempt is emitted; and with 23 of 40 questions
    right the percentage of the result page is 57, while the integer
    nearest to [100 * 23 / 40 = 57.5] is 58. *)
Lemma finishQuiz_scoring_counterexample :
  ¬ (∀ (quiz : Quiz) (s : QuizView.State) (q : Question),
       q ∈ Quiz.questions quiz →
       QuizView.answers s !! Question.id q = None →
       QuizView.answerMatches (QuizView.answers s) q = Some false
       ∧ is_Some (QuizView.finishQuiz quiz s).2)
  ∧ ¬ (∀ score total : nat,
         score ≤ total → 0 < total →
         QuizView.percentageOf score total
         = Some (QuizView.nearestPercent score total)).
Proof.
  split.
  - intros H.
    destruct (H Sample.objectsQuiz QuizView.initial Sample.constructor) as [H1 _].
    + unfold Sample.objectsQuiz. simpl. apply list_elem_of_further, list_elem_of_here.
    + reflexivity.
    + vm_compute in H1. discriminate H1.
  - intros H. specialize (H 23 40 ltac:(lia) ltac:(lia)).
    vm_compute in H. discriminate H.
Qed.

(** C1, amended: when no question without a recorded answer has an id
    that names a member of [Object.prototype], at the transition to the
    finished state a question is counted iff its recorded answer,
    lower-cased and trimmed, equals its [correctAnswer] lower-cased and
    trimmed; a question without a recorded answer is not counted;
    an attempt is emitted whose score is the number of counted
    questions; and for a quiz of 1 to 39 questions the percentage of the
    result page is the integer nearest to
    [100 * score / questions.length], the upper one at a tie. *)
Theorem finishQuiz_scoring (quiz : Quiz) (s : QuizView.State) :
  let ans := QuizView.answers s in
  let qs := Quiz.questions quiz in
  let finished := (QuizView.finishQuiz quiz s).1 in
  QuizView.scorable ans qs →
  (∀ q, QuizView.answerMatches ans q = Some true ↔
        ∃ a, ans !! Question.id q = Some a ∧
             JS.trim (JS.toLowerCase a)
             = JS.trim (JS.toLowerCase (Question.correctAnswer q)))
  ∧ (∀ q, q ∈ qs → ans !! Question.id q = None →
          QuizView.answerMatches ans q = Some false)
  ∧ QuizView.isFinished finished = true
  ∧ QuizView.answers finished = ans
  ∧ ∃ attempt,
      (QuizView.finishQuiz quiz s).2 = Some attempt
      ∧ QuizAttempt.answers attempt = ans
      ∧ QuizAttempt.isSubmitted attempt = true
      ∧ QuizAttempt.score attempt = length (QuizView.correctQuestions ans qs)
      ∧ QuizAttempt.score attempt ≤ length qs
      ∧ QuizView.getScore quiz finished = Some (QuizAttempt.score attempt)
      ∧ (1 ≤ length qs ≤ 39 →
         ∃ p : Z, QuizView.percentage quiz finished = Some (Some p)
           ∧ ((2 * p - 1) * Z.of_nat (length qs)
              ≤ 200 * Z.of_nat (QuizAttempt.score attempt)
              < (2 * p + 1) * Z.of_nat (length qs))%Z).
Proof.
  intros ans qs finished Hs.
  split; [apply answerMatches_spec|].
  split.
  { intros q Hq Hnone. apply answerMatches_unanswered; [done|].
    unfold QuizView.scorable in Hs. rewrite Forall_forall in Hs. by apply Hs. }
  do 2 (split; [reflexivity|]).
  pose proof (scoreLoop_count ans qs Hs) as Hscore.
  assert (Hle : length (QuizView.correctQuestions ans qs) ≤ length qs)
    by apply length_filter.
  unfold QuizView.finishQuiz. simpl. fold ans qs. rewrite Hscore. simpl.
  eexists. split; [reflexivity|]. simpl.
  do 3 (split; [reflexivity|]). split; [done|].
  subst finished. unfold QuizView.percentage, QuizView.getScore. simpl.
  fold ans qs. rewrite Hscore. simpl. split; [done|].
  intros Hlen. eexists. split.
  - f_equal. by apply percentageOf_nearest.
  - apply nearest_percent. lia.
Qed.

Lemma finishQuiz_scoring_witness :
  QuizAttempt.score <$> (QuizView.finishQuiz Sample.quiz Sample.allRight).2 = Some 3
  ∧ QuizView.percentage Sample.quiz
      (QuizView.finishQuiz Sample.quiz Sample.allRight).1 = Some (Some 100%Z).
Proof.
  pose proof (finishQuiz_scoring Sample.quiz Sample.allRight) as H.
  cbv zeta in H.
  destruct H as (_ & _ & _ & _ & attempt & Hattempt & _ & _ & Hscore & _ & _ & Hpct).
  { apply (bool_decide_unpack _). vm_compute. reflexivity. }
  assert (Hs : QuizAttempt.score attempt = 3).
  { rewrite Hscore. vm_compute. reflexivity. }
  split; [by rewrite Hattempt; simpl; rewrite Hs|].
  destruct (Hpct ltac:(simpl; lia)) as (p & -> & Hp).
  rewrite Hs in Hp. simpl in Hp. do 2 f_equal. lia.
Defined.

Example scenario_all_wrong :
  QuizAttempt.score <$> (QuizView.finishQuiz Sample.quiz Sample.allWrong).2 = Some 0
  ∧ (QuizView.review Sample.quiz Sample.allWrong
       ≫= λ rows, QuizView.rowUserAnswer <$> rows !! 2)
    = Some "No answer".
Proof. split; vm_compute; reflexivity. Qed.

(** ** The shuffle *)

Section ShuffleFacts.
Import App.

Lemma insert_head_perm (a : list Question) (j : nat) (x y : Question) :
  a !! j = Some y → y :: <[j := x]> a ≡ₚ x :: a.
Proof.
  revert j. induction a as [|z a IH]; intros [|j] Hj; simplify_eq/=.
  - apply perm_swap.
  - rewrite (perm_swap z y). rewrite (IH _ Hj). apply perm_swap.
Qed.

Lemma swap_values (a : list Question) (i j : nat) (x y : Question) :
  a !! i = Some x → a !! j = Some y →
  <[j := x]> (<[i := y]> a) ≡ₚ a.
Proof.
  revert i j. induction a as [|z a IH]; intros [|i] [|j] Hi Hj; simplify_eq/=.
  - done.
  - by apply insert_head_perm.
  - by apply insert_head_perm.
  - f_equiv. by apply IH.
Qed.

Lemma swap_perm (a : list Question) (i j : nat) : swap a i j ≡ₚ a.
Proof.
  unfold swap. destruct (a !! j) as [aj|] eqn:Hj; [|done].
  destruct (a !! i) as [ai|] eqn:Hi; [|done].
  by apply swap_values.
Qed.

Lemma swap_length (a : list Question) (i j : nat) : length (swap a i j) = length a.
Proof. apply Permutation_length, swap_perm. Qed.

Lemma fisherYates_perm (pick : nat → nat) (i : nat) (a : list Question) :
  fisherYates pick i a ≡ₚ a.
Proof.
  revert a. induction i as [|i IH]; intros a; simpl; [done|].
  rewrite IH. apply swap_perm.
Qed.

Lemma fisherYates_ext (pick pick' : nat → nat) (i : nat) (a : list Question) :
  (∀ k, 1 ≤ k ≤ i → pick k = pick' k) →
  fisherYates pick i a = fisherYates pick' i a.
Proof.
  revert a. induction i as [|i IH]; intros a Hext; simpl; [done|].
  rewrite (Hext (S i)) by lia. apply IH. intros k Hk. apply Hext. lia.
Qed.

(** The choices the loop makes: index [k] is handled by draw number
    [calls + (i - k)]. *)
Lemma shuffleLoop_fisherYates (random : nat → JS.number) (calls i : nat) (a : list Question) :
  shuffleLoop random calls i a
  = (fisherYates (choices random calls i) i a, calls + i).
Proof.
  revert calls a. induction i as [|i IH]; intros calls a; simpl.
  - f_equal. lia.
  - rewrite IH. f_equal; [|lia].
    unfold choices at 3. rewrite Nat.sub_diag, Nat.add_0_r.
    apply fisherYates_ext. intros k Hk. unfold choices.
    do 2 f_equal. lia.
Qed.


Lemma swap_lookup_other (a : list Question) (i j m : nat) :
  m ≠ i → m ≠ j → swap a i j !! m = a !! m.
Proof.
  intros Hi Hj. unfold swap.
  destruct (a !! j) as [aj|]; [|done]. destruct (a !! i) as [ai|]; [|done].
  by rewrite !list_lookup_insert_ne.
Qed.

Lemma swap_lookup_left (a : list Question) (i j : nat) :
  i < length a → j < length a → swap a i j !! i = a !! j.
Proof.
  intros Hi Hj. unfold swap.
  destruct (lookup_lt_is_Some_2 a j Hj) as [aj Haj].
  destruct (lookup_lt_is_Some_2 a i Hi) as [ai Hai].
  rewrite Haj, Hai. destruct (decide (i = j)) as [->|Hne].
  - rewrite list_lookup_insert_eq by (rewrite length_insert; lia). congruence.
  - rewrite list_lookup_insert_ne by done.
    by rewrite list_lookup_insert_eq by lia.
Qed.

Lemma fisherYates_above (pick : nat → nat) (i m : nat) (a : list Question) :
  bounded pick i → i < m → fisherYates pick i a !! m = a !! m.
Proof.
  revert a. induction i as [|i IH]; intros a Hb Hm; simpl; [done|].
  rewrite IH; [|intros k Hk; apply Hb; lia|lia].
  pose proof (Hb (S i) ltac:(lia)).
  apply swap_lookup_other; lia.
Qed.

Lemma fisherYates_last (pick : nat → nat) (i : nat) (a : list Question) :
  bounded pick (S i) → S i < length a →
  fisherYates pick (S i) a !! S i = a !! pick (S i).
Proof.
  intros Hb Hlen. simpl.
  rewrite fisherYates_above; [|intros k Hk; apply Hb; lia|lia].
  pose proof (Hb (S i) ltac:(lia)).
  apply swap_lookup_left; lia.
Qed.

Lemma fisherYates_inj (pick pick' : nat → nat) (i : nat) (a : list Question) :
  NoDup a → i < length a → bounded pick i → bounded pick' i →
  fisherYates pick i a = fisherYates pick' i a →
  ∀ k, 1 ≤ k ≤ i → pick k = pick' k.
Proof.
  revert a. induction i as [|i IH]; intros a Hnd Hlen Hb Hb' Heq k Hk; [lia|].
  assert (Hi : pick (S i) = pick' (S i)).
  { pose proof (fisherYates_last pick i a Hb Hlen) as H1.
    pose proof (fisherYates_last pick' i a Hb' Hlen) as H2.
    rewrite Heq, H2 in H1.
    pose proof (Hb (S i) ltac:(lia)). pose proof (Hb' (S i) ltac:(lia)).
    destruct (lookup_lt_is_Some_2 a (pick (S i)) ltac:(lia)) as [x Hx].
    rewrite Hx in H1. symmetry. eapply NoDup_lookup; eauto. }
  destruct (decide (k = S i)) as [->|Hne]; [done|].
  simpl in Heq. rewrite <- Hi in Heq.
  apply (IH (swap a (S i) (pick (S i)))); try done.
  - by rewrite swap_perm.
  - rewrite swap_length. lia.
  - intros k' Hk'. apply Hb. lia.
  - intros k' Hk'. apply Hb'. lia.
  - lia.
Qed.

Lemma fisherYates_nil (pick : nat → nat) (i : nat) : fisherYates pick i [] = [].
Proof. induction i as [|i IH]; [done|]. simpl. by rewrite <- IH at 2. Qed.

Lemma agree_from_one (a p : list Question) :
  a ≡ₚ p → (∀ m, 0 < m → a !! m = p !! m) → a = p.
Proof.
  intros Hp Hag. pose proof (Permutation_length Hp) as Hlen.
  destruct a as [|x a], p as [|y p]; simplify_eq/=; [done|].
  assert (a = p) as ->.
  { apply list_eq. intros m. apply (Hag (S m)). lia. }
  f_equal. apply (Permutation_app_inv_r p [x] [y]) in Hp.
  by apply Permutation_singleton_l in Hp as [= ->].
Qed.

Lemma fisherYates_surj (i : nat) (a p : list Question) :
  a ≡ₚ p → i < length a ∨ a = [] →
  (∀ m, i < m → a !! m = p !! m) →
  ∃ pick, bounded pick i ∧ fisherYates pick i a = p.
Proof.
  revert a. induction i as [|i IH]; intros a Hp Hlen Hag.
  - exists (λ _, 0). split; [intros k Hk; lia|]. simpl. by apply agree_from_one.
  - destruct Hlen as [Hlen| ->].
    2:{ apply Permutation_nil_l in Hp. subst p. exists (λ _, 0).
        split; [intros k Hk; lia|]. apply fisherYates_nil. }
    pose proof (Permutation_length Hp) as Hlp.
    destruct (lookup_lt_is_Some_2 p (S i) ltac:(lia)) as [y Hy].
    assert (Htake : take (S (S i)) a ≡ₚ take (S (S i)) p).
    { apply (Permutation_app_inv_r (drop (S (S i)) a)).
      rewrite take_drop.
      replace (drop (S (S i)) a) with (drop (S (S i)) p).
      - by rewrite take_drop.
      - apply list_eq. intros m. rewrite !lookup_drop. symmetry. apply Hag. lia. }
    assert (Hin : y ∈ take (S (S i)) a).
    { rewrite Htake. apply list_elem_of_lookup. exists (S i).
      rewrite lookup_take_lt by lia. done. }
    apply list_elem_of_lookup in Hin as [j Hj].
    assert (Hjlt : j < S (S i)).
    { apply lookup_lt_Some in Hj. rewrite length_take in Hj. lia. }
    rewrite lookup_take_lt in Hj by done.
    destruct (IH (swap a (S i) j)) as (pick & Hb & Hfy).
    + by rewrite swap_perm.
    + left. rewrite swap_length. lia.
    + intros m Hm. destruct (decide (m = S i)) as [->|Hne].
      * rewrite swap_lookup_left; [congruence|lia|lia].
      * rewrite swap_lookup_other by lia. apply Hag. lia.
    + exists (λ k, if decide (k = S i) then j else pick k). split.
      * intros k Hk. case_decide; [lia|]. apply Hb. lia.
      * simpl. rewrite decide_True by done. rewrite <- Hfy.
        apply fisherYates_ext. intros k Hk. rewrite decide_False by lia. done.
Qed.


End ShuffleFacts.

(** ** Binary64 products of a draw and an index *)

Section Binary64.
Local Open Scope Z_scope.

Lemma digits2_pos_bounds (m : positive) :
  2 ^ (Z.pos (digits2_pos m) - 1) ≤ Z.pos m < 2 ^ Z.pos (digits2_pos m).
Proof.
  induction m as [m IH|m IH|]; simpl digits2_pos.
  - rewrite Pos2Z.inj_succ, Z.pow_succ_r by lia.
    replace (Z.succ (Z.pos (digits2_pos m)) - 1) with (Z.succ (Z.pos (digits2_pos m) - 1)) by lia.
    rewrite Z.pow_succ_r by lia. lia.
  - rewrite Pos2Z.inj_succ, Z.pow_succ_r by lia.
    replace (Z.succ (Z.pos (digits2_pos m)) - 1) with (Z.succ (Z.pos (digits2_pos m) - 1)) by lia.
    rewrite Z.pow_succ_r by lia. lia.
  - simpl. lia.
Qed.

Lemma iter_pos_nat {A} (f : A → A) (p : positive) (x : A) :
  SpecFloat.iter_pos f p x = Nat.iter (Pos.to_nat p) f x.
Proof.
  revert x. induction p as [p IH|p IH|]; intros x; cbn [SpecFloat.iter_pos].
  - rewrite !IH, Pos2Nat.inj_xI.
    replace (2 * Pos.to_nat p)%nat with (Pos.to_nat p + Pos.to_nat p)%nat by lia.
    rewrite Nat.iter_succ_r, Nat.iter_add. done.
  - rewrite !IH, Pos2Nat.inj_xO.
    replace (2 * Pos.to_nat p)%nat with (Pos.to_nat p + Pos.to_nat p)%nat by lia.
    by rewrite Nat.iter_add.
  - done.
Qed.

Lemma shr_1_spec (m : Z) (r s : bool) :
  0 ≤ m →
  shr_m (shr_1 (Build_shr_record m r s)) = m / 2
  ∧ shr_r (shr_1 (Build_shr_record m r s)) = Z.odd m.
Proof.
  intros Hm. rewrite <- Z.div2_div.
  destruct m as [|[p|p|]|]; simpl; done.
Qed.


Lemma shr_iter (M : Z) (k : nat) :
  0 ≤ M →
  shr_m (Nat.iter k shr_1 (Build_shr_record M false false)) = M / 2 ^ Z.of_nat k
  ∧ (shr_r (Nat.iter k shr_1 (Build_shr_record M false false)) = true →
     2 ^ Z.of_nat k ≤ 2 * (M mod 2 ^ Z.of_nat k)).
Proof.
  intros HM. induction k as [|k [IHm IHr]].
  - simpl. rewrite Z.div_1_r. split; [done|]. discriminate.
  - rewrite Nat.iter_succ.
    destruct (Nat.iter k shr_1 (Build_shr_record M false false)) as [m r s].
    simpl in IHm. clear IHr.
    assert (Hk : 0 < 2 ^ Z.of_nat k) by (apply Z.pow_pos_nonneg; lia).
    assert (Hm : 0 ≤ m) by (subst m; apply Z.div_pos; lia).
    destruct (shr_1_spec m r s Hm) as [-> ->].
    rewrite Nat2Z.inj_succ, Z.pow_succ_r by lia.
    pose proof (Z.div_mod M (2 ^ Z.of_nat k) ltac:(lia)) as Hdm.
    pose proof (Z.mod_pos_bound M (2 ^ Z.of_nat k) Hk) as Hb.
    rewrite <- IHm in Hdm.
    pose proof (Z.div_mod m 2 ltac:(lia)) as Hdm2.
    pose proof (Z.mod_pos_bound m 2 ltac:(lia)) as Hb2.
    assert (Hq : M / (2 * 2 ^ Z.of_nat k) = m / 2
                 ∧ M mod (2 * 2 ^ Z.of_nat k)
                   = (m mod 2) * 2 ^ Z.of_nat k + M mod 2 ^ Z.of_nat k).
    { apply (Z.div_mod_unique (2 * 2 ^ Z.of_nat k)).
      - left. apply Z.mod_pos_bound. lia.
      - left. nia.
      - rewrite <- Z.div_mod by lia. nia. }
    destruct Hq as [Hq1 Hq2]. split; [done|].
    intros Hodd. rewrite Hq2. rewrite Zodd_mod in Hodd.
    apply Z.eqb_eq in Hodd. rewrite Hodd. lia.
Qed.

Lemma shr_round (M e n : Z) :
  0 ≤ M →
  let t := Z.max 0 n in
  let mrs := (shr (Build_shr_record M false false) e n).1 in
  let m2 := round_nearest_even (shr_m mrs) (loc_of_shr_record mrs) in
  (shr (Build_shr_record M false false) e n).2 = e + t
  ∧ shr_m mrs = M / 2 ^ t
  ∧ M / 2 ^ t ≤ m2 ≤ M / 2 ^ t + 1
  ∧ 2 * m2 * 2 ^ t ≤ 2 * M + 2 ^ t.
Proof.
  intros HM t mrs m2. subst t mrs m2. destruct n as [|p|p]; simpl shr.
  - rewrite Z.max_l by lia. simpl. rewrite Z.div_1_r. lia.
  - rewrite iter_pos_nat. rewrite Z.max_r by lia.
    destruct (shr_iter M (Pos.to_nat p) HM) as [Hm Hr].
    rewrite positive_nat_Z in Hm, Hr.
    assert (Hk : 0 < 2 ^ Z.pos p) by (apply Z.pow_pos_nonneg; lia).
    pose proof (Z.div_mod M (2 ^ Z.pos p) ltac:(lia)) as Hdm.
    pose proof (Z.mod_pos_bound M (2 ^ Z.pos p) Hk) as Hb.
    destruct (Nat.iter (Pos.to_nat p) shr_1 (Build_shr_record M false false))
      as [m r s].
    simpl in *. subst m. split; [done|]. split; [done|].
    destruct r, s; simpl.
    + specialize (Hr eq_refl). nia.
    + specialize (Hr eq_refl). destruct (Z.even _); nia.
    + nia.
    + nia.
  - rewrite Z.max_l by lia. simpl. rewrite Z.div_1_r. lia.
Qed.

Lemma binary_round_aux_spec (M : positive) (E : Z) :
  let t := Z.max 0 (fexp 53 1024 (Z.pos (digits2_pos M) + E) - E) in
  ∃ m2,
    Z.pos M / 2 ^ t ≤ m2 ≤ Z.pos M / 2 ^ t + 1
    ∧ 2 * m2 * 2 ^ t ≤ 2 * Z.pos M + 2 ^ t
    ∧ binary_round_aux 53 1024 false (Z.pos M) E loc_Exact
      = let t2 := Z.max 0 (fexp 53 1024 (Zdigits2 m2 + (E + t)) - (E + t)) in
        JS.build (m2 / 2 ^ t2) (E + t + t2).
Proof.
  intros t. unfold binary_round_aux, shr_fexp.
  change (shr_record_of_loc (Z.pos M) loc_Exact) with (Build_shr_record (Z.pos M) false false).
  change (Zdigits2 (Z.pos M)) with (Z.pos (digits2_pos M)).
  pose proof (shr_round (Z.pos M) E (fexp 53 1024 (Z.pos (digits2_pos M) + E) - E)
                ltac:(lia)) as H.
  cbv zeta in H. fold t in H.
  destruct (shr (Build_shr_record (Z.pos M) false false) E
              (fexp 53 1024 (Z.pos (digits2_pos M) + E) - E)) as [mrs e'].
  simpl fst in H. simpl snd in H. destruct H as (-> & Hm & Hm2 & Hhalf).
  set (m2 := round_nearest_even (shr_m mrs) (loc_of_shr_record mrs)) in *.
  exists m2. split; [done|]. split; [done|].
  change (shr_record_of_loc m2 loc_Exact) with (Build_shr_record m2 false false).
  assert (H0 : 0 ≤ m2).
  { assert (0 ≤ Z.pos M / 2 ^ t); [|lia]. apply Z.div_pos; [lia|].
    apply Z.pow_pos_nonneg; lia. }
  pose proof (shr_round m2 (E + t) (fexp 53 1024 (Zdigits2 m2 + (E + t)) - (E + t)) H0)
    as H.
  cbv zeta in H.
  destruct (shr (Build_shr_record m2 false false) (E + t)
              (fexp 53 1024 (Zdigits2 m2 + (E + t)) - (E + t))) as [mrs' e''].
  simpl fst in H. simpl snd in H. destruct H as (-> & Hm' & _).
  rewrite Hm'. unfold JS.build, JS.emax, JS.prec. done.
Qed.


Lemma pow2_pos (a : Z) : 0 ≤ a → 0 < 2 ^ a.
Proof. intros. apply Z.pow_pos_nonneg; lia. Qed.

Lemma pow2_split (a b : Z) : 0 ≤ a ≤ b → 2 ^ b = 2 ^ (b - a) * 2 ^ a.
Proof. intros. rewrite <- Z.pow_add_r by lia. f_equal. lia. Qed.

Lemma pow2_lt_inv (a b : Z) : 0 ≤ b → 2 ^ a < 2 ^ b → a < b.
Proof. intros Hb H. apply (Z.pow_lt_mono_r_iff 2); [lia|done|done]. Qed.

Lemma Zdigits2_small (m b : Z) : 0 ≤ m < 2 ^ b → 0 ≤ b → Zdigits2 m ≤ b.
Proof.
  intros [H0 Hm] Hb. destruct m as [|p|p]; simpl; [done| |lia].
  destruct (digits2_pos_bounds p) as [Hl _].
  assert (Z.pos (digits2_pos p) - 1 < b); [|lia].
  apply pow2_lt_inv; [done|lia].
Qed.

Lemma Zdigits2_pow2 (b : Z) : 0 ≤ b → Zdigits2 (2 ^ b) = b + 1.
Proof.
  intros Hb. pose proof (pow2_pos b Hb) as Hp.
  destruct (2 ^ b) as [|p|p] eqn:E; [lia| |lia]. simpl.
  destruct (digits2_pos_bounds p) as [Hl Hu]. rewrite <- E in Hl, Hu.
  assert (Z.pos (digits2_pos p) - 1 < b + 1) by (apply pow2_lt_inv; [lia|];
    rewrite Z.pow_add_r by lia; simpl; lia).
  assert (b < Z.pos (digits2_pos p)) by (apply pow2_lt_inv; [lia|done]).
  lia.
Qed.

Lemma below_by (a A n B : Z) :
  a < A → 0 ≤ n → 0 ≤ B → a * (n * B) + n * B ≤ n * (A * B).
Proof. intros. nia. Qed.

Lemma scaled_le (c P T m1 m2 : Z) :
  0 < T → c * P ≤ m1 → m1 ≤ m2 → c * (P * T) ≤ m2 * T.
Proof. intros. nia. Qed.

Lemma half_below (m2 T M mn N : Z) :
  2 * m2 * T ≤ 2 * M + T → M + mn ≤ N → T < 2 * mn → m2 * T < N.
Proof. intros. lia. Qed.

Lemma half_relative (m2 T M P : Z) :
  0 ≤ P → 2 * m2 * T ≤ 2 * M + T → P * T ≤ M →
  m2 * T * (2 * P) ≤ M * (2 * P + 1).
Proof. intros. nia. Qed.

Lemma half_small (m2 T M D P : Z) :
  0 < P → 0 < T → 2 * m2 * T ≤ 2 * M + T → M < D → D ≤ P * T →
  m2 * T < 2 * (P * T).
Proof.
  intros HP HT H1 H2 H3. assert (1 * T ≤ P * T); [|lia].
  apply Z.mul_le_mono_nonneg_r; lia.
Qed.

Lemma pow2_lt_scaled (a b P : Z) : 0 < P → a * P < b * P → a < b.
Proof. intros. nia. Qed.

(** The binary64 product of a number [mr * 2 ^ er] below 1 and an
    integer [n = mn * 2 ^ en] below [2 ^ 53], scaled by [2 ^ - (er + en)]:
    the product rounds to [m3 * 2 ^ e3]. *)
Section Product.
Context (mr mn : positive) (er en n : Z).
Context (Her : -1074 ≤ er < 0) (Hmr : Z.pos mr < 2 ^ 53) (Hr1 : Z.pos mr < 2 ^ (- er)).
Context (Hen : en ≤ 0) (Hmn : Z.pos mn = n * 2 ^ (- en)) (Hn : 1 ≤ n < 2 ^ 53).

Lemma product_rounded :
  ∃ m3 e3,
    SFmul 53 1024 (S754_finite false mr er) (S754_finite false mn en) = JS.build m3 e3
    ∧ 0 ≤ m3 ∧ er + en ≤ e3 ≤ 1
    ∧ m3 * 2 ^ (e3 - (er + en)) < n * 2 ^ (- (er + en))
    ∧ (∀ c, 0 ≤ c → c * 2 ^ (- (er + en)) ≤ Z.pos mr * Z.pos mn →
            c * 2 ^ (- (er + en)) ≤ m3 * 2 ^ (e3 - (er + en)))
    ∧ (m3 * 2 ^ (e3 - (er + en)) * 2 ^ 53 ≤ Z.pos mr * Z.pos mn * (2 ^ 53 + 1)
       ∨ m3 * 2 ^ (e3 - (er + en)) < 2 ^ (- (er + en))).
Proof using Her Hmr Hr1 Hen Hmn Hn.
  unfold SFmul. simpl xorb.
  set (E := er + en). set (M := (mr * mn)%positive).
  destruct (binary_round_aux_spec M E) as (m2 & Hm2 & Hhalf & ->).
  set (d := Z.pos (digits2_pos M)) in *.
  set (t := Z.max 0 (fexp 53 1024 (d + E) - E)) in *.
  cbv zeta.
  set (t2 := Z.max 0 (fexp 53 1024 (Zdigits2 m2 + (E + t)) - (E + t))).
  destruct (digits2_pos_bounds M) as [Hdl Hdu]. fold d in Hdl, Hdu.
  assert (HM : Z.pos M = Z.pos mr * Z.pos mn) by (subst M; apply Pos2Z.inj_mul).
  rewrite <- HM.
  assert (Hd : 1 ≤ d) by (subst d; lia).
  pose proof (pow2_pos (- er) ltac:(lia)) as HA.
  pose proof (pow2_pos (- en) ltac:(lia)) as HB.
  assert (HE : 2 ^ (- E) = 2 ^ (- er) * 2 ^ (- en)).
  { subst E. rewrite <- Z.pow_add_r by lia. f_equal. lia. }
  (* the product is below [n], by at least [mn] in scaled units *)
  assert (HMN : Z.pos M + Z.pos mn ≤ n * 2 ^ (- E)).
  { rewrite HM, HE, Hmn. apply below_by; lia. }
  assert (Hmnpos : 2 ^ (- en) ≤ Z.pos mn).
  { rewrite Hmn. rewrite <- (Z.mul_1_l (2 ^ (- en))) at 1.
    apply Z.mul_le_mono_nonneg_r; lia. }
  assert (HMlt : Z.pos M < 2 ^ 53 * Z.pos mn).
  { rewrite HM. apply Z.mul_lt_mono_pos_r; lia. }
  (* the shift *)
  assert (Ht0 : 0 ≤ t) by (subst t; lia).
  assert (Ht : t = 0 ∨ (0 < t ∧ t = d - 53) ∨ (0 < t ∧ t = -1074 - E ∧ d - 53 < t)).
  { subst t. unfold fexp, emin. lia. }
  assert (Hdt : d - 53 ≤ t ∧ -1074 - E ≤ t) by (subst t; unfold fexp, emin; lia).
  pose proof (pow2_pos t Ht0) as HT.
  assert (Hd53 : d + E ≤ 53).
  { assert (d - 1 < 53 - E); [|lia]. apply pow2_lt_inv; [subst E; lia|].
    replace (53 - E) with (53 + - E) by lia.
    rewrite Z.pow_add_r by (subst E; lia).
    assert (Z.pos M < 2 ^ 53 * 2 ^ (- E)); [|lia].
    eapply Z.lt_le_trans; [|apply (Z.mul_le_mono_nonneg_r n (2 ^ 53)); lia].
    pose proof (Zle_0_pos mn). lia. }
  assert (HtE : E + t ≤ 0) by (subst E; lia).
  assert (Htsmall : 2 ^ t < 2 * Z.pos mn).
  { destruct Ht as [->|[[Hpos ->]|(Hpos & -> & _)]].
    - simpl. lia.
    - assert (Hsp : 2 ^ (d - 1) = 2 ^ 52 * 2 ^ (d - 53)).
      { rewrite <- Z.pow_add_r by lia. f_equal. lia. }
      change (2 ^ 53) with (2 * 2 ^ 52) in HMlt.
      apply (pow2_lt_scaled _ _ (2 ^ 52)); lia.
    - assert (2 ^ (-1074 - E) ≤ 2 ^ (- en)); [|lia].
      apply Z.pow_le_mono_r; subst E; lia. }
  (* the second shift loses nothing *)
  assert (Hm1 : Z.pos M / 2 ^ t < 2 ^ 53).
  { apply Z.div_lt_upper_bound; [done|].
    assert (2 ^ d ≤ 2 ^ t * 2 ^ 53); [|lia].
    rewrite <- Z.pow_add_r by lia. apply Z.pow_le_mono_r; lia. }
  assert (H0 : 0 ≤ Z.pos M / 2 ^ t) by (apply Z.div_pos; lia).
  assert (Hexact : m2 / 2 ^ t2 * 2 ^ t2 = m2 ∧ 0 ≤ t2 ≤ 1).
  { destruct (decide (m2 = 2 ^ 53)) as [->|Hne].
    - subst t2. rewrite (Zdigits2_pow2 53) by lia.
      unfold fexp, emin. rewrite (Z.max_l (53 + 1 + (E + t) - 53)) by lia.
      replace (53 + 1 + (E + t) - 53 - (E + t)) with 1 by lia.
      rewrite Z.max_r by lia. split; [reflexivity|lia].
    - assert (Hd2 : Zdigits2 m2 ≤ 53) by (apply Zdigits2_small; lia).
      assert (t2 = 0) as -> by (subst t2; unfold fexp, emin; lia).
      simpl. rewrite Z.div_1_r. lia. }
  destruct Hexact as [Hexact Ht2].
  pose proof (pow2_pos t2 ltac:(lia)) as HT2.
  assert (Hscale : m2 / 2 ^ t2 * 2 ^ (E + t + t2 - E) = m2 * 2 ^ t).
  { replace (E + t + t2 - E) with (t2 + t) by lia.
    rewrite Z.pow_add_r by lia. rewrite Z.mul_assoc, Hexact. done. }
  exists (m2 / 2 ^ t2), (E + t + t2).
  split; [done|]. split; [apply Z.div_pos; lia|]. split; [lia|].
  rewrite Hscale.
  split; [by apply (half_below m2 (2 ^ t) (Z.pos M) (Z.pos mn))|]. split.
  - intros c Hc HcM.
    assert (Hsp : 2 ^ (- E) = 2 ^ (- E - t) * 2 ^ t).
    { rewrite <- Z.pow_add_r by lia. f_equal. lia. }
    pose proof (pow2_pos (- E - t) ltac:(lia)) as HET.
    assert (c * 2 ^ (- E - t) ≤ Z.pos M / 2 ^ t).
    { apply Z.div_le_lower_bound; [done|]. rewrite Hsp in HcM. lia. }
    rewrite Hsp. apply (scaled_le c _ _ (Z.pos M / 2 ^ t)); [done|done|lia].
  - destruct Ht as [Ht|[[Hpos Ht]|(Hpos & Ht & Hsub)]].
    + left. rewrite Ht in *. simpl in *. rewrite Z.div_1_r in Hm2.
      assert (m2 = Z.pos M) as -> by lia. lia.
    + left. assert (Hsp : 2 ^ (d - 1) = 2 ^ 52 * 2 ^ t).
      { rewrite <- Z.pow_add_r by lia. f_equal. lia. }
      change (2 ^ 53) with (2 * 2 ^ 52).
      apply half_relative; [lia|done|lia].
    + right.
      assert (2 ^ d ≤ 2 ^ (t + 52)) by (apply Z.pow_le_mono_r; lia).
      assert (Hsp : 2 ^ (t + 52) = 2 ^ 52 * 2 ^ t).
      { rewrite <- Z.pow_add_r by lia. f_equal. lia. }
      assert (Hv : m2 * 2 ^ t < 2 ^ (t + 53)).
      { replace (t + 53) with (1 + (t + 52)) by lia.
        rewrite (Z.pow_add_r 2 1) by lia. change (2 ^ 1) with 2. rewrite Hsp.
        apply (half_small m2 (2 ^ t) (Z.pos M) (2 ^ d)); [done|done|done|lia|lia]. }
      eapply Z.lt_le_trans; [exact Hv|]. apply Z.pow_le_mono_r; lia.
Qed.

End Product.

Lemma Pos_iter_xO (p d : positive) :
  Z.pos (Pos.iter xO p d) = Z.pos p * 2 ^ Z.pos d.
Proof.
  induction d as [|d IH] using Pos.peano_ind.
  - simpl. lia.
  - rewrite Pos.iter_succ, Pos2Z.inj_xO, IH, Pos2Z.inj_succ, Z.pow_succ_r by lia. lia.
Qed.

(** An integer from 1 to [2 ^ 53 - 1] is a binary64 number. *)
Lemma ofNat_exact (n : nat) :
  1 ≤ Z.of_nat n < 2 ^ 53 →
  ∃ mn en, JS.ofNat n = S754_finite false mn en
           ∧ -52 ≤ en ≤ 0 ∧ Z.pos mn = Z.of_nat n * 2 ^ (- en).
Proof.
  intros Hn. unfold JS.ofNat, binary_normalize.
  destruct (Z.of_nat n) as [|p|p] eqn:Ep; [lia| |lia].
  unfold binary_round, shl_align.
  set (dp := Z.pos (digits2_pos p)).
  assert (Hdp : 1 ≤ dp ≤ 53).
  { split; [subst dp; lia|]. apply (Zdigits2_small (Z.pos p)); lia. }
  assert (Hf : fexp JS.prec JS.emax (dp + 0) = dp - 53).
  { unfold fexp, emin, JS.prec, JS.emax. lia. }
  rewrite Hf.
  assert (Hshape : ∃ mz ez,
            (match dp - 53 - 0 with
             | Z.neg d => (Pos.iter xO p d, dp - 53)
             | _ => (p, 0)
             end) = (mz, ez)
            ∧ ez = dp - 53 ∧ Z.pos mz = Z.pos p * 2 ^ (- ez)).
  { destruct (dp - 53 - 0) as [|d|d] eqn:Ed; [|lia|].
    - exists p, 0. split; [done|]. split; [lia|]. simpl. lia.
    - exists (Pos.iter xO p d), (dp - 53). split; [done|]. split; [done|].
      rewrite Pos_iter_xO. do 2 f_equal. lia. }
  destruct Hshape as (mz & ez & -> & Hez & Hmz).
  exists mz, ez. split; [|split; [lia|done]].
  pose proof (pow2_pos (- ez) ltac:(lia)) as Hp.
  assert (Hbig : Z.pos mz < 2 ^ 53).
  { destruct (digits2_pos_bounds p) as [_ Hu]. fold dp in Hu.
    assert (2 ^ 53 = 2 ^ dp * 2 ^ (- ez)).
    { rewrite <- Z.pow_add_r by lia. f_equal. lia. }
    nia. }
  assert (Hdz : Z.pos (digits2_pos mz) ≤ 53)
    by (apply (Zdigits2_small (Z.pos mz)); lia).
  destruct (binary_round_aux_spec mz ez) as (m2 & Hm2 & Hhalf & Heq).
  change (binary_round_aux JS.prec JS.emax false (Z.pos mz) ez loc_Exact)
    with (binary_round_aux 53 1024 false (Z.pos mz) ez loc_Exact).
  rewrite Heq. clear Heq. cbv zeta.
  assert (Ht : Z.max 0 (fexp 53 1024 (Z.pos (digits2_pos mz) + ez) - ez) = 0)
    by (unfold fexp, emin; lia).
  rewrite Ht in *. simpl in Hm2, Hhalf. rewrite Z.div_1_r in Hm2.
  assert (m2 = Z.pos mz) as -> by lia.
  assert (Ht2 : Z.max 0 (fexp 53 1024 (Zdigits2 (Z.pos mz) + (ez + 0)) - (ez + 0)) = 0)
    by (simpl Zdigits2; unfold fexp, emin; lia).
  rewrite Ht2. simpl (2 ^ 0). rewrite Z.div_1_r. unfold JS.build, JS.emax, JS.prec.
  replace (ez + 0 + 0) with ez by lia.
  by rewrite (proj2 (Z.leb_le ez (1024 - 53))) by lia.
Qed.

Lemma floor_build (m3 e3 E : Z) :
  0 ≤ m3 → E ≤ e3 ≤ 971 → E ≤ 0 →
  ∃ j, JS.Math_floor (JS.build m3 e3) = Some j
       ∧ j * 2 ^ (- E) ≤ m3 * 2 ^ (e3 - E) < (j + 1) * 2 ^ (- E).
Proof.
  intros Hm He HE. pose proof (pow2_pos (- E) ltac:(lia)) as HpE.
  pose proof (pow2_pos (e3 - E) ltac:(lia)) as Hp3.
  destruct m3 as [|p|p]; [| |lia].
  - exists 0. split; [done|]. lia.
  - unfold JS.build, JS.emax, JS.prec.
    rewrite (proj2 (Z.leb_le e3 (1024 - 53))) by lia.
    unfold JS.Math_floor.
    destruct e3 as [|k|k] eqn:E3.
    + eexists. split; [reflexivity|]. simpl (2 ^ 0).
      replace (0 - E) with (- E) by lia. lia.
    + eexists. split; [reflexivity|].
      replace (Z.pos k - E) with (Z.pos k + - E) by lia.
      rewrite Z.pow_add_r by lia. lia.
    + eexists. split; [reflexivity|].
      assert (Hsp : 2 ^ (- E) = 2 ^ Z.pos k * 2 ^ (Z.neg k - E)).
      { rewrite <- Z.pow_add_r by lia. f_equal. lia. }
      pose proof (pow2_pos (Z.pos k) ltac:(lia)) as Hk.
      pose proof (Z.div_mod (Z.pos p) (2 ^ Z.pos k) ltac:(lia)) as Hdm.
      pose proof (Z.mod_pos_bound (Z.pos p) (2 ^ Z.pos k) Hk) as Hb.
      rewrite Hsp. nia.
Qed.

(** [Math.floor(r * (i + 1))] in binary64, for a draw [r = mr * 2 ^ er]. *)
Lemma floor_product (mr : positive) (er : Z) (i : nat) :
  JS.isDraw (S754_finite false mr er) = true →
  Z.of_nat i + 1 < 2 ^ 53 →
  ∃ j, JS.Math_floor (JS.mul (S754_finite false mr er) (JS.ofNat (i + 1))) = Some j
       ∧ 0 ≤ j ≤ Z.of_nat i
       ∧ Z.pos mr * (Z.of_nat i + 1) < (j + 1) * 2 ^ (- er)
       ∧ j * 2 ^ (- er) * 2 ^ 53 ≤ Z.pos mr * (Z.of_nat i + 1) * (2 ^ 53 + 1).
Proof.
  intros Hdraw Hi. unfold JS.isDraw in Hdraw.
  apply andb_true_iff in Hdraw as [Hdraw Hlt1].
  apply andb_true_iff in Hdraw as [Hb Hneg].
  apply Z.ltb_lt in Hlt1, Hneg.
  unfold bounded, canonical_mantissa in Hb. apply andb_true_iff in Hb as [Hcan _].
  apply Z.eqb_eq in Hcan. unfold fexp, emin, JS.prec, JS.emax in Hcan.
  destruct (digits2_pos_bounds mr) as [Hdl _].
  assert (Hmr : Z.pos mr < 2 ^ 53).
  { destruct (digits2_pos_bounds mr) as [_ Hu].
    eapply Z.lt_le_trans; [exact Hu|]. apply Z.pow_le_mono_r; lia. }
  destruct (ofNat_exact (i + 1)) as (mn & en & Hof & Hen & Hmn); [lia|].
  rewrite Nat2Z.inj_add in Hmn. change (Z.of_nat 1) with 1 in Hmn.
  destruct (product_rounded mr mn er en (Z.of_nat i + 1))
    as (m3 & e3 & Hmul & Hm3 & He3 & Hup & Hint & Hlow); try lia.
  unfold JS.mul. rewrite Hof.
  change (SFmul JS.prec JS.emax) with (SFmul 53 1024). rewrite Hmul.
  destruct (floor_build m3 e3 (er + en)) as (j & Hj & Hjl & Hju); try lia.
  exists j. split; [done|].
  pose proof (pow2_pos (- er) ltac:(lia)) as HA.
  pose proof (pow2_pos (- en) ltac:(lia)) as HB.
  pose proof (pow2_pos (- (er + en)) ltac:(lia)) as HE.
  assert (Hsp : 2 ^ (- (er + en)) = 2 ^ (- er) * 2 ^ (- en)).
  { rewrite <- Z.pow_add_r by lia. f_equal. lia. }
  assert (Hv0 : 0 ≤ m3 * 2 ^ (e3 - (er + en))).
  { apply Z.mul_nonneg_nonneg; [done|]. apply Z.pow_nonneg. lia. }
  assert (Hj0 : 0 < j + 1).
  { apply (pow2_lt_scaled _ _ (2 ^ (- (er + en)))); [done|]. lia. }
  assert (Hji : j < Z.of_nat i + 1).
  { apply (pow2_lt_scaled _ _ (2 ^ (- (er + en)))); [done|]. lia. }
  split; [lia|]. split.
  - destruct (Z.lt_ge_cases (Z.pos mr * (Z.of_nat i + 1)) ((j + 1) * 2 ^ (- er)))
      as [|Hge]; [done|exfalso].
    assert ((j + 1) * 2 ^ (- (er + en)) ≤ m3 * 2 ^ (e3 - (er + en))); [|lia].
    apply Hint; [lia|]. rewrite Hsp, Hmn.
    replace ((j + 1) * (2 ^ (- er) * 2 ^ (- en)))
      with ((j + 1) * 2 ^ (- er) * 2 ^ (- en)) by ring.
    replace (Z.pos mr * ((Z.of_nat i + 1) * 2 ^ (- en)))
      with (Z.pos mr * (Z.of_nat i + 1) * 2 ^ (- en)) by ring.
    apply Z.mul_le_mono_nonneg_r; lia.
  - destruct Hlow as [Hlow|Hlow].
    + apply (Z.mul_le_mono_pos_r _ _ (2 ^ (- en))); [done|].
      rewrite Hmn in Hlow. rewrite Hsp in Hjl. nia.
    + assert (j = 0) as -> by nia. lia.
Qed.

End Binary64.

Section Draws.

Lemma pickIndex_draw (r : JS.number) (i : nat) :
  JS.isDraw r = true →
  (Z.of_nat i + 1 < 2 ^ 53)%Z →
  App.pickIndex r i ≤ i
  ∧ (JS.toQ r * inject_Z (Z.of_nat i + 1) < inject_Z (Z.of_nat (App.pickIndex r i) + 1))%Q
  ∧ (inject_Z (Z.of_nat (App.pickIndex r i)) * inject_Z (2 ^ 53)
     <= JS.toQ r * inject_Z (Z.of_nat i + 1) * inject_Z (2 ^ 53 + 1))%Q.
Proof.
  intros Hdraw Hi. destruct r as [[|]|s| |[|] mr er]; try discriminate Hdraw.
  - unfold App.pickIndex, JS.mul.
    destruct (ofNat_exact (i + 1)) as (mn & en & -> & _); [lia|].
    simpl. split; [lia|]. split.
    + unfold Qlt. simpl. lia.
    + unfold Qle. simpl. lia.
  - destruct (floor_product mr er i Hdraw Hi) as (j & Hj & [Hj0 Hji] & Hu & Hl).
    unfold App.pickIndex. rewrite Hj. rewrite Z2Nat.id by done.
    split; [lia|].
    assert (Her : (er < 0)%Z).
    { unfold JS.isDraw in Hdraw. apply andb_true_iff in Hdraw as [Hd _].
      apply andb_true_iff in Hd as [_ Hd]. by apply Z.ltb_lt in Hd. }
    destruct er as [|k|k]; [lia|lia|].
    unfold JS.toQ. change (- Z.neg k)%Z with (Z.pos k) in *.
    split.
    + unfold Qlt, Qmult, inject_Z. simpl Qnum. simpl Qden.
      rewrite Pos.mul_1_r, Pos2Z.inj_pow. lia.
    + unfold Qle, Qmult, inject_Z. simpl Qnum. simpl Qden.
      rewrite !Pos.mul_1_r, Pos2Z.inj_pow. lia.
Qed.

End Draws.

Section StartQuiz.
Import App.

Lemma shuffle_fisherYates (random : nat → JS.number) (calls : nat) (qs : list Question) :
  (shuffle random calls qs).1
  = fisherYates (choices random calls (length qs - 1)) (length qs - 1) qs.
Proof. unfold shuffle. by rewrite shuffleLoop_fisherYates. Qed.

Lemma choices_bounded (random : nat → JS.number) (calls i : nat) :
  (∀ k, JS.isDraw (random k) = true) → (Z.of_nat i + 1 < 2 ^ 53)%Z →
  bounded (choices random calls i) i.
Proof.
  intros Hr Hi k Hk. unfold choices.
  apply (pickIndex_draw (random (calls + (i - k))) k); [done|lia].
Qed.

Lemma startQuiz_store (random : nat → JS.number) (quiz : Quiz.t loc) (st : State) (l : loc) :
  is_Some (heap st !! l) →
  heap (startQuiz random quiz true st) !! l = heap st !! l.
Proof.
  intros Hl. unfold startQuiz.
  destruct (shuffle random (randomCalls st) _) as [shuffled calls'] eqn:E. simpl.
  apply lookup_insert_ne. intros <-.
  apply elem_of_dom in Hl. by apply is_fresh in Hl.
Qed.

(** C7 as stated does not hold: the choice is not the uniform choice
    [floor(r * (i + 1))] of the real draw.  The draw
    [6004799503160661 / 2 ^ 53] is below two thirds, and at index 2 the
    binary64 product with 3 rounds to 2: the choice is 2, not 1. *)
Lemma startQuiz_shuffle_counterexample :
  ¬ (∀ (r : JS.number) (i j : nat),
       JS.isDraw r = true →
       pickIndex r i = j ↔
       (inject_Z (Z.of_nat j) <= JS.toQ r * inject_Z (Z.of_nat i + 1)
        ∧ JS.toQ r * inject_Z (Z.of_nat i + 1) < inject_Z (Z.of_nat j + 1))%Q).
Proof.
  intros H.
  destruct (proj1 (H Sample.belowTwoThirds 2 2 eq_refl)) as [Hl _].
  - vm_compute. reflexivity.
  - vm_compute in Hl. by apply Hl.
Qed.

(** C7, amended.  With randomisation, [startQuiz] hands the session a
    quiz whose questions are a permutation of the stored ones (the same
    multiset of ids); the new sequence is the result of the backward
    Fisher-Yates pass: for [i] from the last index down to 1, swap [i]
    with the choice [Math.floor(Math.random() * (i + 1))].  For the
    values [Math.random()] returns (binary64 numbers [r] with
    [0 <= r < 1]) and an array of fewer than [2 ^ 53] elements, every
    choice lies in [[0, i]], and a draw that chooses [j] at index [k]
    satisfies [j / (1 + 2 ^ -53) <= r * (k + 1) < j + 1]: the interval
    of width [1 / (k + 1)] of a uniform choice, up to the rounding of
    the binary64 product at its lower end.  Every permutation of the
    input is the result of a vector of choices in range, of exactly one
    when the questions are pairwise different, so that uniform choices
    give every permutation the same weight.  The array the library
    holds is not written: the shuffled sequence lives in a new array. *)
Theorem startQuiz_shuffle (random : nat → JS.number) (quiz : Quiz.t loc) (st : State)
    (qs : list Question) :
  heap st !! Quiz.questions quiz = Some qs →
  let st' := startQuiz random quiz true st in
  let last := length qs - 1 in
  let pick := choices random (randomCalls st) last in
  (∃ quiz' shuffled,
      currentQuiz st' = Some quiz'
      ∧ heap st' !! Quiz.questions quiz' = Some shuffled
      ∧ shuffled ≡ₚ qs
      ∧ Question.id <$> shuffled ≡ₚ Question.id <$> qs
      ∧ shuffled = fisherYates pick last qs
      ∧ Quiz.questions quiz' ≠ Quiz.questions quiz)
  ∧ (∀ k, pick k = pickIndex (random (randomCalls st + (last - k))) k)
  ∧ ((∀ k, JS.isDraw (random k) = true) → (Z.of_nat (length qs) < 2 ^ 53)%Z →
     bounded pick last
     ∧ ∀ k, 1 ≤ k ≤ last →
         let r := JS.toQ (random (randomCalls st + (last - k))) in
         (r * inject_Z (Z.of_nat k + 1) < inject_Z (Z.of_nat (pick k) + 1)
          ∧ inject_Z (Z.of_nat (pick k)) * inject_Z (2 ^ 53)
            <= r * inject_Z (Z.of_nat k + 1) * inject_Z (2 ^ 53 + 1))%Q)
  ∧ (∀ p, p ≡ₚ qs →
       ∃ pick', bounded pick' last ∧ fisherYates pick' last qs = p
         ∧ (NoDup qs →
            ∀ pick'', bounded pick'' last → fisherYates pick'' last qs = p →
              ∀ k, 1 ≤ k ≤ last → pick'' k = pick' k))
  ∧ (∀ l, is_Some (heap st !! l) → heap st' !! l = heap st !! l)
  ∧ heap st' !! Quiz.questions quiz = Some qs
  ∧ quizzes st' = quizzes st.
Proof.
  intros Hqs st' last pick.
  assert (Hshuf : (shuffle random (randomCalls st) qs).1 = fisherYates pick last qs)
    by apply shuffle_fisherYates.
  split; [|split; [|split; [|split; [|split; [|split]]]]].
  - subst st'. unfold startQuiz. rewrite Hqs. simpl.
    destruct (shuffle random (randomCalls st) qs) as [shuffled calls'] eqn:E.
    simpl in Hshuf. subst shuffled. simpl.
    eexists _, _. split; [reflexivity|]. simpl.
    split; [apply lookup_insert_eq|].
    split; [apply fisherYates_perm|].
    split; [by rewrite fisherYates_perm|].
    split; [done|].
    intros Heq. assert (Hin : Quiz.questions quiz ∈ dom (heap st)).
    { apply elem_of_dom. by exists qs. }
    rewrite <- Heq in Hin. by apply is_fresh in Hin.
  - done.
  - intros Hr Hlen. split; [apply choices_bounded; [done|lia]|].
    intros k Hk r. subst r pick. unfold choices.
    apply (pickIndex_draw (random (randomCalls st + (last - k))) k); [done|lia].
  - intros p Hp.
    destruct (fisherYates_surj last qs p) as (pick' & Hb' & Hfy').
    { done. }
    { destruct qs; [by right|left]. subst last. simpl. lia. }
    { intros m Hm. pose proof (Permutation_length Hp) as Hlen.
      rewrite !lookup_ge_None_2; [done|subst last; lia|subst last; lia]. }
    exists pick'. split; [done|]. split; [done|].
    intros Hnd pick'' Hb'' Hfy'' k Hk.
    apply (fisherYates_inj pick'' pick' last qs); try done.
    + destruct qs; [simpl in *; lia|]. subst last. simpl. lia.
    + congruence.
  - intros l Hl. by apply startQuiz_store.
  - rewrite <- Hqs. apply startQuiz_store. by exists qs.
  - subst st'. unfold startQuiz.
    by destruct (shuffle random (randomCalls st) (default _ _)).
Qed.

Lemma startQuiz_shuffle_witness :
  let st' := startQuiz Sample.halves Sample.stored true Sample.app in
  ∃ quiz' shuffled,
    currentQuiz st' = Some quiz'
    ∧ heap st' !! Quiz.questions quiz' = Some shuffled
    ∧ shuffled ≡ₚ [Sample.q1; Sample.q2; Sample.q3]
    ∧ bounded (choices Sample.halves 0 2) 2
    ∧ heap st' !! 0 = Some [Sample.q1; Sample.q2; Sample.q3].
Proof.
  intros st'.
  destruct (startQuiz_shuffle Sample.halves Sample.stored Sample.app
              [Sample.q1; Sample.q2; Sample.q3])
    as ((quiz' & shuffled & H1 & H2 & H3 & _) & _ & Hb & _ & _ & H4 & _).
  - reflexivity.
  - destruct Hb as [Hb _]; [done|simpl; lia|].
    exists quiz', shuffled. auto.
Defined.

End StartQuiz.

(** ** Retakes *)

Section Retake.
Import QuizView.

Lemma scoreLoop_perm (ans : gmap string string) (qs qs' : list Question) :
  qs ≡ₚ qs' → scoreLoop ans qs = scoreLoop ans qs'.
Proof.
  intros Hp. destruct (decide (scorable ans qs)) as [Hs|Hs].
  - rewrite !scoreLoop_count; [|unfold scorable in *; by rewrite <- Hp|done].
    unfold correctQuestions. f_equal. apply Permutation_length. by rewrite Hp.
  - rewrite !scoreLoop_raises; [done| |done].
    unfold scorable in *. by rewrite <- Hp.
Qed.

Lemma startQuiz_props (random : nat → JS.number) (quiz quiz' : Quiz.t App.loc)
    (st : App.State) (qs : list Question) :
  App.heap st !! Quiz.questions quiz = Some qs →
  App.currentQuiz (App.startQuiz random quiz true st) = Some quiz' →
  Quiz.questions (App.props (App.heap (App.startQuiz random quiz true st)) quiz')
  ≡ₚ Quiz.questions (App.props (App.heap st) quiz).
Proof.
  intros Hqs. unfold App.startQuiz. rewrite Hqs. simpl.
  destruct (App.shuffle random (App.randomCalls st) qs) as [shuffled calls'] eqn:E.
  simpl. intros [= <-]. simpl. rewrite lookup_insert_eq, Hqs. simpl.
  replace shuffled with (App.shuffle random (App.randomCalls st) qs).1 by by rewrite E.
  rewrite shuffle_fisherYates. apply fisherYates_perm.
Qed.

(** C9. For a fixed answers map the score does not depend on the order
    of the questions: two quizzes whose question sequences are
    permutations of each other get the same score from [finishQuiz] and
    from [getScore]; in particular a randomized retake started by
    [startQuiz] scores the same answers as the stored order does. *)
Theorem score_order_independent (quiz quiz' : Quiz) (s s' : State) :
  Quiz.questions quiz' ≡ₚ Quiz.questions quiz →
  answers s' = answers s →
  QuizAttempt.score <$> (finishQuiz quiz' s').2
  = QuizAttempt.score <$> (finishQuiz quiz s).2
  ∧ getScore quiz' s' = getScore quiz s
  ∧ ∀ (random : nat → JS.number) (stored started : Quiz.t App.loc) (st : App.State),
      App.props (App.heap st) stored = quiz →
      is_Some (App.heap st !! Quiz.questions stored) →
      App.currentQuiz (App.startQuiz random stored true st) = Some started →
      QuizAttempt.score
        <$> (finishQuiz (App.props (App.heap (App.startQuiz random stored true st)) started) s').2
      = QuizAttempt.score <$> (finishQuiz quiz s).2.
Proof.
  intros Hp Hans.
  assert (Hfin : ∀ (q : Quiz) (t : State),
            QuizAttempt.score <$> (finishQuiz q t).2 = getScore q t).
  { intros q t. unfold finishQuiz, getScore. simpl.
    by destruct (scoreLoop (answers t) (Quiz.questions q)). }
  rewrite !Hfin. unfold getScore. rewrite Hans.
  split; [by apply scoreLoop_perm|]. split; [by apply scoreLoop_perm|].
  intros random stored started st <- [qs Hqs] Hcur.
  rewrite !Hfin. unfold getScore. rewrite Hans.
  apply scoreLoop_perm. by eapply startQuiz_props.
Qed.

Lemma score_order_independent_witness :
  QuizAttempt.score
    <$> (finishQuiz Sample.reordered (mkState 0 (answers Sample.allRight) false false)).2
  = QuizAttempt.score <$> (finishQuiz Sample.quiz Sample.allRight).2.
Proof.
  apply (score_order_independent Sample.quiz Sample.reordered Sample.allRight).
  - unfold Sample.reordered, Sample.quiz. simpl.
    rewrite (Permutation_swap Sample.q1 Sample.q3). f_equiv. apply Permutation_swap.
  - reflexivity.
Defined.
End Retake.

(** ** Review *)

Section Review.
Import QuizView EventLoop.

Lemma getScore_finishQuiz (quiz : Quiz) (s : State) :
  getScore quiz (finishQuiz quiz s).1 = QuizAttempt.score <$> (finishQuiz quiz s).2.
Proof.
  unfold finishQuiz, getScore. simpl.
  by destruct (scoreLoop (answers s) (Quiz.questions quiz)).
Qed.

Lemma review_explanation (s : State) (q : Question) (row : ReviewRow) :
  reviewRow s q = Some row →
  rowExplanation row
  = if rowIsCorrect row then None else Some (Question.explanation q).
Proof.
  unfold reviewRow. destruct (JS.get (answers s) (Question.id q)); by intros [= <-].
Qed.

(** Away from the two keys that the sentinel and the empty answer hit,
    the verdict of the review is the verdict of the scoring loop, and
    one raises when the other does. *)
Lemma review_agrees (s : State) (q : Question) :
  JS.trim (JS.toLowerCase (Question.correctAnswer q)) ≠ "no answer" →
  JS.trim (JS.toLowerCase (Question.correctAnswer q)) ≠ "" →
  rowIsCorrect <$> reviewRow s q = answerMatches (answers s) q.
Proof.
  intros Hsentinel Hempty. unfold reviewRow, answerMatches.
  assert (Hno : JS.trim (JS.toLowerCase "No answer") = "no answer")
    by (vm_compute; reflexivity).
  destruct (JS.get (answers s) (Question.id q)) as [|a|]; [| |done].
  - unfold rowOf. cbv zeta. rewrite Hno. simpl.
    by rewrite bool_decide_eq_false_2 by (by intros E).
  - destruct (decide (a = "")) as [->|Hne].
    + rewrite (bool_decide_eq_true_2 ("" = "")) by done.
      unfold rowOf. cbv zeta. rewrite Hno. simpl.
      change (JS.trim "") with "".
      rewrite !bool_decide_eq_false_2; [done|by intros E|by intros E].
    + by rewrite (bool_decide_eq_false_2 (a = "")).
Qed.

(** C2, evaluated on a session that the in-progress view allows.  The
    first question is a MULTIPLE_CHOICE question that offers the empty
    string and has it as its key.  The empty option is clicked, the
    auto-advance moves on, the second question is answered and Finish
    is clicked.  The scoring loop counts both questions: the attempt
    and the result page carry the score 2.  The review substitutes the
    sentinel for the empty answer before it compares, so its first row
    shows "No answer", is judged incorrect and exposes the explanation:
    the verdict of the review and the verdict of the scoring rule differ
    on the first question. *)
Theorem review_sentinel_verdict :
  Session.allOffered Sample.stringsQuiz start Sample.emptyOption
  ∧ ∃ w, run Sample.stringsQuiz start Sample.emptyOption = Some w
      ∧ isFinished (state w) = true
      ∧ mounted w = true
      ∧ answers (state w) !! "q1" = Some ""
      ∧ completed w = [QuizAttempt.mk (answers (state w)) true 2]
      ∧ getScore Sample.stringsQuiz (state w) = Some 2
      ∧ answerMatches (answers (state w)) Sample.padding = Some true
      ∧ review Sample.stringsQuiz (state w)
        = Some [ mkReviewRow false "No answer" ""
                   (Some (Question.explanation Sample.padding));
                 mkReviewRow true "Paris" "Paris" None ].
Proof.
  split.
  - unfold Sample.emptyOption. simpl. split.
    { intros q [= <-]. unfold Session.offers. simpl. apply list_elem_of_here. }
    split; [done|]. split; [by intros q [= <-]|]. done.
  - eexists. split; [vm_compute; reflexivity|]. simpl.
    repeat split; vm_compute; reflexivity.
Qed.

End Review.

(** ** Navigation *)

Section Navigation.
Import QuizView.
Context (quiz : Quiz).

Lemma goNext_disabled (s : State) (q : Question) :
  currentQuestion quiz s = Some q →
  JS.toBoolean (JS.get (answers s) (Question.id q)) = false →
  goNext quiz s = Some (s, None).
Proof.
  intros Hq Hfalsy. unfold goNext, nextDisabled.
  destruct (isFinished s); [done|]. rewrite Hq. simpl. by rewrite Hfalsy.
Qed.

Lemma goNext_enabled (s : State) (q : Question) :
  isFinished s = false →
  currentQuestion quiz s = Some q →
  JS.toBoolean (JS.get (answers s) (Question.id q)) = true →
  goNext quiz s = Some (handleNext quiz s).
Proof.
  intros Hfin Hq Htruthy. unfold goNext, nextDisabled.
  rewrite Hfin, Hq. simpl. by rewrite Htruthy.
Qed.

Lemma handleAnswer_short (s : State) (q : Question) (value : string) :
  showFeedback s = false → isFinished s = false →
  currentQuestion quiz s = Some q →
  Question.type q = SHORT_ANSWER →
  handleAnswer quiz s value
  = Some (mkState (currentQuestionIndex s)
            (<[Question.id q := value]> (answers s)) false false, None).
Proof.
  intros Hfb Hfin Hq Hty. unfold handleAnswer.
  rewrite Hfb, Hfin, Hq. simpl. by rewrite Hty.
Qed.

End Navigation.

(** C6 as stated does not hold, in two ways.  With an entry for the
    current question that is the empty string, the question has a
    recorded answer and [goNext] neither finishes nor advances.  With
    no entry for a current question whose id names a member of
    [Object.prototype], the question has no recorded answer and
    [goNext] finishes the session. *)
Lemma goNext_guard_counterexample :
  ¬ (∀ (quiz : Quiz) (s : QuizView.State) (q : Question) (a : string),
       QuizView.isFinished s = false →
       QuizView.currentQuestion quiz s = Some q →
       QuizView.answers s !! Question.id q = Some a →
       QuizView.goNext quiz s = Some (QuizView.handleNext quiz s))
  ∧ ¬ (∀ (quiz : Quiz) (s : QuizView.State) (q : Question),
         QuizView.isFinished s = false →
         QuizView.currentQuestion quiz s = Some q →
         QuizView.answers s !! Question.id q = None →
         QuizView.goNext quiz s = Some (s, None)).
Proof.
  split; intros H.
  - specialize (H Sample.quiz Sample.cleared Sample.q3 "" eq_refl eq_refl eq_refl).
    vm_compute in H. discriminate H.
  - specialize (H Sample.objectsQuiz
                  (QuizView.mkState 1 {["class" := "class"]} false false)
                  Sample.constructor eq_refl eq_refl eq_refl).
    vm_compute in H. discriminate H.
Qed.

(** C6, amended: in an in-progress state whose current question has no
    recorded answer and an id that names no member of
    [Object.prototype], [goNext] changes nothing and emits no attempt;
    when the recorded answer of the current question is a non-empty
    string, [goNext] at the last index finishes the session through the
    scoring rule (the attempt carries the number of counted questions
    when the scoring loop does not raise), and at any other index
    increments the index and clears [showFeedback]. *)
Theorem goNext_guard (quiz : Quiz) (s : QuizView.State) (q : Question) :
  QuizView.isFinished s = false →
  QuizView.currentQuestion quiz s = Some q →
  (QuizView.answers s !! Question.id q = None →
   Question.id q ∉ JS.prototypeNames →
   QuizView.goNext quiz s = Some (s, None))
  ∧ (∀ a, QuizView.answers s !! Question.id q = Some a → a ≠ "" →
       (QuizView.isLastQuestion quiz s = true →
        QuizView.goNext quiz s = Some (QuizView.finishQuiz quiz s)
        ∧ QuizView.isFinished (QuizView.finishQuiz quiz s).1 = true
        ∧ (QuizView.scorable (QuizView.answers s) (Quiz.questions quiz) →
           (QuizView.finishQuiz quiz s).2
           = Some (QuizAttempt.mk (QuizView.answers s) true
                     (length (QuizView.correctQuestions (QuizView.answers s)
                                (Quiz.questions quiz))))))
       ∧ (QuizView.isLastQuestion quiz s = false →
          QuizView.goNext quiz s
          = Some (QuizView.mkState (QuizView.currentQuestionIndex s + 1)
                    (QuizView.answers s) false false, None))).
Proof.
  intros Hfin Hq. split.
  - intros Hnone Hplain. apply (goNext_disabled quiz s q Hq). by rewrite get_plain.
  - intros a Ha Hne.
    assert (Hnext : QuizView.goNext quiz s = Some (QuizView.handleNext quiz s)).
    { apply (goNext_enabled quiz s q Hfin Hq). rewrite (get_own _ _ a Ha). simpl.
      by rewrite bool_decide_eq_false_2. }
    rewrite Hnext. unfold QuizView.handleNext. split; intros ->.
    + split; [done|]. split; [done|]. intros Hs.
      unfold QuizView.finishQuiz. simpl. by rewrite scoreLoop_count.
    + by rewrite Hfin.
Qed.

Lemma goNext_guard_witness :
  QuizView.goNext Sample.quiz (QuizView.mkState 2 (QuizView.answers Sample.allWrong) false false)
  = Some (QuizView.mkState 2 (QuizView.answers Sample.allWrong) false false, None)
  ∧ QuizView.goNext Sample.quiz Sample.allRight
    = Some (QuizView.finishQuiz Sample.quiz Sample.allRight).
Proof.
  split.
  - apply (goNext_guard Sample.quiz Sample.allWrong Sample.q3 eq_refl eq_refl).
    + reflexivity.
    + apply (bool_decide_unpack _). vm_compute. reflexivity.
  - eapply (goNext_guard Sample.quiz Sample.allRight Sample.q3 eq_refl eq_refl).
    + reflexivity.
    + discriminate.
    + reflexivity.
Defined.

(** C10. On a SHORT_ANSWER question, typing and then clearing the input
    stores the empty string under the question's id; in such a state
    (an entry exists, its value is the empty string) the guard of
    [goNext] treats the question as unanswered: the state is unchanged,
    no attempt is emitted. *)
Theorem goNext_refuses_cleared_answer (quiz : Quiz) (s : QuizView.State)
    (q : Question) (typed : string) :
  QuizView.isFinished s = false →
  QuizView.showFeedback s = false →
  QuizView.currentQuestion quiz s = Some q →
  Question.type q = SHORT_ANSWER →
  (∃ s1 s2,
      QuizView.handleAnswer quiz s typed = Some (s1, None)
      ∧ QuizView.handleAnswer quiz s1 "" = Some (s2, None)
      ∧ QuizView.answers s2 !! Question.id q = Some ""
      ∧ QuizView.currentQuestionIndex s2 = QuizView.currentQuestionIndex s
      ∧ QuizView.isFinished s2 = false
      ∧ QuizView.goNext quiz s2 = Some (s2, None))
  ∧ (QuizView.answers s !! Question.id q = Some "" →
     QuizView.goNext quiz s = Some (s, None)).
Proof.
  intros Hfin Hfb Hq Hty. split.
  - eexists _, _.
    split; [by apply (handleAnswer_short quiz s q)|].
    split; [by apply (handleAnswer_short quiz _ q)|]. simpl.
    split; [apply lookup_insert_eq|]. split; [done|]. split; [done|].
    apply (goNext_disabled quiz _ q); [done|]. simpl.
    by rewrite (get_own _ _ "") by apply lookup_insert_eq.
  - intros Hblank. apply (goNext_disabled quiz s q Hq).
    by rewrite (get_own _ _ "" Hblank).
Qed.

Lemma goNext_refuses_cleared_answer_witness :
  QuizView.goNext Sample.quiz Sample.cleared = Some (Sample.cleared, None).
Proof.
  apply (goNext_refuses_cleared_answer Sample.quiz Sample.cleared Sample.q3 "x");
    reflexivity.
Defined.

(** ** Auto-advance *)

Section AutoAdvance.
Import QuizView EventLoop.
Context (quiz : Quiz).

(** When [handleAnswer] schedules a task. *)
Lemma handleAnswer_schedule (s s' : State) (q : Question) (value : string)
    (timeout : option Timeout) :
  showFeedback s = false → isFinished s = false →
  currentQuestion quiz s = Some q →
  handleAnswer quiz s value = Some (s', timeout) →
  timeout
  = if bool_decide (Question.type q ≠ SHORT_ANSWER) && negb (isLastQuestion quiz s)
    then Some (mkTimeout 700 (currentQuestionIndex s)) else None.
Proof.
  intros Hfb Hfin Hq. unfold handleAnswer. rewrite Hfb, Hfin, Hq. simpl.
  destruct (Question.type q), (isLastQuestion quiz s); simpl; by intros [= _ <-].
Qed.

Lemma autoAdvance_index (captured : nat) (s : State) :
  currentQuestionIndex (autoAdvance captured s)
  = if decide (currentQuestionIndex s = captured)
    then currentQuestionIndex s + 1 else currentQuestionIndex s.
Proof.
  unfold autoAdvance. simpl. case_decide as H.
  - by rewrite (proj2 (Nat.eqb_eq _ _) H).
  - by rewrite (proj2 (Nat.eqb_neq _ _) H).
Qed.

Lemma foldl_fire_fired (w : World) (ts : list Task) :
  fired (foldl fire w ts) = fired w ++ ts.
Proof.
  revert w. induction ts as [|t ts IH]; intros w; simpl.
  - by rewrite app_nil_r.
  - rewrite IH. simpl. by rewrite <- app_assoc.
Qed.

Lemma foldl_fire_tasks (w : World) (ts : list Task) :
  tasks (foldl fire w ts) = tasks w.
Proof. revert w. induction ts as [|t ts IH]; intros w; simpl; [done|]. by rewrite IH. Qed.

(** No event takes a task out of the queue other than by running it. *)
Lemma step_keeps_tasks (w w' : World) (e : Event) (t : Task) :
  step quiz w e = Some w' → t ∈ tasks w → t ∈ tasks w' ∨ t ∈ fired w'.
Proof.
  intros Hstep Ht. destruct e; simpl in Hstep.
  - destruct (mounted w); [|by simplify_eq; left].
    destruct (handleAnswer quiz (state w) value) as [[s' [to|]]|]; simplify_eq/=; left;
      [apply elem_of_app; by left|done].
  - destruct (mounted w); [|by simplify_eq; left].
    destruct (goNext quiz (state w)) as [[s' a]|]; simplify_eq/=. by left.
  - destruct (mounted w); simplify_eq/=; by left.
  - simplify_eq/=. by left.
  - simplify_eq/=. unfold runDue. simpl.
    rewrite foldl_fire_fired, foldl_fire_tasks. simpl.
    destruct (isDue (clock w + dt) t) eqn:E.
    + right. apply elem_of_app. right. by apply list_elem_of_filter.
    + left. by apply list_elem_of_filter.
Qed.

End AutoAdvance.

(** C5, evaluated on three sessions of the sample quiz.  Answering the
    first question schedules an advance due at 700 that captured index 0.
    After Next and Previous the task is still queued, and at 700 it runs
    and moves the index from 0 to 1: it was not cancelled when the index
    changed.  After Exit it still runs at 700.  In a session finished
    within the delay both scheduled tasks run after the finish.  No
    event cancels a task. *)
Theorem autoAdvance_never_cancelled :
  let view (w : EventLoop.World) :=
    (QuizView.currentQuestionIndex (EventLoop.state w),
     QuizView.isFinished (EventLoop.state w),
     EventLoop.mounted w, EventLoop.tasks w, EventLoop.fired w) in
  view <$> EventLoop.run Sample.quiz EventLoop.start (take 5 Sample.backAndForth)
    = Some (0, false, true, [EventLoop.mkTask 700 0], [])
  ∧ view <$> EventLoop.run Sample.quiz EventLoop.start Sample.backAndForth
    = Some (1, false, true, [], [EventLoop.mkTask 700 0])
  ∧ view <$> EventLoop.run Sample.quiz EventLoop.start Sample.exited
    = Some (0, false, false, [], [EventLoop.mkTask 700 0])
  ∧ view <$> EventLoop.run Sample.quiz EventLoop.start Sample.straightThrough
    = Some (2, true, true, [], [EventLoop.mkTask 700 0; EventLoop.mkTask 700 1]).
Proof. vm_compute. auto. Qed.

(** ** Extraction *)

Section Pdf.
Import FileParser.
Context (getDocument : string → option PdfDocument).

(** Whatever happens inside the [try] block, the only rejection that
    leaves [parsePdf] is the one of its [catch] block. *)
Lemma parsePdf_rejects (file : File) (m : string) :
  (parsePdf getDocument file).2 = Rejected m → m = PDF_FAILED.
Proof.
  unfold parsePdf, tryCatch.
  destruct (bind _ _) as [log [t|m']]; simpl; [done|]. by intros [= <-].
Qed.

Lemma parsePdf_never_EmptyContentError (file : File) :
  ¬ failsWith (parsePdf getDocument file) EmptyContentError.
Proof.
  intros (m & Hm & Hk). apply parsePdf_rejects in Hm as ->. vm_compute in Hk. done.
Qed.

(** A document that decodes and yields no text at all is reported as
    corrupt. *)
Lemma parsePdf_empty_text (file : File) (data : string) (pdf : PdfDocument)
    (log : list Effect) (fullText : string) :
  contents file = Some data →
  getDocument data = Some pdf →
  pageLoop 1 (pages pdf) "" = (log, Resolved fullText) →
  JS.trim fullText = "" →
  (parsePdf getDocument file).2 = Rejected PDF_FAILED.
Proof.
  intros Hc Hd Hl Ht. unfold parsePdf, readFile. rewrite Hc. simpl.
  rewrite Hd, Hl. simpl. rewrite Ht. reflexivity.
Qed.

End Pdf.

(** C3, evaluated.  A document that decodes to no pages has the empty
    text: [parsePdf] throws the empty-content error inside its [try]
    block, the [catch] block replaces it, and the promise rejects with
    the message for corrupt files.  A document with one page and no text
    item (a scanned page) resolves with the page marker alone: no error
    at all. *)
Theorem parsePdf_empty_reported_corrupt :
  FileParser.parsePdf Sample.getDocument Sample.blankPdf
  = ([FileParser.ReadFile "blank.pdf"; FileParser.DecodePdf],
     FileParser.Rejected FileParser.PDF_FAILED)
  ∧ FileParser.errorKind FileParser.PDF_FAILED = Some FileParser.CorruptFileError
  ∧ FileParser.parsePdf Sample.getDocument Sample.scanPdf
    = ([FileParser.ReadFile "scan.pdf"; FileParser.DecodePdf],
       FileParser.Resolved ("--- Page 1 ---" +:+ JS.LF +:+ JS.LF +:+ JS.LF)).
Proof. vm_compute. auto. Qed.

Example parsePdf_text :
  (FileParser.parsePdf Sample.getDocument Sample.textPdf).2
  = FileParser.Resolved
      ("--- Page 1 ---" +:+ JS.LF +:+ "Hello world" +:+ JS.LF +:+ JS.LF
       +:+ "--- Page 2 ---" +:+ JS.LF +:+ "Bye" +:+ JS.LF +:+ JS.LF).
Proof. vm_compute. reflexivity. Qed.

Section Dispatch.
Import FileParser.
Context {Sheet : Type}.
Context (getDocument : string → option PdfDocument).
Context (XLSX_read : string → option (Workbook Sheet)).
Context (sheet_to_csv : option Sheet → option string).

Lemma bind_rejected {A B} (c : Async A) (k : A → Async B) (m : string) :
  (bind c k).2 = Rejected m →
  c.2 = Rejected m ∨ ∃ a, c.2 = Resolved a ∧ (k a).2 = Rejected m.
Proof.
  destruct c as [log [a|m']]; simpl.
  - destruct (k a) as [log' r] eqn:E. simpl. intros ->. right. exists a.
    by rewrite E.
  - intros [= <-]. by left.
Qed.

Lemma readFile_rejects (file : File) (onerror m : string) :
  (readFile file onerror).2 = Rejected m → m = onerror.
Proof.
  unfold readFile. destruct (contents file); simpl; [done|]. by intros [= <-].
Qed.

Lemma parseExcel_rejects (file : File) (m : string) :
  (parseExcel XLSX_read sheet_to_csv file).2 = Rejected m →
  m = READ_FAILED ∨ m = EXCEL_EMPTY ∨ m = EXCEL_FAILED.
Proof.
  unfold parseExcel, readFile. destruct (contents file) as [data|]; simpl.
  - destruct (XLSX_read data) as [wb|]; simpl.
    + destruct (sheet_to_csv _) as [csv|]; simpl.
      * destruct (_ || _); simpl; intros [= <-]; auto.
      * intros [= <-]; auto.
    + intros [= <-]; auto.
  - intros [= <-]; auto.
Qed.

Lemma parseImage_rejects (file : File) (m : string) :
  (parseImage file).2 = Rejected m → m = READ_FAILED ∨ m = IMAGE_FAILED.
Proof.
  unfold parseImage, readFile. destruct (contents file) as [data|]; simpl.
  - destruct (split data !! 0); simpl; [done|]. intros [= <-]; auto.
  - intros [= <-]; auto.
Qed.

(** The rejection for an unsupported type comes before any read or
    decoding. *)
Lemma parseFile_unsupported_first (file : File) :
  (parseFile getDocument XLSX_read sheet_to_csv file).2 = Rejected UNSUPPORTED →
  parseFile getDocument XLSX_read sheet_to_csv file = ([], Rejected UNSUPPORTED).
Proof.
  unfold parseFile.
  destruct (bool_decide (type file = "application/pdf")).
  { intros H. apply bind_rejected in H as [H|(a & _ & H)]; [|done].
    by apply parsePdf_rejects in H. }
  destruct (_ || _).
  { intros H. apply bind_rejected in H as [H|(a & _ & H)]; [|done].
    apply parseExcel_rejects in H as [H|[H|H]]; done. }
  destruct (JS.startsWith _ _); [|done].
  intros H. apply parseImage_rejects in H as [H|H]; done.
Qed.

End Dispatch.

(** C4, evaluated.  Three files with an empty declared media type and an
    allow-listed extension ([.pdf], [.heic], upper-case [.XLSX]) pass
    the upload widget's check and are rejected by [parseFile] as
    unsupported, without any read: the PDF and image paths test the media
    type only, the spreadsheet path compares the extension
    case-sensitively. *)
Theorem parseFile_ignores_extension :
  let parseFile :=
    FileParser.parseFile Sample.getDocument Sample.XLSX_read Sample.sheet_to_csv in
  FileUpload.validateAndSelect Sample.untypedPdf = true
  ∧ parseFile Sample.untypedPdf = ([], FileParser.Rejected FileParser.UNSUPPORTED)
  ∧ FileUpload.validateAndSelect Sample.untypedHeic = true
  ∧ parseFile Sample.untypedHeic = ([], FileParser.Rejected FileParser.UNSUPPORTED)
  ∧ FileUpload.validateAndSelect Sample.upperBook = true
  ∧ parseFile Sample.upperBook = ([], FileParser.Rejected FileParser.UNSUPPORTED)
  ∧ FileParser.errorKind FileParser.UNSUPPORTED = Some FileParser.UnsupportedTypeError.
Proof. vm_compute. auto 10. Qed.

Example parseFile_text_file :
  FileUpload.validateAndSelect Sample.textFile = false
  ∧ FileParser.parseFile Sample.getDocument Sample.XLSX_read Sample.sheet_to_csv
      Sample.textFile
    = ([], FileParser.Rejected FileParser.UNSUPPORTED).
Proof. vm_compute. auto. Qed.

Section Excel.
Import FileParser.
Context {Sheet : Type}.
Context (XLSX_read : string → option (Workbook Sheet)).
Context (sheet_to_csv : option Sheet → option string).

Lemma length_zero (s : string) : (String.length s =? 0) = bool_decide (s = "").
Proof. by destruct s. Qed.

(** The test [!csv || csv.trim().length === 0]. *)
Lemma csv_blank (csv : string) :
  (String.length csv =? 0) || (String.length (JS.trim csv) =? 0)
  = bool_decide (JS.trim csv = "").
Proof.
  rewrite !length_zero. destruct csv as [|c csv]; [done|].
  by rewrite (bool_decide_eq_false_2 (String c csv = "")).
Qed.

(** The first sheet: [workbook.Sheets[workbook.SheetNames[0]]]. *)
Lemma parseExcel_decoded (file : File) (data : string) (wb : Workbook Sheet) :
  contents file = Some data →
  XLSX_read data = Some wb →
  parseExcel XLSX_read sheet_to_csv file
  = ([ReadFile (name file); DecodeWorkbook],
     match sheet_to_csv (firstSheet wb) with
     | None => Rejected EXCEL_FAILED
     | Some csv =>
         if bool_decide (JS.trim csv = "") then Rejected EXCEL_EMPTY
         else Resolved ("--- Excel Sheet: " +:+ default "undefined" (SheetNames wb !! 0)
                        +:+ " ---" +:+ JS.LF +:+ csv)
     end).
Proof.
  intros Hc Hd. unfold parseExcel, readFile, firstSheet. rewrite Hc. simpl. rewrite Hd. simpl.
  destruct (sheet_to_csv _) as [csv|]; simpl; [|done].
  rewrite csv_blank. by destruct (bool_decide _).
Qed.

Lemma parseExcel_undecoded (file : File) (data : string) :
  contents file = Some data →
  XLSX_read data = None →
  parseExcel XLSX_read sheet_to_csv file
  = ([ReadFile (name file); DecodeWorkbook], Rejected EXCEL_FAILED).
Proof.
  intros Hc Hd. unfold parseExcel, readFile. rewrite Hc. simpl. by rewrite Hd.
Qed.

Lemma parseExcel_unread (file : File) :
  contents file = None →
  parseExcel XLSX_read sheet_to_csv file
  = ([ReadFile (name file)], Rejected READ_FAILED).
Proof. intros Hc. unfold parseExcel, readFile. by rewrite Hc. Qed.

(** C8. For a spreadsheet that decodes, [parseExcel] serialises the
    sheet named first in [SheetNames] and nothing else: when the
    serialised table is empty after trimming the promise rejects with the
    empty-content error and not with the corrupt-file error; otherwise it
    resolves with the table prefixed by [--- Excel Sheet: <name> ---] and
    a line feed; any workbook with the same first sheet gives the same
    result; and the corrupt-file error occurs exactly when a decoding
    call ([XLSX.read] or [sheet_to_csv]) fails. *)
Theorem parseExcel_first_sheet (file : File) (data : string) (wb : Workbook Sheet)
    (sheetName csv : string) :
  contents file = Some data →
  XLSX_read data = Some wb →
  SheetNames wb !! 0 = Some sheetName →
  sheet_to_csv (Sheets wb !! sheetName) = Some csv →
  let result := (parseExcel XLSX_read sheet_to_csv file).2 in
  (JS.trim csv = "" →
     result = Rejected EXCEL_EMPTY
     ∧ failsWith (parseExcel XLSX_read sheet_to_csv file) EmptyContentError
     ∧ ¬ failsWith (parseExcel XLSX_read sheet_to_csv file) CorruptFileError)
  ∧ (JS.trim csv ≠ "" →
     result = Resolved ("--- Excel Sheet: " +:+ sheetName +:+ " ---" +:+ JS.LF +:+ csv))
  ∧ (∀ (file' : File) (data' : string) (wb' : Workbook Sheet),
       contents file' = Some data' →
       XLSX_read data' = Some wb' →
       SheetNames wb' !! 0 = Some sheetName →
       Sheets wb' !! sheetName = Sheets wb !! sheetName →
       (parseExcel XLSX_read sheet_to_csv file').2 = result)
  ∧ (∀ file' : File,
       failsWith (parseExcel XLSX_read sheet_to_csv file') CorruptFileError ↔
       ∃ data', contents file' = Some data'
         ∧ (XLSX_read data' = None
            ∨ ∃ wb', XLSX_read data' = Some wb'
                ∧ sheet_to_csv (firstSheet wb') = None)).
Proof.
  intros Hc Hd Hn Hcsv result.
  assert (Hfirst : firstSheet wb = Sheets wb !! sheetName).
  { unfold firstSheet. by rewrite Hn. }
  assert (Hres : result
    = if bool_decide (JS.trim csv = "") then Rejected EXCEL_EMPTY
      else Resolved ("--- Excel Sheet: " +:+ sheetName +:+ " ---" +:+ JS.LF +:+ csv)).
  { subst result. rewrite (parseExcel_decoded file data wb Hc Hd). simpl.
    by rewrite Hfirst, Hcsv, Hn. }
  split; [|split; [|split]].
  - intros Hblank. rewrite bool_decide_eq_true_2 in Hres by done.
    split; [done|]. split.
    + exists EXCEL_EMPTY. by split.
    + intros (m & Hm & Hk). fold result in Hm. rewrite Hres in Hm.
      injection Hm as <-. vm_compute in Hk. done.
  - intros Hne. by rewrite bool_decide_eq_false_2 in Hres.
  - intros file' data' wb' Hc' Hd' Hn' Hs'.
    rewrite (parseExcel_decoded file' data' wb' Hc' Hd'). simpl.
    unfold firstSheet. rewrite Hn'. simpl. rewrite Hs', Hcsv, Hres. done.
  - intros file'. split.
    + intros (m & Hm & Hk). destruct (contents file') as [data'|] eqn:Hc'.
      * exists data'. split; [done|].
        destruct (XLSX_read data') as [wb'|] eqn:Hd'; [right|by left].
        exists wb'. split; [done|].
        rewrite (parseExcel_decoded file' data' wb' Hc' Hd') in Hm. simpl in Hm.
        destruct (sheet_to_csv (firstSheet wb')) as [csv'|]; [|done].
        destruct (bool_decide (JS.trim csv' = "")); [|done]. injection Hm as <-.
        vm_compute in Hk. done.
      * rewrite (parseExcel_unread file' Hc') in Hm. injection Hm as <-.
        vm_compute in Hk. done.
    + intros (data' & Hc' & [Hd'|(wb' & Hd' & Hs')]).
      * exists EXCEL_FAILED. rewrite (parseExcel_undecoded file' data' Hc' Hd').
        split; reflexivity.
      * exists EXCEL_FAILED. rewrite (parseExcel_decoded file' data' wb' Hc' Hd').
        simpl. rewrite Hs'. split; reflexivity.
Qed.

End Excel.

Lemma parseExcel_first_sheet_witness :
  (FileParser.parseExcel Sample.XLSX_read Sample.sheet_to_csv Sample.emptyBook).2
  = FileParser.Rejected FileParser.EXCEL_EMPTY
  ∧ FileParser.errorKind FileParser.EXCEL_EMPTY = Some FileParser.EmptyContentError.
Proof.
  split; [|reflexivity].
  eapply (parseExcel_first_sheet Sample.XLSX_read Sample.sheet_to_csv
            Sample.emptyBook "PK-empty" _ "Sheet1" "");
    reflexivity.
Defined.

Example parseExcel_data :
  FileParser.parseExcel Sample.XLSX_read Sample.sheet_to_csv Sample.dataBook
  = ([FileParser.ReadFile "data.xlsx"; FileParser.DecodeWorkbook],
     FileParser.Resolved ("--- Excel Sheet: Data ---" +:+ JS.LF
                          +:+ "a,b" +:+ JS.LF +:+ "1,2")).
Proof. vm_compute. reflexivity. Qed.

(** ** Strings *)

Section Strings.

Lemma append_cons (c : ascii) (s t : string) :
  String c s +:+ t = String c (s +:+ t).
Proof. reflexivity. Qed.

Lemma append_nil_l (s : string) : "" +:+ s = s.
Proof. reflexivity. Qed.

Lemma append_nil_r (s : string) : s +:+ "" = s.
Proof. induction s as [|c s IH]; [done|]. by rewrite ?append_cons, IH. Qed.

Lemma append_assoc (s t u : string) : (s +:+ t) +:+ u = s +:+ (t +:+ u).
Proof. induction s as [|c s IH]; [done|]. by rewrite !append_cons, IH. Qed.

Lemma rev_app_append (s t : string) : String.rev_app s t = String.rev s +:+ t.
Proof.
  unfold String.rev. revert t. induction s as [|c s IH]; intros t; simpl; [done|].
  rewrite (IH (String c t)), (IH (String c "")).
  by rewrite append_assoc.
Qed.

Lemma rev_cons (c : ascii) (s : string) :
  String.rev (String c s) = String.rev s +:+ String c "".
Proof. unfold String.rev at 1. simpl. apply rev_app_append. Qed.

Lemma rev_append (s t : string) :
  String.rev (s +:+ t) = String.rev t +:+ String.rev s.
Proof.
  induction s as [|c s IH].
  - by rewrite append_nil_l, append_nil_r.
  - by rewrite append_cons, !rev_cons, IH, append_assoc.
Qed.

Lemma rev_involutive (s : string) : String.rev (String.rev s) = s.
Proof.
  induction s as [|c s IH]; [done|].
  by rewrite rev_cons, rev_append, IH.
Qed.

Lemma blank_append (s t : string) :
  Text.blank (s +:+ t) = Text.blank s && Text.blank t.
Proof.
  induction s as [|c s IH]; [done|].
  rewrite ?append_cons. simpl. by rewrite IH, andb_assoc.
Qed.

Lemma blank_rev (s : string) : Text.blank (String.rev s) = Text.blank s.
Proof.
  induction s as [|c s IH]; [done|].
  rewrite rev_cons, blank_append, IH. simpl. 
  rewrite andb_true_r. apply andb_comm.
Qed.

Lemma trimStart_blank (p s : string) :
  Text.blank p = true → JS.trimStart (p +:+ s) = JS.trimStart s.
Proof.
  induction p as [|c p IH]; [done|]. simpl.
  intros [Hc Hp]%andb_true_iff. rewrite ?append_cons. simpl. rewrite Hc. auto.
Qed.

Lemma trimStart_blank_nil (p : string) :
  Text.blank p = true → JS.trimStart p = "".
Proof.
  intros Hp. rewrite <- (append_nil_r p). by rewrite trimStart_blank.
Qed.

Lemma trimStart_nil_blank (s : string) :
  JS.trimStart s = "" → Text.blank s = true.
Proof.
  induction s as [|c s IH]; [done|]. simpl.
  destruct (JS.isWhiteSpace c); [auto|done].
Qed.

Lemma trimStart_append (s t : string) :
  JS.trimStart s ≠ "" → JS.trimStart (s +:+ t) = JS.trimStart s +:+ t.
Proof.
  induction s as [|c s IH]; [done|]. simpl. rewrite ?append_cons. simpl.
  destruct (JS.isWhiteSpace c); [auto|done].
Qed.

Lemma trimEnd_blank (s p : string) :
  Text.blank p = true → JS.trimEnd (s +:+ p) = JS.trimEnd s.
Proof.
  intros Hp. unfold JS.trimEnd. rewrite rev_append.
  rewrite trimStart_blank; [done|]. by rewrite blank_rev.
Qed.

Lemma trim_blank (p : string) : Text.blank p = true → JS.trim p = "".
Proof. intros Hp. unfold JS.trim. by rewrite trimStart_blank_nil. Qed.

(** Surrounding white space does not change what [trim] returns. *)
Lemma trim_padding (p1 s p2 : string) :
  Text.blank p1 = true → Text.blank p2 = true →
  JS.trim (p1 +:+ s +:+ p2) = JS.trim s.
Proof.
  intros H1 H2. unfold JS.trim. rewrite trimStart_blank by done.
  destruct (decide (JS.trimStart s = "")) as [He|Hne].
  - rewrite He. rewrite trimStart_blank; [|by apply trimStart_nil_blank].
    by rewrite trimStart_blank_nil.
  - rewrite trimStart_append by done. by apply trimEnd_blank.
Qed.

Lemma trim_nil_blank (s : string) : JS.trim s = "" → Text.blank s = true.
Proof.
  unfold JS.trim, JS.trimEnd. intros H.
  apply (f_equal String.rev) in H. rewrite rev_involutive in H.
  change (String.rev "") with "" in H.
  apply trimStart_nil_blank in H. rewrite blank_rev in H.
  destruct (decide (JS.trimStart s = "")) as [He|Hne].
  - by apply trimStart_nil_blank.
  - clear -H Hne. induction s as [|c s IH]; [done|]. simpl in *.
    destruct (JS.isWhiteSpace c) eqn:E; [auto|]. simpl in H. by rewrite E in H.
Qed.

Lemma lowerChar_upperChar (c : ascii) :
  nat_of_ascii c < 128 → JS.lowerChar (JS.upperChar c) = JS.lowerChar c.
Proof.
  intros _. destruct c as [[] [] [] [] [] [] [] []]; vm_compute; reflexivity.
Qed.

Lemma isWhiteSpace_lowerChar (c : ascii) :
  JS.isWhiteSpace c = true → JS.lowerChar c = c.
Proof.
  destruct c as [[] [] [] [] [] [] [] []]; vm_compute; intros; congruence.
Qed.

Lemma toLowerCase_toUpperCase (s : string) :
  Text.ascii7 s = true → JS.toLowerCase (JS.toUpperCase s) = JS.toLowerCase s.
Proof.
  induction s as [|c s IH]; [done|]. simpl.
  intros [Hc Hs]%andb_true_iff. apply Nat.ltb_lt in Hc.
  by rewrite lowerChar_upperChar, IH.
Qed.

Lemma toLowerCase_append (s t : string) :
  JS.toLowerCase (s +:+ t) = JS.toLowerCase s +:+ JS.toLowerCase t.
Proof.
  induction s as [|c s IH]; [done|]. rewrite ?append_cons. simpl.
  by rewrite IH.
Qed.

Lemma toLowerCase_blank (p : string) :
  Text.blank p = true → JS.toLowerCase p = p.
Proof.
  induction p as [|c p IH]; [done|]. simpl.
  intros [Hc Hp]%andb_true_iff. by rewrite isWhiteSpace_lowerChar, IH.
Qed.

(** Normalising an answer ignores its case and the white space around
    it. *)
Lemma normalise_padded_upper (p1 a p2 : string) :
  Text.ascii7 a = true → Text.blank p1 = true → Text.blank p2 = true →
  JS.trim (JS.toLowerCase (p1 +:+ JS.toUpperCase a +:+ p2))
  = JS.trim (JS.toLowerCase a).
Proof.
  intros Ha H1 H2. rewrite !toLowerCase_append.
  rewrite toLowerCase_toUpperCase by done.
  rewrite (toLowerCase_blank p1), (toLowerCase_blank p2) by done.
  by apply trim_padding.
Qed.

End Strings.

(** ** Sessions: what every run of events keeps *)

Section SessionInvariants.
Import QuizView EventLoop Session.
Context (quiz : Quiz).

Lemma isLastQuestion_true (s : State) :
  isLastQuestion quiz s = true ↔
  currentQuestionIndex s + 1 = length (Quiz.questions quiz).
Proof. unfold isLastQuestion. rewrite Z.eqb_eq. lia. Qed.

Lemma isLastQuestion_false (s : State) :
  isLastQuestion quiz s = false ↔
  currentQuestionIndex s + 1 ≠ length (Quiz.questions quiz).
Proof. unfold isLastQuestion. rewrite Z.eqb_neq. lia. Qed.

Lemma getScore_answers (s s' : State) :
  answers s' = answers s → getScore quiz s' = getScore quiz s.
Proof. intros H. unfold getScore. by rewrite H. Qed.

Lemma reviewRow_is_Some (s : State) (q : Question) :
  is_Some (reviewRow s q) ↔ is_Some (answerMatches (answers s) q).
Proof.
  unfold reviewRow, answerMatches.
  destruct (JS.get (answers s) (Question.id q)); split; intros [x Hx]; try done;
    by eexists.
Qed.

Lemma review_is_Some (s : State) :
  is_Some (review quiz s) ↔ scorable (answers s) (Quiz.questions quiz).
Proof.
  unfold review, scorable. rewrite mapM_is_Some. apply Forall_proper; [|done].
  intros q. simpl. by rewrite reviewRow_is_Some, answerMatches_is_Some.
Qed.

Lemma rendersResults_true (s : State) :
  rendersResults quiz s = true ↔ scorable (answers s) (Quiz.questions quiz).
Proof.
  unfold rendersResults, getScore. split.
  - destruct (scoreLoop _ _) eqn:E; [|done]. intros _.
    apply scoreLoop_is_Some. by eexists.
  - intros Hs. rewrite scoreLoop_count by done.
    apply review_is_Some in Hs as [rows ->]. done.
Qed.

Lemma rendersResults_raises (s : State) :
  getScore quiz s = None → rendersResults quiz s = false.
Proof. intros H. unfold rendersResults. by rewrite H. Qed.

Lemma Safe_start : Quiz.questions quiz ≠ [] → Safe quiz start.
Proof.
  intros Hne. split; simpl; try done.
  - destruct (Quiz.questions quiz); [done|simpl; lia].
  - intros t Ht. by apply elem_of_nil in Ht.
Qed.

Lemma fire_Safe (w : World) (t : Task) :
  Safe quiz w → captured t + 1 < length (Quiz.questions quiz) →
  Safe quiz (fire w t).
Proof.
  intros [Hi Ht Hf Hfin] Hc. unfold fire.
  destruct (mounted w); [|by split].
  split; simpl; [| done | done |].
  - destruct (_ =? _) eqn:E; [apply Nat.eqb_eq in E|]; lia.
  - destruct (isFinished (state w)); [|done].
    destruct Hfin as (Hlast & Hcomp & Hmnt).
    rewrite (proj2 (Nat.eqb_neq _ _)) by lia. done.
Qed.

Lemma foldl_fire_Safe (ready : list Task) (w : World) :
  Safe quiz w → (∀ t, t ∈ ready → captured t + 1 < length (Quiz.questions quiz)) →
  Safe quiz (foldl fire w ready).
Proof.
  revert w. induction ready as [|t ready IH]; intros w Hw Hr; simpl; [done|].
  apply IH.
  - apply fire_Safe; [done|]. apply Hr. by left.
  - intros t' Ht'. apply Hr. by right.
Qed.

Lemma handleAnswer_Some (s : State) (value : string) :
  currentQuestionIndex s < length (Quiz.questions quiz) →
  ∃ q, currentQuestion quiz s = Some q ∧
    handleAnswer quiz s value
    = if showFeedback s || isFinished s then Some (s, None)
      else Some (mkState (currentQuestionIndex s)
                   (<[Question.id q := value]> (answers s))
                   (showFeedback s) (isFinished s),
                 if bool_decide (Question.type q ≠ SHORT_ANSWER)
                    && negb (isLastQuestion quiz s)
                 then Some (mkTimeout 700 (currentQuestionIndex s)) else None).
Proof.
  intros Hi. destruct (lookup_lt_is_Some_2 _ _ Hi) as [q Hq].
  exists q. split; [done|]. unfold handleAnswer.
  destruct (_ || _); [done|]. unfold currentQuestion. rewrite Hq. simpl.
  by destruct (Question.type q), (isLastQuestion quiz s).
Qed.

Lemma step_Safe (w w' : World) (e : Event) :
  Safe quiz w → step quiz w e = Some w' → Safe quiz w'.
Proof.
  intros Hw Hstep. pose proof Hw as [Hi Ht Hf Hfin].
  destruct e as [value| | | |dt]; simpl in Hstep.
  - (* Answer *)
    destruct (mounted w); [|by simplify_eq].
    destruct (handleAnswer_Some (state w) value Hi) as (q & Hq & Hans).
    rewrite Hans, Hf in Hstep. simpl in Hstep.
    destruct (isFinished (state w)) eqn:Efin; simpl in Hstep.
    { simplify_eq. split; simpl; rewrite ?Efin; done. }
    destruct (_ && _) eqn:Esched; simplify_eq/=.
    + apply andb_true_iff in Esched as [_ Hnl].
      apply negb_true_iff, isLastQuestion_false in Hnl.
      split; simpl; rewrite ?Efin; try done.
      intros t [Hin| ->%list_elem_of_singleton]%elem_of_app; [by apply Ht|].
      simpl. lia.
    + split; simpl; rewrite ?Efin; done.
  - (* Next *)
    destruct (mounted w); [|by simplify_eq].
    unfold goNext, nextDisabled, currentQuestion in Hstep.
    destruct (isFinished (state w)) eqn:Efin; simpl in Hstep.
    { simplify_eq. rewrite Efin. split; simpl; rewrite ?Efin; try done.
      destruct Hfin as (Hlast & Hcomp & Hmnt). split; [done|]. split; [done|].
      apply rendersResults_raises. }
    destruct (lookup_lt_is_Some_2 _ _ Hi) as [q Hq].
    rewrite Hq in Hstep. simpl in Hstep.
    destruct (negb _); simpl in Hstep.
    { simplify_eq. rewrite Efin. split; simpl; rewrite ?Efin; done. }
    unfold handleNext in Hstep.
    destruct (isLastQuestion quiz (state w)) eqn:Elast; simplify_eq/=.
    + apply isLastQuestion_true in Elast.
      split; simpl; try done. split; [done|]. rewrite Hfin.
      split; [|apply rendersResults_raises].
      unfold getScore. simpl.
      by destruct (scoreLoop (answers (state w)) (Quiz.questions quiz)).
    + apply isLastQuestion_false in Elast. rewrite Efin.
      split; simpl; rewrite ?Efin; try done. lia.
  - (* Previous *)
    destruct (mounted w); simplify_eq; [|done].
    unfold goPrevious, handlePrevious.
    destruct (isFinished (state w)) eqn:Efin.
    { split; simpl; rewrite ?Efin; done. }
    destruct (_ =? 0); [split; simpl; rewrite ?Efin; done|].
    destruct (0 <? _); split; simpl; rewrite ?Efin; try done. lia.
  - (* Exit *)
    simplify_eq. split; simpl; try done.
    destruct (isFinished (state w)); [|done].
    destruct Hfin as (Hlast & Hcomp & Hmnt). done.
  - (* Elapse *)
    simplify_eq. unfold runDue. simpl. apply foldl_fire_Safe.
    + split; simpl; try done. intros t Ht'%list_elem_of_filter. apply Ht, Ht'.
    + intros t Ht'%list_elem_of_filter. apply Ht, Ht'.
Qed.

Lemma step_total (w : World) (e : Event) :
  Safe quiz w → is_Some (step quiz w e).
Proof.
  intros [Hi Ht Hf Hfin]. destruct e as [value| | | |dt]; simpl; try done.
  - destruct (mounted w); [|done].
    destruct (handleAnswer_Some (state w) value Hi) as (q & Hq & ->).
    by destruct (_ || _).
  - destruct (mounted w); [|done].
    unfold goNext, nextDisabled, currentQuestion.
    destruct (isFinished (state w)); [done|].
    destruct (lookup_lt_is_Some_2 _ _ Hi) as [q ->]. simpl.
    by destruct (negb _), (handleNext quiz (state w)).
  - by destruct (mounted w).
Qed.

Lemma run_Safe (es : list Event) (w : World) :
  Safe quiz w → ∃ w', run quiz w es = Some w' ∧ Safe quiz w'.
Proof.
  revert w. induction es as [|e es IH]; intros w Hw; simpl.
  - by exists w.
  - destruct (step_total w e Hw) as [w1 Hstep]. rewrite Hstep. simpl.
    apply IH. by eapply step_Safe.
Qed.

(** Without Exit, and with plain ids, the tree stays mounted. *)
Lemma foldl_fire_mounted (ready : list Task) (w : World) :
  mounted (foldl fire w ready) = mounted w.
Proof.
  revert w. induction ready as [|t ready IH]; intros w; simpl; [done|].
  by rewrite IH.
Qed.

Lemma step_mounted (w w' : World) (e : Event) :
  plainIds quiz → e ≠ Exit → mounted w = true →
  step quiz w e = Some w' → mounted w' = true.
Proof.
  intros Hplain He Hm Hstep. destruct e as [value| | | |dt]; simpl in Hstep.
  - rewrite Hm in Hstep. destruct (handleAnswer _ _ _) as [[s' timeout]|]; by simplify_eq/=.
  - rewrite Hm in Hstep. destruct (goNext _ _) as [[s' attempt]|]; simplify_eq/=.
    destruct (isFinished s'); [|done].
    apply rendersResults_true. by apply plainIds_scorable.
  - rewrite Hm in Hstep. by simplify_eq/=.
  - done.
  - simplify_eq. unfold runDue. by rewrite foldl_fire_mounted.
Qed.

Lemma run_mounted (es : list Event) (w w' : World) :
  plainIds quiz → Exit ∉ es → mounted w = true →
  run quiz w es = Some w' → mounted w' = true.
Proof.
  intros Hplain. revert w. induction es as [|e es IH]; intros w Hex Hm Hrun;
    simpl in Hrun.
  - by simplify_eq.
  - destruct (step quiz w e) as [w1|] eqn:Hstep; [|done]. simpl in Hrun.
    apply not_elem_of_cons in Hex as [He Hex].
    apply (IH w1); [done| |done]. by eapply step_mounted.
Qed.

End SessionInvariants.

Section SessionAnswered.
Import QuizView EventLoop Session.
Context (quiz : Quiz).
Context (Hids : NoDup (Question.id <$> Quiz.questions quiz)).
Context (Hopts : optionsNonEmpty quiz).
Context (Hplain : plainIds quiz).

Lemma same_id_same_index (i j : nat) (q q' : Question) :
  Quiz.questions quiz !! i = Some q → Quiz.questions quiz !! j = Some q' →
  Question.id q = Question.id q' → i = j.
Proof using Hids.
  intros Hi Hj Heq. eapply (NoDup_lookup _ i j (Question.id q)); [exact Hids| |].
  - by rewrite list_lookup_fmap, Hi.
  - by rewrite list_lookup_fmap, Hj, Heq.
Qed.

Lemma offers_truthy (q : Question) (value : string) :
  q ∈ Quiz.questions quiz → Question.type q ≠ SHORT_ANSWER →
  offers q value → value ≠ "".
Proof using Hopts.
  intros Hq Hty Hoff ->. unfold offers in Hoff.
  destruct (Question.type q) eqn:E; [by apply (Hopts q Hq E)| |done].
  apply elem_of_cons in Hoff as [?|Hoff]; [done|].
  apply elem_of_cons in Hoff as [?|Hoff]; [done|].
  by apply elem_of_nil in Hoff.
Qed.

Lemma truthy_Some (value : string) : value ≠ "" → JS.truthy (Some value) = true.
Proof. intros H. simpl. by rewrite bool_decide_eq_false_2. Qed.

(** For an id that names no member of [Object.prototype] the guard of
    the Next button asks for a non-empty recorded answer. *)
Lemma toBoolean_plain (ans : gmap string string) (q : Question) :
  q ∈ Quiz.questions quiz →
  JS.toBoolean (JS.get ans (Question.id q)) = JS.truthy (ans !! Question.id q).
Proof using Hplain.
  intros Hq. unfold plainIds in Hplain. rewrite Forall_forall in Hplain.
  unfold JS.get. destruct (ans !! Question.id q); [done|].
  by rewrite bool_decide_eq_false_2 by (by apply Hplain).
Qed.

Lemma fire_answers (w : World) (t : Task) :
  answers (state (fire w t)) = answers (state w).
Proof. unfold fire. by destruct (mounted w). Qed.

Lemma fire_Answered (w : World) (t : Task) :
  Answered quiz w →
  (∃ q, Quiz.questions quiz !! captured t = Some q
        ∧ JS.truthy (answers (state w) !! Question.id q) = true) →
  Answered quiz (fire w t).
Proof.
  intros [Hb Ht Hfin] Hcap. unfold fire.
  destruct (mounted w); [|by split].
  split; simpl; [| done | done].
  intros i Hi. destruct (_ =? _) eqn:E.
  - apply Nat.eqb_eq in E. destruct (decide (i = captured t)) as [->|Hne].
    + exact Hcap.
    + apply Hb. lia.
  - by apply Hb.
Qed.

Lemma foldl_fire_Answered (ready : list Task) (w : World) :
  Answered quiz w →
  (∀ t, t ∈ ready →
     ∃ q, Quiz.questions quiz !! captured t = Some q
          ∧ JS.truthy (answers (state w) !! Question.id q) = true) →
  Answered quiz (foldl fire w ready).
Proof.
  revert w. induction ready as [|t ready IH]; intros w Hw Hr; simpl; [done|].
  apply IH.
  - apply fire_Answered; [done|]. apply Hr. by left.
  - intros t' Ht'. rewrite fire_answers. apply Hr. by right.
Qed.

Lemma step_Answered (w w' : World) (e : Event) :
  Safe quiz w → Answered quiz w → offered quiz w e →
  step quiz w e = Some w' → Answered quiz w'.
Proof using Hids Hopts Hplain.
  intros [Hi Hts Hf Hsf] Hw Hoff Hstep. pose proof Hw as [Hb Ht Hfin].
  destruct e as [value| | | |dt]; simpl in Hstep.
  - (* Answer *)
    destruct (mounted w); [|by simplify_eq].
    destruct (handleAnswer_Some quiz (state w) value Hi) as (q & Hq & Hans).
    rewrite Hans, Hf in Hstep. simpl in Hstep.
    destruct (isFinished (state w)) eqn:Efin; simpl in Hstep.
    { simplify_eq. split; simpl; rewrite ?Efin; done. }
    assert (Hin : q ∈ Quiz.questions quiz).
    { apply list_elem_of_lookup. eexists. exact Hq. }
    assert (Hkeep : ∀ i q', Quiz.questions quiz !! i = Some q' →
              JS.truthy (answers (state w) !! Question.id q') = true →
              i ≠ currentQuestionIndex (state w) ∨ Question.type q' ≠ SHORT_ANSWER →
              JS.truthy (<[Question.id q := value]> (answers (state w))
                           !! Question.id q') = true).
    { intros i q' Hq' Htr Hcase.
      destruct (decide (Question.id q = Question.id q')) as [Heq|Hne].
      - assert (currentQuestionIndex (state w) = i)
          by (eapply same_id_same_index; eauto).
        subst i. assert (q' = q) as ->
          by (unfold currentQuestion in Hq; congruence).
        destruct Hcase as [?|Hty]; [done|].
        rewrite lookup_insert_eq. apply truthy_Some.
        apply (offers_truthy q); [done|done|]. by apply Hoff.
      - by rewrite lookup_insert_ne. }
    assert (Hbefore : ∀ i, i < currentQuestionIndex (state w) →
              answeredAt quiz (<[Question.id q := value]> (answers (state w))) i).
    { intros i Hlt. destruct (Hb i Hlt) as (q' & Hq' & Htr).
      exists q'. split; [done|]. apply (Hkeep i); [done|done|left; lia]. }
    assert (Htasks : ∀ t, t ∈ tasks w →
              ∃ q0, Quiz.questions quiz !! captured t = Some q0
                ∧ Question.type q0 ≠ SHORT_ANSWER
                ∧ JS.truthy (<[Question.id q := value]> (answers (state w))
                               !! Question.id q0) = true).
    { intros t Hin'. destruct (Ht t Hin') as (q0 & Hq0 & Hty & Htr).
      exists q0. split; [done|]. split; [done|].
      apply (Hkeep (captured t)); [done|done|by right]. }
    destruct (_ && _) eqn:Esched; simplify_eq/=.
    + apply andb_true_iff in Esched as [Hty _]. apply bool_decide_eq_true in Hty.
      split; simpl; rewrite ?Efin; try done.
      intros t [Hin'| ->%list_elem_of_singleton]%elem_of_app; [by apply Htasks|].
      simpl. exists q. split; [done|]. split; [done|].
      rewrite lookup_insert_eq. apply truthy_Some.
      apply (offers_truthy q); [done|done|]. by apply Hoff.
    + split; simpl; rewrite ?Efin; done.
  - (* Next *)
    destruct (mounted w); [|by simplify_eq].
    unfold goNext, nextDisabled, currentQuestion in Hstep.
    destruct (isFinished (state w)) eqn:Efin; simpl in Hstep.
    { simplify_eq. rewrite Efin. split; simpl; rewrite ?Efin; done. }
    destruct (lookup_lt_is_Some_2 _ _ Hi) as [q Hq].
    rewrite Hq in Hstep. simpl in Hstep.
    rewrite toBoolean_plain in Hstep
      by (apply list_elem_of_lookup; eexists; exact Hq).
    destruct (JS.truthy _) eqn:Etr; simpl in Hstep.
    2:{ simplify_eq. rewrite Efin. split; simpl; rewrite ?Efin; done. }
    assert (Hupto : ∀ i, i < currentQuestionIndex (state w) + 1 →
              answeredAt quiz (answers (state w)) i).
    { intros i Hlt. destruct (decide (i = currentQuestionIndex (state w))) as [->|Hne].
      - by exists q.
      - apply Hb. lia. }
    unfold handleNext in Hstep.
    destruct (isLastQuestion quiz (state w)) eqn:Elast; simplify_eq/=.
    + apply isLastQuestion_true in Elast.
      split; simpl; try done. intros _ i Hlt. apply Hupto. lia.
    + rewrite Efin. split; simpl; rewrite ?Efin; done.
  - (* Previous *)
    destruct (mounted w); simplify_eq; [|done].
    unfold goPrevious, handlePrevious.
    destruct (isFinished (state w)) eqn:Efin.
    { split; simpl; rewrite ?Efin; done. }
    destruct (_ =? 0); [split; simpl; rewrite ?Efin; done|].
    destruct (0 <? _); split; simpl; rewrite ?Efin; try done.
    intros i Hlt. apply Hb. lia.
  - (* Exit *)
    simplify_eq. by split.
  - (* Elapse *)
    simplify_eq. unfold runDue. simpl. apply foldl_fire_Answered.
    + split; simpl; try done. intros t Ht'%list_elem_of_filter. apply Ht, Ht'.
    + intros t Ht'%list_elem_of_filter. simpl.
      destruct (Ht t (proj2 Ht')) as (q & Hq & _ & Htr). by exists q.
Qed.

Lemma Answered_start : Answered quiz start.
Proof.
  split; simpl.
  - intros i Hi. lia.
  - intros t Ht. by apply elem_of_nil in Ht.
  - done.
Qed.

Lemma run_Answered (es : list Event) (w w' : World) :
  Safe quiz w → Answered quiz w → allOffered quiz w es →
  run quiz w es = Some w' → Answered quiz w' ∧ Safe quiz w'.
Proof using Hids Hopts Hplain.
  revert w. induction es as [|e es IH]; intros w Hs Ha Hoff Hrun; simpl in *.
  - by simplify_eq.
  - destruct Hoff as [He Hrest].
    destruct (step quiz w e) as [w1|] eqn:Hstep; [|done]. simpl in Hrun.
    apply (IH w1); try done.
    + by eapply step_Safe.
    + by eapply step_Answered.
Qed.

End SessionAnswered.

Section SessionTheorems.
Import QuizView EventLoop Session.

Lemma fire_finished (quiz : Quiz) (w : World) (t : Task) :
  Safe quiz w → isFinished (state w) = true →
  captured t + 1 < length (Quiz.questions quiz) →
  state (fire w t) = state w ∧ completed (fire w t) = completed w.
Proof.
  intros [Hi Ht Hf Hfin] Efin Hc. rewrite Efin in Hfin. destruct Hfin as [Hlast _].
  unfold fire. destruct (mounted w); [|done]. simpl. split; [|done].
  unfold autoAdvance. rewrite (proj2 (Nat.eqb_neq _ _)) by lia.
  destruct (state w); simpl in *. by subst.
Qed.

Lemma foldl_fire_finished (quiz : Quiz) (ready : list Task) (w : World) :
  Safe quiz w → isFinished (state w) = true →
  (∀ t, t ∈ ready → captured t + 1 < length (Quiz.questions quiz)) →
  state (foldl fire w ready) = state w
  ∧ completed (foldl fire w ready) = completed w.
Proof.
  revert w. induction ready as [|t ready IH]; intros w Hw Efin Hr; simpl; [done|].
  assert (Hc : captured t + 1 < length (Quiz.questions quiz)) by (apply Hr; by left).
  destruct (fire_finished quiz w t Hw Efin Hc) as [Hs Hcm].
  destruct (IH (fire w t)) as [Hs' Hcm'].
  - by apply fire_Safe.
  - by rewrite Hs.
  - intros t' Ht'. apply Hr. by right.
  - split; congruence.
Qed.

Lemma step_finished (quiz : Quiz) (w w' : World) (e : Event) :
  Safe quiz w → isFinished (state w) = true → step quiz w e = Some w' →
  state w' = state w ∧ completed w' = completed w.
Proof.
  intros Hw Efin Hstep. pose proof Hw as [Hi Ht Hf Hfin].
  destruct e as [value| | | |dt]; simpl in Hstep.
  - destruct (mounted w); [|by simplify_eq].
    unfold handleAnswer in Hstep. rewrite Efin, orb_true_r in Hstep.
    simpl in Hstep. by simplify_eq.
  - destruct (mounted w); [|by simplify_eq].
    unfold goNext in Hstep. rewrite Efin in Hstep. simpl in Hstep. by simplify_eq.
  - destruct (mounted w); simplify_eq; [|done].
    unfold goPrevious. by rewrite Efin.
  - by simplify_eq.
  - simplify_eq. unfold runDue. simpl.
    match goal with
    | |- state (foldl fire ?w0 ?ready) = _ ∧ _ =>
        destruct (foldl_fire_finished quiz ready w0) as [Hs Hc]
    end.
    + split; simpl; try done. intros t Ht'%list_elem_of_filter. apply Ht, Ht'.
    + done.
    + intros t Ht'%list_elem_of_filter. apply Ht, Ht'.
    + by split.
Qed.

(** X1.  A session on a quiz with at least one question never leaves
    the question sequence: whatever events arrive (answers, Next,
    Previous, Exit, elapsed time), every handler finds a current
    question, the index stays below [quiz.questions.length] and
    [showFeedback] is never set.  When no question id names a member of
    [Object.prototype], nothing raises at all: the component stays
    mounted until Exit. *)
Theorem session_stays_in_range (quiz : Quiz) (es : list Event) :
  Quiz.questions quiz ≠ [] →
  ∃ w, run quiz start es = Some w
       ∧ currentQuestionIndex (state w) < length (Quiz.questions quiz)
       ∧ is_Some (currentQuestion quiz (state w))
       ∧ showFeedback (state w) = false
       ∧ (plainIds quiz → Exit ∉ es → mounted w = true).
Proof.
  intros Hne. destruct (run_Safe quiz es start (Safe_start quiz Hne))
    as (w & Hrun & [Hi Ht Hf Hfin]).
  exists w. split; [done|]. split; [done|].
  split; [by apply lookup_lt_is_Some_2|]. split; [done|].
  intros Hplain Hex. by apply (run_mounted quiz es start w).
Qed.

(** X2.  A session calls [onComplete] at most once.  While it is not
    finished no attempt has been emitted.  Once it is finished it
    stands on the last question, and either the scoring loop returns a
    score, and exactly one attempt has been emitted, which carries the
    answers of the state, [isSubmitted] and that score, a number not
    above the number of questions; or the scoring loop raises, no
    attempt has been emitted and the component is unmounted.  The loop
    returns a score when no question id names a member of
    [Object.prototype]. *)
Theorem session_emits_one_attempt (quiz : Quiz) (es : list Event) (w : World) :
  Quiz.questions quiz ≠ [] →
  run quiz start es = Some w →
  if isFinished (state w)
  then currentQuestionIndex (state w) + 1 = length (Quiz.questions quiz)
       ∧ match getScore quiz (state w) with
         | Some score =>
             completed w = [QuizAttempt.mk (answers (state w)) true score]
             ∧ score ≤ length (Quiz.questions quiz)
         | None => completed w = [] ∧ mounted w = false
         end
       ∧ (plainIds quiz → is_Some (getScore quiz (state w)))
  else completed w = [].
Proof.
  intros Hne Hrun. destruct (run_Safe quiz es start (Safe_start quiz Hne))
    as (w' & Hrun' & [Hi Ht Hf Hfin]).
  rewrite Hrun in Hrun'. injection Hrun' as <-.
  destruct (isFinished (state w)); [|done].
  destruct Hfin as (Hlast & Hcomp & Hmnt). split; [done|]. split.
  - destruct (getScore quiz (state w)) as [score|] eqn:E.
    + split; [done|]. by apply scoreLoop_le in E.
    + split; [done|]. by apply Hmnt.
  - intros Hplain. apply scoreLoop_is_Some. by apply plainIds_scorable.
Qed.

(** X3.  A finished session is terminal: no later event (answers, Next,
    Previous, Exit, or the auto-advance tasks that are still queued)
    changes the state of the component or emits another attempt, and no
    handler raises. *)
Theorem finished_is_terminal (quiz : Quiz) (es es' : list Event) (w : World) :
  Quiz.questions quiz ≠ [] →
  run quiz start es = Some w →
  isFinished (state w) = true →
  ∃ w', run quiz w es' = Some w'
        ∧ state w' = state w ∧ completed w' = completed w.
Proof.
  intros Hne Hrun Efin.
  destruct (run_Safe quiz es start (Safe_start quiz Hne)) as (w0 & Hrun0 & Hw).
  rewrite Hrun in Hrun0. injection Hrun0 as <-. clear Hrun.
  revert w Hw Efin. induction es' as [|e es' IH]; intros w Hw Efin; simpl.
  - by exists w.
  - destruct (step_total quiz w e Hw) as [w1 Hstep]. rewrite Hstep. simpl.
    destruct (step_finished quiz w w1 e Hw Efin Hstep) as [Hs Hc].
    destruct (IH w1) as (w' & Hrun' & Hs' & Hc').
    + by eapply step_Safe.
    + by rewrite Hs.
    + exists w'. split; [done|]. split; congruence.
Qed.

Lemma run_all_answered (quiz : Quiz) (es : list Event) (w : World) :
  Quiz.questions quiz ≠ [] →
  NoDup (Question.id <$> Quiz.questions quiz) →
  optionsNonEmpty quiz →
  plainIds quiz →
  allOffered quiz start es →
  run quiz start es = Some w →
  isFinished (state w) = true →
  ∀ q, q ∈ Quiz.questions quiz →
    ∃ a, answers (state w) !! Question.id q = Some a ∧ a ≠ "".
Proof.
  intros Hne Hids Hopts Hplain Hoff Hrun Efin q Hq.
  destruct (run_Answered quiz Hids Hopts Hplain es start w) as [[_ _ Hall] _];
    try done.
  { by apply Safe_start. }
  { apply Answered_start. }
  apply list_elem_of_lookup in Hq as [i Hi].
  destruct (Hall Efin i) as (q' & Hq' & Htr).
  { by eapply lookup_lt_Some. }
  assert (q' = q) as -> by congruence.
  destruct (answers (state w) !! Question.id q) as [a|]; [|done].
  exists a. split; [done|]. intros ->. done.
Qed.

(** X4.  No question can be skipped.  On a quiz with distinct question
    ids, none of which names a member of [Object.prototype], and no
    empty option, a session driven through the in-progress view (every
    answer is one of the options of a MULTIPLE_CHOICE question, True or
    False for a TRUE_FALSE question, any text for a SHORT_ANSWER
    question) that is finished has recorded a non-empty answer for
    every question: neither the disabled Next/Finish button nor the
    auto-advance lets an unanswered question through. *)
Theorem finished_session_all_answered (quiz : Quiz) (es : list Event) (w : World) :
  Quiz.questions quiz ≠ [] →
  NoDup (Question.id <$> Quiz.questions quiz) →
  optionsNonEmpty quiz →
  plainIds quiz →
  allOffered quiz start es →
  run quiz start es = Some w →
  isFinished (state w) = true →
  ∀ q, q ∈ Quiz.questions quiz →
    ∃ a, answers (state w) !! Question.id q = Some a ∧ a ≠ "".
Proof. apply run_all_answered. Qed.

Lemma reviewRow_answered (s : State) (q : Question) (a : string) :
  answers s !! Question.id q = Some a → a ≠ "" →
  ∃ verdict,
    answerMatches (answers s) q = Some verdict
    ∧ reviewRow s q
      = Some (mkReviewRow verdict a (Question.correctAnswer q)
                (if verdict then None else Some (Question.explanation q))).
Proof.
  intros Ha Hne. unfold reviewRow, answerMatches. rewrite (get_own _ _ a Ha).
  eexists. split. { reflexivity. }
  by rewrite (bool_decide_eq_false_2 (a = "")).
Qed.

(** The rows of the review, one per question, and the count of the rows
    judged correct, when every row agrees with the scoring loop. *)
Lemma review_rows (s : State) (qs : list Question) :
  (∀ q, q ∈ qs →
     ∃ row, reviewRow s q = Some row
            ∧ answerMatches (answers s) q = Some (rowIsCorrect row)) →
  ∃ rows, mapM (reviewRow s) qs = Some rows
          ∧ length (filter (λ r, rowIsCorrect r = true) rows)
            = length (correctQuestions (answers s) qs).
Proof.
  induction qs as [|q qs IH]; intros Hrows.
  - by exists [].
  - destruct (Hrows q ltac:(by left)) as (row & Hrow & Hm).
    destruct IH as (rows & Hmap & Hlen).
    { intros q' Hq'. apply Hrows. by right. }
    exists (row :: rows). split.
    + rewrite mapM_Some. constructor; [done|]. by apply mapM_Some.
    + unfold correctQuestions in *. rewrite !filter_cons, Hm.
      destruct (rowIsCorrect row).
      * rewrite !decide_True by done. simpl. by rewrite Hlen.
      * rewrite !decide_False by (by intros [=]). done.
Qed.

(** X5.  In a session finished through the in-progress view (as in X4)
    the review agrees with the scoring on every question: the verdict of
    the row is the verdict of the scoring loop, the answer shown is the
    recorded answer and not the placeholder, the explanation is shown
    exactly when the answer is wrong, and the number of rows judged
    correct is the displayed score. *)
Theorem finished_session_review (quiz : Quiz) (es : list Event) (w : World) :
  Quiz.questions quiz ≠ [] →
  NoDup (Question.id <$> Quiz.questions quiz) →
  optionsNonEmpty quiz →
  plainIds quiz →
  allOffered quiz start es →
  run quiz start es = Some w →
  isFinished (state w) = true →
  (∀ q, q ∈ Quiz.questions quiz →
     ∃ row, reviewRow (state w) q = Some row
       ∧ answerMatches (answers (state w)) q = Some (rowIsCorrect row)
       ∧ answers (state w) !! Question.id q = Some (rowUserAnswer row)
       ∧ (rowExplanation row = None ↔ rowIsCorrect row = true))
  ∧ ∃ rows score,
      review quiz (state w) = Some rows
      ∧ getScore quiz (state w) = Some score
      ∧ length (filter (λ r, rowIsCorrect r = true) rows) = score.
Proof.
  intros Hne Hids Hopts Hplain Hoff Hrun Efin.
  pose proof (run_all_answered quiz es w Hne Hids Hopts Hplain Hoff Hrun Efin)
    as Hall.
  assert (Hrows : ∀ q, q ∈ Quiz.questions quiz →
            ∃ row, reviewRow (state w) q = Some row
              ∧ answerMatches (answers (state w)) q = Some (rowIsCorrect row)
              ∧ answers (state w) !! Question.id q = Some (rowUserAnswer row)
              ∧ (rowExplanation row = None ↔ rowIsCorrect row = true)).
  { intros q Hq. destruct (Hall q Hq) as (a & Ha & Hne').
    destruct (reviewRow_answered (state w) q a Ha Hne') as (verdict & Hv & ->).
    eexists. split; [reflexivity|]. simpl. split; [done|]. split; [done|].
    by destruct verdict. }
  split; [exact Hrows|].
  destruct (review_rows (state w) (Quiz.questions quiz)) as (rows & Hmap & Hlen).
  { intros q Hq. destruct (Hrows q Hq) as (row & Hrow & Hm & _). by exists row. }
  exists rows, (length (correctQuestions (answers (state w)) (Quiz.questions quiz))).
  split; [done|]. split; [|done].
  unfold getScore. apply scoreLoop_count. by apply plainIds_scorable.
Qed.

End SessionTheorems.

Section SessionWitnesses.
Import QuizView EventLoop Session.

Lemma Sample_quiz_nonempty : Quiz.questions Sample.quiz ≠ [].
Proof. discriminate. Defined.

Lemma Sample_quiz_ids : NoDup (Question.id <$> Quiz.questions Sample.quiz).
Proof. apply (bool_decide_unpack _). vm_compute. reflexivity. Defined.

Lemma Sample_quiz_options : optionsNonEmpty Sample.quiz.
Proof.
  intros q Hq Hty.
  apply elem_of_cons in Hq as [->|Hq]; [apply (bool_decide_unpack _); vm_compute; reflexivity|].
  apply elem_of_cons in Hq as [->|Hq]; [discriminate Hty|].
  apply elem_of_cons in Hq as [->|Hq]; [discriminate Hty|].
  by apply elem_of_nil in Hq.
Defined.

Lemma allOffered_cons (quiz : Quiz) (w w' : World) (e : Event) (es : list Event) :
  offered quiz w e → step quiz w e = Some w' → allOffered quiz w' es →
  allOffered quiz w (e :: es).
Proof. intros He Hstep Hes. simpl. by rewrite Hstep. Defined.

Local Ltac offered_step :=
  eapply allOffered_cons;
  [ try exact I;
    let q := fresh "q" in let Hq := fresh "Hq" in
    intros q Hq; vm_compute in Hq; injection Hq as <-;
    unfold offers; simpl;
    try exact I; apply (bool_decide_unpack _); vm_compute; reflexivity
  | vm_compute; reflexivity
  | ].

Lemma Sample_straightThrough_offered :
  allOffered Sample.quiz start Sample.straightThrough.
Proof. unfold Sample.straightThrough. repeat offered_step. exact I. Defined.

Lemma Sample_quiz_plain : plainIds Sample.quiz.
Proof. apply (bool_decide_unpack _). vm_compute. reflexivity. Defined.

Lemma session_stays_in_range_witness :
  ∃ w, run Sample.quiz start Sample.backAndForth = Some w
       ∧ currentQuestionIndex (state w) < 3
       ∧ is_Some (currentQuestion Sample.quiz (state w))
       ∧ showFeedback (state w) = false
       ∧ (plainIds Sample.quiz → Exit ∉ Sample.backAndForth → mounted w = true).
Proof.
  exact (session_stays_in_range Sample.quiz Sample.backAndForth Sample_quiz_nonempty).
Defined.

Lemma session_emits_one_attempt_witness :
  ∃ w, run Sample.quiz start Sample.straightThrough = Some w
       ∧ isFinished (state w) = true
       ∧ completed w = [QuizAttempt.mk (answers (state w)) true 3].
Proof.
  eexists. split; [vm_compute; reflexivity|]. split; [reflexivity|].
  match goal with
  | |- completed ?w = _ =>
      pose proof (session_emits_one_attempt Sample.quiz Sample.straightThrough w
                    Sample_quiz_nonempty ltac:(vm_compute; reflexivity)) as H
  end.
  vm_compute in H. destruct H as (_ & [H _] & _). exact H.
Defined.

Lemma finished_is_terminal_witness :
  ∃ w w', run Sample.quiz start Sample.straightThrough = Some w
          ∧ run Sample.quiz w [Previous; Answer "London"; Next; Elapse 1000] = Some w'
          ∧ state w' = state w ∧ completed w' = completed w.
Proof.
  eexists. 
  match goal with
  | |- ∃ w', run _ _ _ = Some ?w ∧ _ =>
      assert (Hrun : run Sample.quiz start Sample.straightThrough = Some w)
        by (vm_compute; reflexivity);
      destruct (finished_is_terminal Sample.quiz Sample.straightThrough
                  [Previous; Answer "London"; Next; Elapse 1000] w
                  Sample_quiz_nonempty Hrun eq_refl) as (w' & H1 & H2 & H3)
  end.
  exists w'. auto.
Defined.

Lemma finished_session_all_answered_witness :
  ∃ w, run Sample.quiz start Sample.straightThrough = Some w
       ∧ ∀ q, q ∈ Quiz.questions Sample.quiz →
           ∃ a, answers (state w) !! Question.id q = Some a ∧ a ≠ "".
Proof.
  eexists. split; [vm_compute; reflexivity|].
  apply (finished_session_all_answered Sample.quiz Sample.straightThrough);
    [ exact Sample_quiz_nonempty | exact Sample_quiz_ids | exact Sample_quiz_options
    | exact Sample_quiz_plain
    | exact Sample_straightThrough_offered | vm_compute; reflexivity | reflexivity ].
Defined.

Lemma finished_session_review_witness :
  ∃ w rows score,
    run Sample.quiz start Sample.straightThrough = Some w
    ∧ review Sample.quiz (state w) = Some rows
    ∧ getScore Sample.quiz (state w) = Some score
    ∧ length (filter (λ r, rowIsCorrect r = true) rows) = score.
Proof.
  eexists.
  match goal with
  | |- ∃ rows score, run _ _ _ = Some ?w ∧ _ =>
      assert (Hrun : run Sample.quiz start Sample.straightThrough = Some w)
        by (vm_compute; reflexivity);
      destruct (finished_session_review Sample.quiz Sample.straightThrough w
                  Sample_quiz_nonempty Sample_quiz_ids Sample_quiz_options
                  Sample_quiz_plain Sample_straightThrough_offered Hrun eq_refl)
        as (_ & rows & score & H1 & H2 & H3)
  end.
  exists rows, score. auto.
Defined.

(** The session that X1, X2 and X4 leave out: the second question has
    the id "constructor"; with no answer recorded for it the Finish
    button is enabled, the scoring loop of [finishQuiz] raises after
    [isFinished] has been set, no attempt is emitted and the result page
    cannot be rendered. *)
Example skipped_question_raises :
  ∃ w, run Sample.objectsQuiz start Sample.skipped = Some w
       ∧ answers (state w) !! "constructor" = None
       ∧ isFinished (state w) = true
       ∧ getScore Sample.objectsQuiz (state w) = None
       ∧ review Sample.objectsQuiz (state w) = None
       ∧ completed w = []
       ∧ mounted w = false.
Proof. eexists. split; [vm_compute; reflexivity|]. repeat split. Qed.

End SessionWitnesses.

(** ** Scoring: what an answer can change *)

Section ScoringExtras.
Import QuizView.

Lemma correctQuestions_ext (ans ans' : gmap string string) (qs : list Question) :
  (∀ q, q ∈ qs → answerMatches ans q = answerMatches ans' q) →
  correctQuestions ans qs = correctQuestions ans' qs.
Proof.
  intros Hext. unfold correctQuestions.
  induction qs as [|q qs IH]; [done|].
  assert (Hrest : filter (λ q0, answerMatches ans q0 = Some true) qs
                  = filter (λ q0, answerMatches ans' q0 = Some true) qs)
    by (apply IH; intros q' Hq'; apply Hext; by right).
  pose proof (Hext q ltac:(by left)) as Hq.
  destruct (decide (answerMatches ans q = Some true)) as [E|E].
  - rewrite !filter_cons_True by congruence. by rewrite Hrest.
  - rewrite !filter_cons_False by congruence. done.
Qed.

Lemma scoreFrom_ext (ans ans' : gmap string string) (qs : list Question) (n : nat) :
  (∀ q, q ∈ qs → answerMatches ans q = answerMatches ans' q) →
  scoreFrom ans qs n = scoreFrom ans' qs n.
Proof.
  revert n. induction qs as [|q qs IH]; intros n Hext; simpl; [done|].
  rewrite (Hext q) by (by left).
  destruct (answerMatches ans' q) as [b|]; simpl; [|done].
  apply IH. intros q' Hq'. apply Hext. by right.
Qed.

Lemma scoreLoop_ext (ans ans' : gmap string string) (qs : list Question) :
  (∀ q, q ∈ qs → answerMatches ans q = answerMatches ans' q) →
  scoreLoop ans qs = scoreLoop ans' qs.
Proof. apply scoreFrom_ext. Qed.

Lemma answerMatches_insert_ne (ans : gmap string string) (k value : string)
    (q : Question) :
  Question.id q ≠ k →
  answerMatches (<[k := value]> ans) q = answerMatches ans q.
Proof. intros Hne. unfold answerMatches, JS.get. by rewrite lookup_insert_ne. Qed.

(** X6.  Scoring ignores the case of an answer and the white space
    around it: recording an ASCII answer in upper case, with white space
    before and after it, gives every question the verdict and the quiz
    the score that recording the answer itself gives. *)
Theorem score_ignores_case_and_padding (ans : gmap string string)
    (qs : list Question) (k a p1 p2 : string) :
  Text.ascii7 a = true → Text.blank p1 = true → Text.blank p2 = true →
  (∀ q, answerMatches (<[k := p1 +:+ JS.toUpperCase a +:+ p2]> ans) q
        = answerMatches (<[k := a]> ans) q)
  ∧ scoreLoop (<[k := p1 +:+ JS.toUpperCase a +:+ p2]> ans) qs
    = scoreLoop (<[k := a]> ans) qs.
Proof.
  intros Ha H1 H2.
  assert (Hq : ∀ q, answerMatches (<[k := p1 +:+ JS.toUpperCase a +:+ p2]> ans) q
                    = answerMatches (<[k := a]> ans) q).
  { intros q. destruct (decide (Question.id q = k)) as [<-|Hne].
    - unfold answerMatches, JS.get. rewrite !lookup_insert_eq.
      by rewrite normalise_padded_upper.
    - by rewrite !answerMatches_insert_ne. }
  split; [exact Hq|]. apply scoreLoop_ext. intros q _. apply Hq.
Qed.

Lemma score_ignores_case_and_padding_witness :
  scoreLoop (<["q3" := "  " +:+ JS.toUpperCase "paris" +:+ " "]> (answers Sample.allRight))
            (Quiz.questions Sample.quiz)
  = scoreLoop (<["q3" := "paris"]> (answers Sample.allRight))
              (Quiz.questions Sample.quiz).
Proof.
  apply (score_ignores_case_and_padding (answers Sample.allRight)
           (Quiz.questions Sample.quiz) "q3" "paris" "  " " "); reflexivity.
Defined.

Lemma correctQuestions_one_id (ans ans' : gmap string string) (k : string)
    (qs : list Question) :
  NoDup (Question.id <$> qs) →
  (∀ q, Question.id q ≠ k → answerMatches ans' q = answerMatches ans q) →
  length (correctQuestions ans' qs) ≤ length (correctQuestions ans qs) + 1
  ∧ length (correctQuestions ans qs) ≤ length (correctQuestions ans' qs) + 1.
Proof.
  intros Hnd Hother. unfold correctQuestions.
  induction qs as [|q qs IH]; [simpl; lia|].
  rewrite fmap_cons in Hnd. apply NoDup_cons in Hnd as [Hnotin Hnd].
  rewrite !filter_cons.
  destruct (decide (Question.id q = k)) as [Hk|Hk].
  - assert (Hrest : filter (λ q0, answerMatches ans' q0 = Some true) qs
                    = filter (λ q0, answerMatches ans q0 = Some true) qs).
    { apply (correctQuestions_ext ans' ans). intros q' Hq'.
      apply Hother. intros Heq. apply Hnotin.
      rewrite Hk, <- Heq. by apply list_elem_of_fmap_2. }
    rewrite Hrest. repeat case_decide; simpl; lia.
  - rewrite (Hother q Hk). specialize (IH Hnd).
    case_decide; simpl; lia.
Qed.

(** Recording an answer does not make the scoring loop raise. *)
Lemma scorable_insert (ans : gmap string string) (k value : string)
    (qs : list Question) :
  scorable ans qs → scorable (<[k := value]> ans) qs.
Proof.
  unfold scorable. intros H. eapply Forall_impl; [exact H|].
  intros q Hq Hnone. simpl in *.
  apply lookup_insert_None in Hnone as [Hnone _]. by apply Hq.
Qed.

(** X7.  On a quiz with distinct question ids, [handleAnswer] touches the
    current question only: every other question keeps its recorded entry
    and its verdict, the score moves by at most one in either direction
    (when the scoring loop returns a score before the answer, it
    returns one after it), and the index is unchanged. *)
Theorem handleAnswer_touches_one_verdict (quiz : Quiz) (s s' : State)
    (value : string) (timeout : option Timeout) (q : Question) :
  NoDup (Question.id <$> Quiz.questions quiz) →
  currentQuestion quiz s = Some q →
  handleAnswer quiz s value = Some (s', timeout) →
  (∀ i q', Quiz.questions quiz !! i = Some q' → i ≠ currentQuestionIndex s →
     answers s' !! Question.id q' = answers s !! Question.id q'
     ∧ answerMatches (answers s') q' = answerMatches (answers s) q')
  ∧ (∀ score, getScore quiz s = Some score →
       ∃ score', getScore quiz s' = Some score'
                 ∧ score' ≤ score + 1 ∧ score ≤ score' + 1)
  ∧ currentQuestionIndex s' = currentQuestionIndex s.
Proof.
  intros Hnd Hq Hans. unfold handleAnswer in Hans. rewrite Hq in Hans.
  assert (Hcases : s' = s ∨ s' = mkState (currentQuestionIndex s)
                      (<[Question.id q := value]> (answers s))
                      (showFeedback s) (isFinished s)).
  { destruct (_ || _); simpl in Hans; [left; congruence|right].
    destruct (_ && _); congruence. }
  destruct Hcases as [->| ->].
  { split; [done|]. split; [|done]. intros score Hs. exists score. split; [done|lia]. }
  simpl. split; [|split; [|done]].
  - intros i q' Hq' Hne.
    assert (Question.id q' ≠ Question.id q) as Hid.
    { intros Heq. apply Hne. unfold currentQuestion in Hq.
      eapply (NoDup_lookup _ i (currentQuestionIndex s) (Question.id q')); [exact Hnd| |].
      - by rewrite list_lookup_fmap, Hq'.
      - by rewrite list_lookup_fmap, Hq, Heq. }
    rewrite lookup_insert_ne by done. split; [done|].
    by apply answerMatches_insert_ne.
  - intros score [Hs ->]%scoreLoop_Some. unfold getScore. simpl.
    rewrite scoreLoop_count by (by apply scorable_insert).
    eexists. split; [reflexivity|].
    apply (correctQuestions_one_id (answers s) _ (Question.id q)); [done|].
    intros q' Hid. by apply answerMatches_insert_ne.
Qed.

Lemma handleAnswer_touches_one_verdict_witness :
  ∃ score',
    getScore Sample.quiz
      (mkState 2 (<["q3" := "Lyon"]> (answers Sample.allRight)) false false)
    = Some score'
    ∧ score' ≤ 3 + 1 ∧ 3 ≤ score' + 1.
Proof.
  destruct (handleAnswer_touches_one_verdict Sample.quiz Sample.allRight
              (mkState 2 (<["q3" := "Lyon"]> (answers Sample.allRight)) false false)
              "Lyon" None Sample.q3)
    as (_ & H & _).
  - apply (bool_decide_unpack _). vm_compute. reflexivity.
  - reflexivity.
  - reflexivity.
  - apply (H 3). vm_compute. reflexivity.
Defined.

End ScoringExtras.

(** ** Extraction: results in closed form *)

Section PdfText.
Import FileParser Extracted.
Context (getDocument : string → option PdfDocument).

Lemma pageLoop_all (texts : list (list string)) (i : nat) (acc : string) :
  pageLoop i (Some <$> texts) acc = ([], Resolved (acc +:+ pdfText i texts)).
Proof.
  revert i acc. induction texts as [|items texts IH]; intros i acc; simpl.
  - by rewrite append_nil_r.
  - rewrite IH. unfold pageBlock. by rewrite (append_assoc acc).
Qed.

Lemma pageLoop_resolved (ps : list (option (list string))) (i : nat)
    (acc t : string) (log : list Effect) :
  pageLoop i ps acc = (log, Resolved t) →
  ∃ texts, ps = Some <$> texts.
Proof.
  revert i acc. induction ps as [|[items|] ps IH]; intros i acc H; simpl in H.
  - by exists [].
  - apply IH in H as [texts ->]. by exists (items :: texts).
  - done.
Qed.

Lemma trim_starts_visible (c : ascii) (s : string) :
  JS.isWhiteSpace c = false → JS.trim (String c s) ≠ "".
Proof.
  intros Hc Ht. apply trim_nil_blank in Ht. simpl in Ht. by rewrite Hc in Ht.
Qed.

Lemma pdfText_visible (i : nat) (texts : list (list string)) :
  texts ≠ [] → JS.trim (pdfText i texts) ≠ "".
Proof.
  destruct texts as [|items rest]; [done|]. intros _. simpl. unfold pageBlock.
  rewrite !append_assoc. apply trim_starts_visible. reflexivity.
Qed.

(** X8.  [parsePdf] is all or nothing.  It resolves exactly when the file
    was read, the document decoded, the text of every page extracted and
    there is at least one page; the text is then the concatenation of
    the page blocks (page marker numbered from 1, the items joined by
    spaces, two line feeds), not trimmed.  In every other case it
    rejects. *)
Theorem parsePdf_all_or_nothing (file : File) (t : string) :
  (parsePdf getDocument file).2 = Resolved t ↔
  ∃ data pdf texts,
    contents file = Some data ∧ getDocument data = Some pdf
    ∧ pages pdf = Some <$> texts ∧ texts ≠ [] ∧ t = pdfText 1 texts.
Proof.
  unfold parsePdf, readFile. split.
  - destruct (contents file) as [data|] eqn:Hc; simpl; [|done].
    destruct (getDocument data) as [pdf|] eqn:Hd; simpl; [|done].
    destruct (pageLoop 1 (pages pdf) "") as [log [full|m]] eqn:Hloop; simpl; [|done].
    destruct (pageLoop_resolved _ _ _ _ _ Hloop) as [texts Hp].
    rewrite Hp, pageLoop_all in Hloop. injection Hloop as <- <-.
    rewrite append_nil_l.
    destruct (decide (texts = [])) as [->|Hne]; [done|].
    destruct (String.length (JS.trim (pdfText 1 texts)) =? 0) eqn:E; simpl; [done|].
    intros [= <-]. by exists data, pdf, texts.
  - intros (data & pdf & texts & -> & Hd & Hp & Hne & ->). simpl.
    rewrite Hd. simpl. rewrite Hp, pageLoop_all. simpl.
    rewrite append_nil_l, length_zero.
    by rewrite bool_decide_eq_false_2 by (by apply pdfText_visible).
Qed.

End PdfText.

Lemma parsePdf_all_or_nothing_witness :
  (FileParser.parsePdf Sample.getDocument Sample.textPdf).2
  = FileParser.Resolved
      (Extracted.pdfText 1 [["Hello"; "world"]; ["Bye"]]).
Proof.
  apply (parsePdf_all_or_nothing Sample.getDocument Sample.textPdf).
  exists "%PDF-text", (FileParser.mkPdf [Some ["Hello"; "world"]; Some ["Bye"]]),
         [["Hello"; "world"]; ["Bye"]].
  repeat split; try reflexivity. discriminate.
Defined.

Section ImageUrl.
Import FileParser Extracted.

Lemma occurs_append (c : ascii) (s t : string) :
  Text.occurs c (s +:+ t) = Text.occurs c s || Text.occurs c t.
Proof.
  induction s as [|c' s IH]; [done|]. rewrite ?append_cons. simpl.
  by rewrite IH, orb_assoc.
Qed.

Lemma split_go_plain (cur s : string) :
  Text.occurs "," s = false → split_go cur s = [String.rev cur +:+ s].
Proof.
  revert cur. induction s as [|c s IH]; intros cur Hs; simpl.
  - by rewrite append_nil_r.
  - simpl in Hs. apply orb_false_iff in Hs as [Hc Hs].
    rewrite Hc. rewrite IH by done. rewrite rev_cons, append_assoc. done.
Qed.

Lemma split_go_comma (cur s t : string) :
  Text.occurs "," s = false →
  split_go cur (s +:+ String "," t) = (String.rev cur +:+ s) :: split_go "" t.
Proof.
  revert cur. induction s as [|c s IH]; intros cur Hs.
  - rewrite append_nil_l, append_nil_r. simpl. done.
  - simpl in Hs. apply orb_false_iff in Hs as [Hc Hs].
    rewrite append_cons. simpl. rewrite Hc. rewrite IH by done.
    by rewrite rev_cons, append_assoc.
Qed.

Lemma untilSemicolon_found (m rest : string) :
  Text.occurs ";" m = false →
  Text.occurs (ascii_of_nat 10) m = false →
  Text.occurs (ascii_of_nat 13) m = false →
  untilSemicolon (m +:+ String ";" rest) = Some m.
Proof.
  induction m as [|c m IH]; intros Hs Hl Hr.
  - rewrite append_nil_l. reflexivity.
  - simpl in Hs, Hl, Hr.
    apply orb_false_iff in Hs as [Hs1 Hs2].
    apply orb_false_iff in Hl as [Hl1 Hl2].
    apply orb_false_iff in Hr as [Hr1 Hr2].
    rewrite append_cons. simpl. rewrite Hs1, Hl1, Hr1. simpl.
    by rewrite IH.
Qed.

(** X9.  For a file whose data URL is [data:<mime>;base64,<payload>],
    with no comma, semicolon or line break in the MIME type and no comma
    in the payload, [parseImage] reads the file once and resolves with
    the payload as data and [<mime>] as MIME type, or with [file.type]
    when [<mime>] is empty. *)
Theorem parseImage_data_url (file : File) (mimeType payload : string) :
  contents file = Some (dataUrl mimeType payload) →
  Text.occurs "," mimeType = false →
  Text.occurs ";" mimeType = false →
  Text.occurs (ascii_of_nat 10) mimeType = false →
  Text.occurs (ascii_of_nat 13) mimeType = false →
  Text.occurs "," payload = false →
  parseImage file
  = ([ReadFile (name file)],
     Resolved (image (Some payload)
                 (if bool_decide (mimeType = "") then type file else mimeType))).
Proof.
  intros Hc Hcomma Hsemi Hlf Hcr Hpay.
  unfold parseImage, readFile. rewrite Hc. simpl.
  assert (Hsplit : split (dataUrl mimeType payload)
                   = ["data:" +:+ mimeType +:+ ";base64"; payload]).
  { unfold split, dataUrl.
    replace ("data:" +:+ mimeType +:+ ";base64," +:+ payload)
      with (("data:" +:+ mimeType +:+ ";base64") +:+ String "," payload).
    2:{ rewrite !append_assoc. reflexivity. }
    rewrite split_go_comma.
    - rewrite split_go_plain by done. reflexivity.
    - rewrite !occurs_append, Hcomma. reflexivity. }
  rewrite Hsplit.
  change (["data:" +:+ mimeType +:+ ";base64"; payload] !! 0)
    with (Some ("data:" +:+ mimeType +:+ ";base64")).
  change (["data:" +:+ mimeType +:+ ";base64"; payload] !! 1)
    with (Some payload).
  cbv beta iota.
  assert (Hmime : matchMime ("data:" +:+ mimeType +:+ ";base64") = Some mimeType).
  { change ("data:" +:+ mimeType +:+ ";base64")
      with (String "d" (String "a" (String "t" (String "a"
              (String ":" (mimeType +:+ String ";" "base64")))))).
    simpl. by rewrite untilSemicolon_found. }
  rewrite Hmime. reflexivity.
Qed.

Lemma parseImage_data_url_witness :
  parseImage (mkFile "photo.png" "image/png"
                (Some (dataUrl "image/png" "iVBORw0KGgo=")))
  = ([ReadFile "photo.png"], Resolved (image (Some "iVBORw0KGgo=") "image/png")).
Proof.
  apply (parseImage_data_url
           (mkFile "photo.png" "image/png" (Some (dataUrl "image/png" "iVBORw0KGgo=")))
           "image/png" "iVBORw0KGgo="); reflexivity.
Defined.

End ImageUrl.

Section ParseFileFacts.
Import FileParser Extracted.
Context {Sheet : Type}.
Context (getDocument : string → option PdfDocument).
Context (XLSX_read : string → option (Workbook Sheet)).
Context (sheet_to_csv : option Sheet → option string).

Local Abbreviation parseFile' := (parseFile getDocument XLSX_read sheet_to_csv).
Local Abbreviation parseExcel' := (parseExcel XLSX_read sheet_to_csv).

Local Ltac in_list :=
  repeat first [apply list_elem_of_here | apply list_elem_of_further].

Lemma split_go_nonempty (cur s : string) : split_go cur s ≠ [].
Proof.
  revert cur. induction s as [|c s IH]; intros cur; simpl; [done|].
  by destruct (bool_decide _).
Qed.

Lemma parseImage_rejects_read (file : File) (m : string) :
  (parseImage file).2 = Rejected m → m = READ_FAILED.
Proof.
  unfold parseImage, readFile. destruct (contents file) as [data|]; simpl.
  - unfold split. pose proof (split_go_nonempty "" data) as Hne.
    destruct (split_go "" data) as [|metadata rest]; [done|]. simpl. done.
  - by intros [= <-].
Qed.

Lemma parsePdf_log (file : File) :
  (parsePdf getDocument file).1
  = match contents file with
    | Some _ => [ReadFile (name file); DecodePdf]
    | None => [ReadFile (name file)]
    end.
Proof.
  unfold parsePdf, readFile. destruct (contents file) as [data|]; simpl; [|done].
  destruct (getDocument data) as [pdf|]; simpl; [|done].
  assert (Hlog : ∀ ps i acc, (pageLoop i ps acc).1 = []).
  { induction ps as [|[items|] ps IH]; intros i acc; simpl; auto. }
  destruct (pageLoop 1 (pages pdf) "") as [log [full|m]] eqn:Hloop; simpl.
  - pose proof (Hlog (pages pdf) 1 "") as H. rewrite Hloop in H. simpl in H. subst.
    by destruct (_ =? 0).
  - pose proof (Hlog (pages pdf) 1 "") as H. rewrite Hloop in H. simpl in H. by subst.
Qed.

Lemma parseExcel_log (file : File) :
  (parseExcel' file).1
  = match contents file with
    | Some _ => [ReadFile (name file); DecodeWorkbook]
    | None => [ReadFile (name file)]
    end.
Proof.
  destruct (contents file) as [data|] eqn:Hc.
  - destruct (XLSX_read data) as [wb|] eqn:Hd.
    + by rewrite (parseExcel_decoded _ _ file data wb Hc Hd).
    + by rewrite (parseExcel_undecoded _ _ file data Hc Hd).
  - by rewrite (parseExcel_unread _ _ file Hc).
Qed.

Lemma parseImage_log (file : File) :
  (parseImage file).1 = [ReadFile (name file)].
Proof.
  unfold parseImage, readFile. destruct (contents file) as [data|]; simpl; [|done].
  by destruct (split data !! 0).
Qed.

Lemma bind_ret_log {A B} (c : Async A) (f : A → B) :
  (bind c (λ a, ret (f a))).1 = c.1.
Proof.
  destruct c as [log [a|m]]; simpl; [|done]. by rewrite app_nil_r.
Qed.

Lemma bind_ret_rejected {A B} (c : Async A) (f : A → B) (m : string) :
  (bind c (λ a, ret (f a))).2 = Rejected m ↔ c.2 = Rejected m.
Proof. destruct c as [log [a|m']]; simpl; split; congruence. Qed.

Lemma parseFile_unsupported_noBranch (file : File) :
  (parseFile' file).2 = Rejected UNSUPPORTED ↔ noBranch file = true.
Proof.
  unfold parseFile, noBranch.
  destruct (bool_decide (type file = "application/pdf")); simpl.
  { rewrite bind_ret_rejected. split; [|done].
    by intros H%parsePdf_rejects. }
  destruct (bool_decide (type file = _)); simpl.
  { rewrite bind_ret_rejected. split; [|done].
    intros H%parseExcel_rejects. by destruct H as [H|[H|H]]. }
  destruct (bool_decide (type file = _)); simpl.
  { rewrite bind_ret_rejected. split; [|done].
    intros H%parseExcel_rejects. by destruct H as [H|[H|H]]. }
  destruct (JS.endsWith (name file) ".xlsx"); simpl.
  { rewrite bind_ret_rejected. split; [|done].
    intros H%parseExcel_rejects. by destruct H as [H|[H|H]]. }
  destruct (JS.endsWith (name file) ".xls"); simpl.
  { rewrite bind_ret_rejected. split; [|done].
    intros H%parseExcel_rejects. by destruct H as [H|[H|H]]. }
  destruct (JS.startsWith (type file) "image/"); simpl; [|done].
  split; [|done]. by intros H%parseImage_rejects_read.
Qed.

Lemma parseFile_rejected_known (file : File) (m : string) :
  (parseFile' file).2 = Rejected m → m ∈ messages.
Proof.
  intros H. unfold parseFile in H. unfold messages.
  destruct (bool_decide (type file = "application/pdf")).
  { apply bind_ret_rejected, parsePdf_rejects in H as ->. in_list. }
  destruct (_ || _).
  { apply bind_ret_rejected, parseExcel_rejects in H as [->|[->| ->]]; in_list. }
  destruct (JS.startsWith _ _).
  { apply parseImage_rejects_read in H as ->. in_list. }
  simpl in H. injection H as <-. in_list.
Qed.

Lemma messages_nonempty (m : string) : m ∈ messages → m ≠ "".
Proof.
  unfold messages. intros Hm.
  repeat (apply elem_of_cons in Hm as [->|Hm]; [done|]).
  by apply elem_of_nil in Hm.
Qed.

(** X10.  Whenever [parseFile] rejects, the message is one of five: the
    unsupported-type message, the PDF failure message, the read failure
    message, the empty-spreadsheet message or the spreadsheet failure
    message; each of them words a kind of the error taxonomy. *)
Theorem parseFile_rejection_messages (file : File) (m : string) :
  (parseFile' file).2 = Rejected m →
  m ∈ messages ∧ is_Some (errorKind m).
Proof.
  intros H. pose proof (parseFile_rejected_known file m H) as Hm.
  split; [done|].
  unfold messages in Hm.
  repeat (apply elem_of_cons in Hm as [->|Hm]; [by eexists|]).
  by apply elem_of_nil in Hm.
Qed.

Lemma bind_ret_resolved {A B} (c : Async A) (f : A → B) (b : B) :
  (bind c (λ a, ret (f a))).2 = Resolved b → ∃ a, c.2 = Resolved a ∧ b = f a.
Proof.
  destruct c as [log [a|m']]; simpl; [|done]. intros [= <-]. by exists a.
Qed.

Lemma parsePdf_resolved_read (file : File) (t : string) :
  (parsePdf getDocument file).2 = Resolved t → is_Some (contents file).
Proof.
  unfold parsePdf, readFile. destruct (contents file); simpl; [by eexists|done].
Qed.

Lemma parseExcel_resolved_read (file : File) (t : string) :
  (parseExcel' file).2 = Resolved t → is_Some (contents file).
Proof.
  destruct (contents file) as [data|] eqn:Hc; [by eexists|].
  by rewrite (parseExcel_unread _ _ file Hc).
Qed.

(** X11.  [parseFile] reads the file at most once and decodes at most
    once, in this order: its effect log is empty, one read, a read and a
    PDF decoding, or a read and a workbook decoding.  An image result
    comes from the read alone, a text result from a read and one
    decoding, and a file that cannot be read is rejected after the read
    at the latest. *)
Theorem parseFile_effect_log (file : File) :
  (parseFile' file).1 ∈ effectLogs file
  ∧ (∀ data mimeType, (parseFile' file).2 = Resolved (image data mimeType) →
       (parseFile' file).1 = [ReadFile (name file)])
  ∧ (∀ t, (parseFile' file).2 = Resolved (text t) →
       (parseFile' file).1 = [ReadFile (name file); DecodePdf]
       ∨ (parseFile' file).1 = [ReadFile (name file); DecodeWorkbook])
  ∧ (contents file = None →
     ((parseFile' file).1 = [] ∨ (parseFile' file).1 = [ReadFile (name file)])
     ∧ ∃ m, (parseFile' file).2 = Rejected m).
Proof.
  unfold parseFile, effectLogs.
  destruct (bool_decide (type file = "application/pdf")).
  { rewrite bind_ret_log, parsePdf_log. split; [|split; [|split]].
    - destruct (contents file); in_list.
    - by intros data mimeType (t & _ & [=])%bind_ret_resolved.
    - intros t (t' & [data ->]%parsePdf_resolved_read & _)%bind_ret_resolved.
      by left.
    - intros Hc. rewrite Hc. split; [by right|].
      unfold parsePdf, readFile. rewrite Hc. simpl. by eexists. }
  destruct (_ || _).
  { rewrite bind_ret_log, parseExcel_log. split; [|split; [|split]].
    - destruct (contents file); in_list.
    - by intros data mimeType (t & _ & [=])%bind_ret_resolved.
    - intros t (t' & [data ->]%parseExcel_resolved_read & _)%bind_ret_resolved.
      by right.
    - intros Hc. rewrite Hc. split; [by right|].
      rewrite (parseExcel_unread _ _ file Hc). simpl. by eexists. }
  destruct (JS.startsWith _ _).
  { rewrite parseImage_log. split; [in_list|]. split; [done|]. split.
    - intros t H. exfalso. revert H. unfold parseImage, readFile.
      destruct (contents file); simpl; [|done].
      by destruct (split _ !! 0).
    - intros Hc. split; [by right|].
      unfold parseImage, readFile. rewrite Hc. simpl. by eexists. }
  simpl. split; [in_list|]. split; [done|]. split; [done|].
  intros _. split; [by left|by eexists].
Qed.

(** X12.  [parseFile] rejects with the unsupported-type message exactly
    when no branch condition holds: the MIME type is not the PDF type
    and none of the two spreadsheet types, the name ends neither in
    [.xlsx] nor in [.xls] (as written, case included), and the MIME type
    does not start with [image/].  The file has then not been read. *)
Theorem parseFile_unsupported_iff (file : File) :
  ((parseFile' file).2 = Rejected UNSUPPORTED ↔ noBranch file = true)
  ∧ ((parseFile' file).2 = Rejected UNSUPPORTED → (parseFile' file).1 = []).
Proof.
  split; [apply parseFile_unsupported_noBranch|].
  intros H. by rewrite (parseFile_unsupported_first _ _ _ file H).
Qed.

End ParseFileFacts.

Section UploadCheck.
Import FileParser Extracted FileUpload.
Context {Sheet : Type}.
Context (getDocument : string → option PdfDocument).
Context (XLSX_read : string → option (Workbook Sheet)).
Context (sheet_to_csv : option Sheet → option string).

Lemma toLowerCase_rev (s : string) :
  JS.toLowerCase (String.rev s) = String.rev (JS.toLowerCase s).
Proof.
  induction s as [|c s IH]; [done|]. simpl.
  by rewrite !rev_cons, toLowerCase_append, IH.
Qed.

Lemma prefix_toLowerCase (p s : string) :
  String.prefix p s = true →
  String.prefix (JS.toLowerCase p) (JS.toLowerCase s) = true.
Proof.
  revert s. induction p as [|a p IH]; intros [|b s]; simpl; try done.
  destruct (Ascii.ascii_dec a b) as [->|Hne]; [|done].
  intros H. destruct (Ascii.ascii_dec (JS.lowerChar b) (JS.lowerChar b)); [auto|done].
Qed.

Lemma endsWith_toLowerCase (s suf : string) :
  JS.toLowerCase suf = suf →
  JS.endsWith s suf = true → JS.endsWith (JS.toLowerCase s) suf = true.
Proof.
  intros Hsuf H. unfold JS.endsWith in *.
  apply prefix_toLowerCase in H.
  by rewrite !toLowerCase_rev, Hsuf in H.
Qed.

(** X13.  The check of the upload widget against the dispatch of
    [parseFile]: a file whose MIME type is on the allow-list of the
    widget is never rejected as unsupported by [parseFile], and a file
    that the widget refuses and whose MIME type does not start with
    [image/] is rejected by [parseFile] as unsupported before any
    read. *)
Theorem upload_check_and_dispatch (file : File) :
  (type file ∈ validTypes →
   (parseFile getDocument XLSX_read sheet_to_csv file).2 ≠ Rejected UNSUPPORTED)
  ∧ (validateAndSelect file = false →
     JS.startsWith (type file) "image/" = false →
     parseFile getDocument XLSX_read sheet_to_csv file = ([], Rejected UNSUPPORTED)).
Proof.
  split.
  - intros Hty H. apply parseFile_unsupported_noBranch in H.
    unfold noBranch in H. unfold validTypes in Hty.
    apply andb_true_iff in H as [H H6]. apply andb_true_iff in H as [H H5].
    apply andb_true_iff in H as [H H4]. apply andb_true_iff in H as [H H3].
    apply andb_true_iff in H as [H1 H2].
    repeat (apply elem_of_cons in Hty as [Hty|Hty];
            [rewrite Hty in H1, H2, H3, H6;
             first [discriminate H1 | discriminate H2 | discriminate H3
                   | discriminate H6]|]).
    by apply elem_of_nil in Hty.
  - intros Hval Himg. apply parseFile_unsupported_first.
    apply parseFile_unsupported_noBranch. unfold noBranch.
    unfold validateAndSelect in Hval.
    apply orb_false_iff in Hval as [Hty Hext].
    apply bool_decide_eq_false in Hty.
    assert (Hno : ∀ ext, ext ∈ validExtensions → JS.toLowerCase ext = ext →
                    JS.endsWith (name file) ext = false).
    { intros ext Hin Hlow. destruct (JS.endsWith (name file) ext) eqn:E; [|done].
      apply (endsWith_toLowerCase _ _ Hlow) in E.
      assert (existsb (λ ext, JS.endsWith (JS.toLowerCase (name file)) ext)
                validExtensions = true) as Hex.
      { apply existsb_exists. exists ext. split; [|done].
        by apply list_elem_of_In. }
      congruence. }
    rewrite (Hno ".xlsx"), (Hno ".xls"), Himg;
      try reflexivity;
      try (unfold validExtensions;
           repeat first [apply list_elem_of_here | apply list_elem_of_further]).
    rewrite !bool_decide_eq_false_2; [done|..];
      intros Heq; apply Hty; rewrite Heq; unfold validTypes;
      repeat first [apply list_elem_of_here | apply list_elem_of_further].
Qed.

End UploadCheck.

Lemma upload_check_and_dispatch_witness :
  (FileParser.parseFile Sample.getDocument Sample.XLSX_read Sample.sheet_to_csv
     Sample.textPdf).2 ≠ FileParser.Rejected FileParser.UNSUPPORTED
  ∧ FileParser.parseFile Sample.getDocument Sample.XLSX_read Sample.sheet_to_csv
      Sample.textFile = ([], FileParser.Rejected FileParser.UNSUPPORTED).
Proof.
  split.
  - apply (upload_check_and_dispatch Sample.getDocument Sample.XLSX_read
             Sample.sheet_to_csv Sample.textPdf).
    apply list_elem_of_here.
  - apply (upload_check_and_dispatch Sample.getDocument Sample.XLSX_read
             Sample.sheet_to_csv Sample.textFile); reflexivity.
Defined.

Lemma parseFile_rejection_messages_witness :
  FileParser.UNSUPPORTED ∈ Extracted.messages
  ∧ is_Some (FileParser.errorKind FileParser.UNSUPPORTED).
Proof.
  apply (parseFile_rejection_messages Sample.getDocument Sample.XLSX_read
           Sample.sheet_to_csv Sample.textFile).
  reflexivity.
Defined.

Lemma parseFile_effect_log_witness :
  (FileParser.parseFile Sample.getDocument Sample.XLSX_read Sample.sheet_to_csv
     (FileParser.mkFile "gone.pdf" "application/pdf" None)).1
  = [FileParser.ReadFile "gone.pdf"].
Proof.
  destruct (parseFile_effect_log Sample.getDocument Sample.XLSX_read
              Sample.sheet_to_csv
              (FileParser.mkFile "gone.pdf" "application/pdf" None))
    as (_ & _ & _ & H).
  destruct (H eq_refl) as [[H1|H1] _]; [|exact H1].
  vm_compute in H1. discriminate H1.
Defined.

(** ** The library: what every action keeps *)

Section LibraryFacts.
Import App Library.
Context {Sheet : Type}.
Context (getDocument : string → option FileParser.PdfDocument).
Context (XLSX_read : string → option (FileParser.Workbook Sheet)).
Context (sheet_to_csv : option Sheet → option string).
Context (generateQuizFromContent :
           FileParser.ParsedContent → nat → string →
           FileParser.Settled (string * list Question)).
Context (random : nat → JS.number).

Local Abbreviation step' :=
  (step getDocument XLSX_read sheet_to_csv generateQuizFromContent random).
Local Abbreviation run' :=
  (run getDocument XLSX_read sheet_to_csv generateQuizFromContent random).
Local Abbreviation handleGenerate' :=
  (handleGenerate getDocument XLSX_read sheet_to_csv generateQuizFromContent).

Lemma fresh_not_allocated (h : store) (l : loc) :
  is_Some (h !! l) → fresh (dom h) ≠ l.
Proof. intros Hl <-. apply elem_of_dom in Hl. by apply is_fresh in Hl. Qed.

Lemma handleGenerate_store (now1 now2 : Z) (st : State) (fm : Form) (l : loc) :
  is_Some (heap st !! l) →
  heap (handleGenerate' now1 now2 st fm).1 !! l = heap st !! l.
Proof.
  intros Hl. unfold handleGenerate. destruct (file fm) as [f|]; [|done].
  destruct (generated _ _ _ _ f fm) as [[title questions]|m]; [|done].
  simpl. apply lookup_insert_ne. by apply fresh_not_allocated.
Qed.

Lemma startQuiz_store_any (quiz : Quiz.t loc) (randomize : bool) (st : State)
    (l : loc) :
  is_Some (heap st !! l) →
  heap (startQuiz random quiz randomize st) !! l = heap st !! l.
Proof.
  intros Hl. destruct randomize; [by apply startQuiz_store|done].
Qed.

Lemma handleQuizComplete_heap (attempt : QuizAttempt) (st : State) :
  heap (handleQuizComplete attempt st) = heap st.
Proof. unfold handleQuizComplete. by destruct (currentQuiz st). Qed.

Lemma step_store (st : State) (fm : Form) (a : Action) (l : loc) :
  is_Some (heap st !! l) → heap (step' st fm a).1 !! l = heap st !! l.
Proof.
  intros Hl. destruct a as [f|now1 now2|position|randomize|index answers|id|]; simpl;
    try done.
  - by apply handleGenerate_store.
  - by destruct (quizzes st !! position).
  - destruct (previewQuiz st); [|done]. by apply startQuiz_store_any.
  - destruct (attemptOf st index answers); [|done]. simpl.
    by rewrite handleQuizComplete_heap.
Qed.

(** X14.  No action of the application (selecting a file, generating,
    opening a preview, starting a quiz shuffled or not, completing,
    deleting, leaving) changes a stored question array: an array that
    is in the store is there, with the same questions, after any
    sequence of actions. *)
Theorem stored_questions_never_change (actions : list Action) (st : State)
    (fm : Form) (l : loc) (qs : list Question) :
  heap st !! l = Some qs →
  heap (run' st fm actions).1 !! l = Some qs.
Proof.
  revert st fm. induction actions as [|a actions IH]; intros st fm Hl; simpl; [done|].
  destruct (step' st fm a) as [st' fm'] eqn:Hstep.
  apply IH. replace st' with (step' st fm a).1 by (by rewrite Hstep).
  rewrite step_store; [done|by eexists].
Qed.

End LibraryFacts.

Section LibraryConsistent.
Import App Library.
Context {Sheet : Type}.
Context (getDocument : string → option FileParser.PdfDocument).
Context (XLSX_read : string → option (FileParser.Workbook Sheet)).
Context (sheet_to_csv : option Sheet → option string).
Context (generateQuizFromContent :
           FileParser.ParsedContent → nat → string →
           FileParser.Settled (string * list Question)).
Context (random : nat → JS.number).

Local Abbreviation step' :=
  (step getDocument XLSX_read sheet_to_csv generateQuizFromContent random).
Local Abbreviation run' :=
  (run getDocument XLSX_read sheet_to_csv generateQuizFromContent random).
Local Abbreviation freshIds' :=
  (freshIds getDocument XLSX_read sheet_to_csv generateQuizFromContent random).

Lemma sound_store (h h' : store) (quiz : Quiz.t loc) :
  (∀ l, is_Some (h !! l) → h' !! l = h !! l) → sound h quiz → sound h' quiz.
Proof.
  intros Hmono (qs & Hq & Hrest). exists qs. split; [|done].
  rewrite Hmono; [done|by eexists].
Qed.

Lemma same_id_same_quiz (library : list (Quiz.t loc)) (q q' : Quiz.t loc) :
  NoDup (Quiz.id <$> library) → q ∈ library → q' ∈ library →
  Quiz.id q = Quiz.id q' → q = q'.
Proof.
  intros Hnd [i Hi]%list_elem_of_lookup [j Hj]%list_elem_of_lookup Heq.
  assert (i = j) as ->.
  { eapply (NoDup_lookup _ i j (Quiz.id q)); [exact Hnd| |].
    - by rewrite list_lookup_fmap, Hi.
    - by rewrite list_lookup_fmap, Hj, Heq. }
  congruence.
Qed.

Lemma Consistent_initial : Consistent initial.
Proof.
  split; simpl; try done.
  - constructor.
  - intros q Hq. by apply elem_of_nil in Hq.
Qed.

Lemma shuffle_length (calls : nat) (qs : list Question) :
  length (shuffle random calls qs).1 = length qs.
Proof.
  rewrite shuffle_fisherYates. apply Permutation_length, fisherYates_perm.
Qed.

Lemma startQuiz_Consistent (p : Quiz.t loc) (randomize : bool) (st : State) :
  Consistent st → previewQuiz st = Some p →
  Consistent (startQuiz random p randomize st).
Proof.
  intros [Hids Hlib Hcur Hpre] Hp.
  destruct (Hpre p Hp) as ((qs & Hqs & Htot & Hscore) & Hlink & Hin).
  destruct randomize.
  - unfold startQuiz. rewrite Hqs. simpl.
    pose proof (shuffle_length (randomCalls st) qs) as Hlen.
    destruct (shuffle random (randomCalls st) qs) as [shuffled calls']. simpl in Hlen.
    split; simpl; try done.
    + intros q Hq. apply (sound_store (heap st)); [|by apply Hlib].
      intros l Hl. apply lookup_insert_ne. by apply fresh_not_allocated.
    + intros q [= <-]. split.
      * exists shuffled. simpl. rewrite lookup_insert_eq.
        split; [done|]. split; [lia|]. intros s Hs. rewrite Hlen. by apply Hscore.
      * intros q Hq Hid. simpl in *. by apply Hlink.
  - unfold startQuiz. split; simpl; try done.
    intros q [= <-]. split; [by exists qs|done].
Qed.

Lemma map_fmap {A B} (f : A → B) (l : list A) : map f l = f <$> l.
Proof. induction l as [|x l IH]; [done|]. simpl. by rewrite IH. Qed.

Lemma handleQuizComplete_quizzes (attempt : QuizAttempt) (st : State)
    (cq : Quiz.t loc) :
  currentQuiz st = Some cq →
  quizzes (handleQuizComplete attempt st)
  = (λ q, if bool_decide (Quiz.id q = Quiz.id cq)
          then withScore q (QuizAttempt.score attempt) else q) <$> quizzes st.
Proof. intros Hcq. unfold handleQuizComplete. rewrite Hcq. simpl. apply map_fmap. Qed.

Lemma handleQuizComplete_ids (attempt : QuizAttempt) (st : State) :
  Quiz.id <$> quizzes (handleQuizComplete attempt st) = Quiz.id <$> quizzes st.
Proof.
  destruct (currentQuiz st) as [cq|] eqn:Hcq.
  - rewrite (handleQuizComplete_quizzes attempt st cq Hcq).
    rewrite <- list_fmap_compose. apply list_fmap_ext. intros i q _. simpl.
    by destruct (bool_decide _).
  - unfold handleQuizComplete. by rewrite Hcq.
Qed.

Lemma handleQuizComplete_other (attempt : QuizAttempt) (st : State) :
  currentQuiz (handleQuizComplete attempt st) = currentQuiz st
  ∧ previewQuiz (handleQuizComplete attempt st) = previewQuiz st
  ∧ heap (handleQuizComplete attempt st) = heap st.
Proof. unfold handleQuizComplete. destruct (currentQuiz st) eqn:E; simpl; rewrite ?E; auto. Qed.

Lemma handleQuizComplete_bounded (attempt : QuizAttempt) (st : State)
    (cq : Quiz.t loc) :
  Consistent st → currentQuiz st = Some cq →
  QuizAttempt.score attempt ≤ Quiz.totalQuestions cq →
  Consistent (handleQuizComplete attempt st).
Proof.
  intros [Hids Hlib Hcur Hpre] Ecq Hle.
  pose proof (handleQuizComplete_ids attempt st) as Hsame.
  pose proof (handleQuizComplete_quizzes attempt st cq Ecq) as Hqz.
  destruct (handleQuizComplete_other attempt st) as (Hc & Hp & Hh).
  destruct (Hcur cq Ecq) as (Hsound & Hlink).
  set (f := λ q : Quiz.t loc,
              if bool_decide (Quiz.id q = Quiz.id cq)
              then withScore q (QuizAttempt.score attempt) else q) in *.
  assert (Hf : ∀ q, Quiz.id (f q) = Quiz.id q
                    ∧ Quiz.totalQuestions (f q) = Quiz.totalQuestions q).
  { intros q. unfold f. by destruct (bool_decide _). }
  assert (Hlinked : ∀ x, linked (quizzes st) x →
                         linked (quizzes (handleQuizComplete attempt st)) x).
  { intros x Hl q'. rewrite Hqz. intros (q & -> & Hq)%list_elem_of_fmap Hid.
    destruct (Hf q) as (Hid' & Htot'). rewrite Htot'. apply Hl; [done|].
    by rewrite <- Hid'. }
  split.
  - by rewrite Hsame.
  - intros q'. rewrite Hqz, Hh. intros (q & -> & Hq)%list_elem_of_fmap.
    destruct (Hlib q Hq) as (qs' & Hqs' & Htot' & Hscore').
    unfold f. case_bool_decide as Hid; [|by exists qs'].
    exists qs'. simpl. split; [done|]. split; [done|].
    intros s [= <-]. rewrite <- Htot', (Hlink q Hq Hid). exact Hle.
  - intros q. rewrite Hc, Hh. intros Hq. rewrite Ecq in Hq. injection Hq as <-.
    split; [done|]. by apply Hlinked.
  - intros p. rewrite Hp, Hh. intros Hp'.
    destruct (Hpre p Hp') as (Hs & Hl & Hin).
    split; [done|]. split; [by apply Hlinked|by rewrite Hsame].
Qed.

Lemma attemptOf_bounded (index : nat) (answers : gmap string string)
    (attempt : QuizAttempt) (st : State) :
  Consistent st → attemptOf st index answers = Some attempt →
  ∃ cq, currentQuiz st = Some cq
        ∧ QuizAttempt.score attempt ≤ Quiz.totalQuestions cq.
Proof.
  intros [Hids Hlib Hcur Hpre] Hatt. unfold attemptOf in Hatt.
  destruct (currentQuiz st) as [cq|] eqn:Ecq; [|done]. simpl in Hatt.
  exists cq. split; [done|].
  destruct (Hcur cq eq_refl) as ((qs & Hqs & Htot & Hscore) & _).
  rewrite Hqs in Hatt. simpl in Hatt.
  destruct (QuizView.scoreLoop answers qs) as [score|] eqn:E; [|done].
  simpl in Hatt. injection Hatt as <-. simpl. rewrite Htot.
  by apply scoreLoop_le in E.
Qed.

Lemma handleQuizComplete_Consistent (index : nat) (answers : gmap string string)
    (attempt : QuizAttempt) (st : State) :
  Consistent st → attemptOf st index answers = Some attempt →
  Consistent (handleQuizComplete attempt st).
Proof.
  intros Hst Hatt.
  destruct (attemptOf_bounded index answers attempt st Hst Hatt) as (cq & Hcq & Hle).
  by apply (handleQuizComplete_bounded attempt st cq).
Qed.

Lemma deleteQuiz_Consistent (id : string) (st : State) :
  Consistent st → Consistent (deleteQuiz id st).
Proof.
  intros [Hids Hlib Hcur Hpre]. unfold deleteQuiz. split; simpl.
  - eapply sublist_NoDup; [exact Hids|].
    apply fmap_sublist, sublist_filter.
  - intros q [_ Hq]%list_elem_of_filter. by apply Hlib.
  - intros q Hq. destruct (Hcur q Hq) as [Hs Hl]. split; [done|].
    intros q' [_ Hq']%list_elem_of_filter. by apply Hl.
  - intros p Hp. case_bool_decide as Hid; [done|].
    destruct (Hpre p Hp) as (Hs & Hl & Hin). split; [done|]. split.
    + intros q' [_ Hq']%list_elem_of_filter. by apply Hl.
    + apply list_elem_of_fmap in Hin as (q & Heq & Hq).
      apply list_elem_of_fmap. exists q. split; [done|].
      apply list_elem_of_filter. split; [|done].
      intros Hq'. apply Hid. rewrite Hp. simpl. congruence.
Qed.

Lemma handleGenerate_Consistent (now1 now2 : Z) (st : State) (fm : Form) :
  Consistent st → pretty now1 ∉ Quiz.id <$> quizzes st →
  Consistent (handleGenerate getDocument XLSX_read sheet_to_csv
                generateQuizFromContent now1 now2 st fm).1.
Proof.
  intros [Hids Hlib Hcur Hpre] Hfresh. unfold handleGenerate.
  destruct (file fm) as [f|]; [|done].
  destruct (generated _ _ _ _ f fm) as [[title questions]|m]; [|done].
  simpl.
  assert (Hmono : ∀ l, is_Some (heap st !! l) →
            <[fresh (dom (heap st)) := questions]> (heap st) !! l = heap st !! l).
  { intros l Hl. apply lookup_insert_ne. by apply fresh_not_allocated. }
  assert (Hnew : sound (<[fresh (dom (heap st)) := questions]> (heap st))
                   (Quiz.mk (pretty now1) title (FileParser.name f) now2
                            (fresh (dom (heap st))) None (length questions))).
  { exists questions. simpl. by rewrite lookup_insert_eq. }
  split; simpl.
  - apply NoDup_cons. by split.
  - intros q [->|Hq]%elem_of_cons; [done|].
    apply (sound_store (heap st)); [done|by apply Hlib].
  - intros q [= <-]. split; [done|].
    intros q [->|Hq]%elem_of_cons Hid; [done|]. simpl in Hid.
    exfalso. apply Hfresh. rewrite <- Hid. by apply list_elem_of_fmap_2.
  - intros p Hp. destruct (Hpre p Hp) as (Hs & Hl & Hin).
    split; [by apply (sound_store (heap st))|]. split.
    + intros q [->|Hq]%elem_of_cons Hid; [|by apply Hl]. simpl in Hid.
      exfalso. apply Hfresh. by rewrite Hid.
    + by apply list_elem_of_further.
Qed.

Lemma step_Consistent (st : State) (fm : Form) (a : Action) :
  Consistent st →
  match a with
  | Generate now1 _ => pretty now1 ∉ Quiz.id <$> quizzes st
  | _ => True
  end →
  Consistent (step' st fm a).1.
Proof.
  intros Hst Hfresh. pose proof Hst as [Hids Hlib Hcur Hpre].
  destruct a as [f|now1 now2|position|randomize|index answers|id|]; simpl.
  - done.
  - by apply handleGenerate_Consistent.
  - destruct (quizzes st !! position) as [quiz|] eqn:Hq; [|done]. simpl.
    assert (Hin : quiz ∈ quizzes st) by (apply list_elem_of_lookup; eauto).
    split; simpl; try done.
    intros q [= <-]. split; [by apply Hlib|]. split.
    + intros q Hq' Hid. by rewrite (same_id_same_quiz _ q quiz Hids Hq' Hin Hid).
    + by apply list_elem_of_fmap_2.
  - destruct (previewQuiz st) as [p|] eqn:Hp; [|done]. simpl.
    by apply startQuiz_Consistent.
  - destruct (attemptOf st index answers) as [attempt|] eqn:Hatt; [|done]. simpl.
    by eapply handleQuizComplete_Consistent.
  - by apply deleteQuiz_Consistent.
  - by split.
Qed.

Lemma run_Consistent (actions : list Action) (st : State) (fm : Form) :
  Consistent st → freshIds' st fm actions → Consistent (run' st fm actions).1.
Proof.
  revert st fm. induction actions as [|a actions IH]; intros st fm Hst Hfresh;
    simpl in *; [done|].
  destruct Hfresh as [Ha Hrest].
  destruct (step' st fm a) as [st' fm'] eqn:Hstep.
  apply IH; [|done].
  replace st' with (step' st fm a).1 by (by rewrite Hstep).
  by apply step_Consistent.
Qed.

(** X15.  Starting from the empty library, after any sequence of actions
    in which every generated id is new, each quiz of the library refers
    to a stored question array, its [totalQuestions] is the length of
    that array, and its score, when it has one, is at most
    [totalQuestions]. *)
Theorem library_stays_consistent (actions : list Action) (q : Quiz.t loc) :
  freshIds' initial initialForm actions →
  q ∈ quizzes (run' initial initialForm actions).1 →
  ∃ qs, heap (run' initial initialForm actions).1 !! Quiz.questions q = Some qs
        ∧ Quiz.totalQuestions q = length qs
        ∧ ∀ score, Quiz.score q = Some score → score ≤ Quiz.totalQuestions q.
Proof.
  intros Hfresh Hq.
  destruct (run_Consistent actions initial initialForm Consistent_initial Hfresh)
    as [_ Hlib _ _].
  destruct (Hlib q Hq) as (qs & Hqs & Htot & Hscore).
  exists qs. split; [done|]. split; [done|]. intros s Hs. rewrite Htot. by apply Hscore.
Qed.

End LibraryConsistent.

Section LibraryTheorems.
Import App Library.

Lemma withScore_withScore (q : Quiz.t loc) (s1 s2 : nat) :
  withScore (withScore q s1) s2 = withScore q s2.
Proof. reflexivity. Qed.

Lemma startQuiz_current (random : nat → JS.number) (p : Quiz.t loc) (randomize : bool)
    (st : State) :
  quizzes (startQuiz random p randomize st) = quizzes st
  ∧ ∃ cq, currentQuiz (startQuiz random p randomize st) = Some cq
          ∧ Quiz.id cq = Quiz.id p.
Proof.
  unfold startQuiz. destruct randomize.
  - destruct (shuffle random (randomCalls st) _) as [shuffled calls']. simpl.
    split; [done|]. by eexists.
  - simpl. split; [done|]. by eexists.
Qed.

(** X16.  The last attempt wins.  Starting a quiz twice (each time
    shuffled or not) and completing both sessions leaves the library as
    it was, except that the quizzes with the id of the started quiz
    carry the score of the second attempt; the stored question arrays
    are untouched. *)
Theorem retake_last_attempt_wins (random : nat → JS.number) (p : Quiz.t loc)
    (r1 r2 : bool) (attempt1 attempt2 : QuizAttempt) (st : State) :
  let st1 := handleQuizComplete attempt1 (startQuiz random p r1 st) in
  let st2 := handleQuizComplete attempt2 (startQuiz random p r2 st1) in
  quizzes st2
  = (λ q, if bool_decide (Quiz.id q = Quiz.id p)
          then withScore q (QuizAttempt.score attempt2) else q) <$> quizzes st
  ∧ (∀ l, is_Some (heap st !! l) → heap st2 !! l = heap st !! l).
Proof.
  intros st1 st2. split.
  - destruct (startQuiz_current random p r1 st) as (Hq1 & c1 & Hc1 & Hid1).
    destruct (startQuiz_current random p r2 st1) as (Hq2 & c2 & Hc2 & Hid2).
    subst st2. rewrite (handleQuizComplete_quizzes attempt2 _ c2 Hc2), Hq2.
    subst st1. rewrite (handleQuizComplete_quizzes attempt1 _ c1 Hc1), Hq1.
    rewrite <- list_fmap_compose. apply list_fmap_ext. intros i q _. simpl.
    rewrite Hid1, Hid2.
    destruct (bool_decide (Quiz.id q = Quiz.id p)) eqn:E; simpl; by rewrite E.
  - intros l Hl. subst st2 st1.
    rewrite handleQuizComplete_heap, startQuiz_store_any.
    + by rewrite handleQuizComplete_heap, startQuiz_store_any.
    + by rewrite handleQuizComplete_heap, startQuiz_store_any.
Qed.

Lemma filter_filter_same {A} (P : A → Prop) `{∀ x, Decision (P x)} (l : list A) :
  filter P (filter P l) = filter P l.
Proof.
  induction l as [|x l IH]; [done|]. rewrite filter_cons.
  destruct (decide (P x)); [|done]. by rewrite filter_cons_True, IH.
Qed.

Lemma filter_comm {A} (P Q : A → Prop) `{∀ x, Decision (P x)} `{∀ x, Decision (Q x)}
    (l : list A) :
  filter P (filter Q l) = filter Q (filter P l).
Proof.
  induction l as [|x l IH]; [done|]. rewrite !(filter_cons _ x).
  destruct (decide (Q x)), (decide (P x));
    rewrite ?filter_cons_True, ?filter_cons_False by done; by rewrite ?IH.
Qed.

(** X17.  [deleteQuiz] removes by id: the library afterwards holds, in
    the same order, exactly the quizzes with another id; deleting twice
    is deleting once; two deletions commute; the stored arrays and the
    current quiz are untouched; a preview that survives has another id;
    and completing a session on a quiz that was deleted meanwhile
    changes nothing in the library. *)
Theorem deleteQuiz_by_id (id : string) (st : State) :
  (∀ q, q ∈ quizzes (deleteQuiz id st) ↔ q ∈ quizzes st ∧ Quiz.id q ≠ id)
  ∧ quizzes (deleteQuiz id st) `sublist_of` quizzes st
  ∧ deleteQuiz id (deleteQuiz id st) = deleteQuiz id st
  ∧ (∀ id', quizzes (deleteQuiz id (deleteQuiz id' st))
            = quizzes (deleteQuiz id' (deleteQuiz id st)))
  ∧ heap (deleteQuiz id st) = heap st
  ∧ currentQuiz (deleteQuiz id st) = currentQuiz st
  ∧ (∀ p, previewQuiz (deleteQuiz id st) = Some p →
          previewQuiz st = Some p ∧ Quiz.id p ≠ id)
  ∧ (∀ attempt cq, currentQuiz st = Some cq → Quiz.id cq = id →
       quizzes (handleQuizComplete attempt (deleteQuiz id st))
       = quizzes (deleteQuiz id st)).
Proof.
  split; [|split; [|split; [|split; [|split; [|split; [|split]]]]]].
  - intros q. unfold deleteQuiz. simpl. rewrite list_elem_of_filter. tauto.
  - apply sublist_filter.
  - unfold deleteQuiz. simpl. rewrite filter_filter_same. f_equal.
    destruct (previewQuiz st) as [p|]; simpl;
      repeat (case_bool_decide; simpl); simpl in *; congruence.
  - intros id'. unfold deleteQuiz. simpl. apply filter_comm.
  - done.
  - done.
  - intros p. unfold deleteQuiz. simpl. case_bool_decide as E; [done|].
    intros Hp. split; [done|]. intros Hid. apply E. rewrite Hp. simpl. by rewrite Hid.
  - intros attempt cq Hcq Hid.
    rewrite (handleQuizComplete_quizzes attempt _ cq) by done.
    unfold deleteQuiz. simpl.
    rewrite <- (list_fmap_id (filter _ _)) at 2.
    apply list_fmap_ext. intros i q Hq. simpl.
    apply list_elem_of_lookup_2, list_elem_of_filter in Hq as [Hne _].
    rewrite bool_decide_eq_false_2; [done|]. by rewrite Hid.
Qed.

End LibraryTheorems.

Section GenerateTheorems.
Import App Library.
Context {Sheet : Type}.
Context (getDocument : string → option FileParser.PdfDocument).
Context (XLSX_read : string → option (FileParser.Workbook Sheet)).
Context (sheet_to_csv : option Sheet → option string).

(** X18.  When the selected file cannot be parsed, [handleGenerate]
    leaves the application state as it was, keeps the selected file,
    clears the processing flag and shows the message of the parser,
    which is one of its five messages and never the fallback text. *)
Theorem handleGenerate_parse_failure
    (generateQuizFromContent :
       FileParser.ParsedContent → nat → string →
       FileParser.Settled (string * list Question))
    (now1 now2 : Z) (st : State) (fm : Form) (f : FileParser.File) (m : string) :
  file fm = Some f →
  (FileParser.parseFile getDocument XLSX_read sheet_to_csv f).2
  = FileParser.Rejected m →
  handleGenerate getDocument XLSX_read sheet_to_csv generateQuizFromContent
    now1 now2 st fm
  = (st, mkForm (Some f) false (Some m) (questionCount fm) (difficulty fm))
  ∧ m ∈ Extracted.messages.
Proof.
  intros Hf Hm.
  pose proof (parseFile_rejected_known _ _ _ f m Hm) as Hknown.
  split; [|done].
  unfold handleGenerate, generated. rewrite Hf, Hm. simpl.
  by rewrite (bool_decide_eq_false_2 (m = "")) by (by apply messages_nonempty).
Qed.

End GenerateTheorems.

Section LibraryWitnesses.
Import App Library.

Lemma freshIds_cons {Sheet : Type} getDocument XLSX_read sheet_to_csv generate random
    (st st' : State) (fm fm' : Form) (a : Action) (rest : list Action) :
  match a with
  | Generate now1 _ => pretty now1 ∉ Quiz.id <$> quizzes st
  | _ => True
  end →
  step (Sheet:=Sheet) getDocument XLSX_read sheet_to_csv generate random st fm a
  = (st', fm') →
  freshIds getDocument XLSX_read sheet_to_csv generate random st' fm' rest →
  freshIds getDocument XLSX_read sheet_to_csv generate random st fm (a :: rest).
Proof. intros Ha Hstep Hrest. simpl. by rewrite Hstep. Defined.

Local Ltac fresh_step :=
  eapply freshIds_cons;
  [ first [exact I | apply (bool_decide_unpack _); vm_compute; reflexivity]
  | vm_compute; reflexivity
  | ].

Lemma Scenario_freshIds :
  freshIds Sample.getDocument Sample.XLSX_read Sample.sheet_to_csv
           Scenario.generate Sample.halves initial initialForm Scenario.actions.
Proof. unfold Scenario.actions. repeat fresh_step. exact I. Defined.

Lemma stored_questions_never_change_witness :
  heap (Scenario.run (Scenario.run initial initialForm (take 2 Scenario.actions)).1
          initialForm (drop 2 Scenario.actions)).1 !! 0
  = Some [Sample.q1; Sample.q2; Sample.q3].
Proof.
  apply (stored_questions_never_change Sample.getDocument Sample.XLSX_read
           Sample.sheet_to_csv Scenario.generate Sample.halves).
  vm_compute. reflexivity.
Defined.

Lemma library_stays_consistent_witness :
  ∃ q qs,
    quizzes (Scenario.run initial initialForm Scenario.actions).1 !! 0 = Some q
    ∧ heap (Scenario.run initial initialForm Scenario.actions).1
        !! Quiz.questions q = Some qs
    ∧ Quiz.totalQuestions q = length qs
    ∧ Quiz.score q = Some 3.
Proof.
  eexists. 
  match goal with
  | |- ∃ qs, _ !! 0 = Some ?q ∧ _ =>
      assert (Hq : quizzes (Scenario.run initial initialForm Scenario.actions).1 !! 0
                   = Some q) by (vm_compute; reflexivity);
      destruct (library_stays_consistent Sample.getDocument Sample.XLSX_read
                  Sample.sheet_to_csv Scenario.generate Sample.halves
                  Scenario.actions q Scenario_freshIds)
        as (qs & Hqs & Htot & _)
  end.
  - apply list_elem_of_lookup. eexists. exact Hq.
  - exists qs. split; [exact Hq|]. split; [exact Hqs|]. split; [exact Htot|].
    reflexivity.
Defined.

Lemma handleGenerate_parse_failure_witness :
  handleGenerate Sample.getDocument Sample.XLSX_read Sample.sheet_to_csv
    Scenario.generate 1 2 initial
    (mkForm (Some Sample.untypedHeic) false None 5 "Medium")
  = (initial, mkForm (Some Sample.untypedHeic) false
                (Some FileParser.UNSUPPORTED) 5 "Medium").
Proof.
  apply (handleGenerate_parse_failure Sample.getDocument Sample.XLSX_read
           Sample.sheet_to_csv Scenario.generate 1 2 initial
           (mkForm (Some Sample.untypedHeic) false None 5 "Medium")
           Sample.untypedHeic FileParser.UNSUPPORTED); reflexivity.
Defined.

End LibraryWitnesses.

(** ** The generation service *)

Section Gemini.
Import GeminiService.
Context (generateContent : Call → FileParser.Settled (option string)).
Context (JSON_parse : string → FileParser.Settled (string * list Question)).

Lemma slice0_length (n : N) (s : string) :
  N.of_nat (String.length (slice0 n s)) = N.min n (N.of_nat (String.length s)).
Proof.
  revert n. induction s as [|c s IH]; intros n; cbn [slice0 String.length]; [lia|].
  destruct (n =? 0)%N eqn:E.
  - apply N.eqb_eq in E. subst. cbn [String.length]. lia.
  - apply N.eqb_neq in E. cbn [String.length].
    rewrite !Nat2N.inj_succ, IH. lia.
Qed.

Lemma slice0_short (n : N) (s : string) :
  (N.of_nat (String.length s) ≤ n)%N → slice0 n s = s.
Proof.
  revert n. induction s as [|c s IH]; intros n Hn; cbn [slice0 String.length] in *; [done|].
  rewrite Nat2N.inj_succ in Hn.
  destruct (n =? 0)%N eqn:E.
  - apply N.eqb_eq in E. subst. lia.
  - f_equal. apply IH. lia.
Qed.

Lemma slice0_prefix (n : N) (s : string) :
  ∃ rest, s = slice0 n s +:+ rest.
Proof.
  revert n. induction s as [|c s IH]; intros n; simpl; [by exists ""|].
  destruct (n =? 0)%N; [by eexists|].
  destruct (IH (N.pred n)) as [rest Hrest]. exists rest.
  by rewrite append_cons, <- Hrest.
Qed.

(** X20.  [generateQuizFromContent] calls the model at most once, and not
    at all exactly when both environment keys are missing or empty.  A
    call uses [API_KEY] when that is non-empty and [GEMINI_API_KEY]
    otherwise, and sends two parts: the instruction with the question
    count and the difficulty, then either the image data with its MIME
    type or the document text, which is a prefix of the content of at
    most 100000 characters and the whole content when that is not
    longer. *)
Theorem generateQuiz_request (env : Env) (content : FileParser.ParsedContent)
    (questionCount : nat) (difficulty : string) :
  let calls := (generateQuizFromContent generateContent JSON_parse env content
                  questionCount difficulty).1 in
  (calls = [] ∨ ∃ call, calls = [call])
  ∧ (calls = [] ↔
     JS.truthy (API_KEY env) = false ∧ JS.truthy (GEMINI_API_KEY env) = false)
  ∧ ∀ call, call ∈ calls →
      apiKey call ≠ ""
      ∧ (Some (apiKey call) = API_KEY env ∨
         JS.truthy (API_KEY env) = false ∧ Some (apiKey call) = GEMINI_API_KEY env)
      ∧ parts call !! 0 = Some (textPart (instruction questionCount difficulty))
      ∧ length (parts call) = 2
      ∧ match content with
        | FileParser.text c =>
            ∃ sent rest,
              parts call !! 1
              = Some (textPart ("Document Content:" +:+ JS.LF +:+ sent))
              ∧ c = sent +:+ rest
              ∧ N.of_nat (String.length sent)
                = N.min 100000 (N.of_nat (String.length c))
              ∧ ((N.of_nat (String.length c) ≤ 100000)%N → sent = c)
        | FileParser.image data mimeType =>
            parts call !! 1 = Some (inlineDataPart data mimeType)
        end.
Proof.
  intros calls. subst calls. unfold generateQuizFromContent, orUndefined.
  destruct (API_KEY env) as [k1|] eqn:E1; simpl.
  - destruct (decide (k1 = "")) as [->|Hk1].
    + simpl. destruct (GEMINI_API_KEY env) as [k2|] eqn:E2; simpl.
      * destruct (decide (k2 = "")) as [->|Hk2].
        { simpl. split; [by left|]. split; [done|].
          intros call Hc. by apply elem_of_nil in Hc. }
        rewrite !(bool_decide_eq_false_2 (k2 = "")) by done. simpl.
        split; [right; by eexists|]. split; [split; [done|by intros [_ ?]]|].
        intros call ->%list_elem_of_singleton. simpl.
        split; [done|]. split; [by right|]. split; [done|]. split; [done|].
        destruct content as [c|data mimeType]; [|done].
        destruct (slice0_prefix 100000 c) as [rest Hrest].
        exists (slice0 100000 c), rest. split; [done|]. split; [done|].
        split; [by rewrite slice0_length|]. intros Hlen. by apply slice0_short.
      * split; [by left|]. split; [done|].
        intros call Hc. by apply elem_of_nil in Hc.
    + rewrite !(bool_decide_eq_false_2 (k1 = "")) by done. simpl.
      rewrite !(bool_decide_eq_false_2 (k1 = "")) by done. simpl.
      split; [right; by eexists|]. split; [split; [done|by intros [? _]]|].
      intros call ->%list_elem_of_singleton. simpl.
      split; [done|]. split; [by left|]. split; [done|]. split; [done|].
      destruct content as [c|data mimeType]; [|done].
      destruct (slice0_prefix 100000 c) as [rest Hrest].
      exists (slice0 100000 c), rest. split; [done|]. split; [done|].
      split; [by rewrite slice0_length|]. intros Hlen. by apply slice0_short.
  - destruct (GEMINI_API_KEY env) as [k2|] eqn:E2; simpl.
    + destruct (decide (k2 = "")) as [->|Hk2].
      { simpl. split; [by left|]. split; [done|].
        intros call Hc. by apply elem_of_nil in Hc. }
      rewrite !(bool_decide_eq_false_2 (k2 = "")) by done. simpl.
      split; [right; by eexists|]. split; [split; [done|by intros [_ ?]]|].
      intros call ->%list_elem_of_singleton. simpl.
      split; [done|]. split; [by right|]. split; [done|]. split; [done|].
      destruct content as [c|data mimeType]; [|done].
      destruct (slice0_prefix 100000 c) as [rest Hrest].
      exists (slice0 100000 c), rest. split; [done|]. split; [done|].
      split; [by rewrite slice0_length|]. intros Hlen. by apply slice0_short.
    + split; [by left|]. split; [done|].
      intros call Hc. by apply elem_of_nil in Hc.
Qed.

(** X21.  A rejection of [generateQuizFromContent] never carries an empty
    message.  Without a call the message is the missing-key message;
    after a call it is the message of the rejected call or of the failed
    [JSON.parse] (or the fallback text when that message is empty), or
    the no-response message when the response has no text. *)
Theorem generateQuiz_rejections (env : Env) (content : FileParser.ParsedContent)
    (questionCount : nat) (difficulty : string) (m : string) :
  (generateQuizFromContent generateContent JSON_parse env content
     questionCount difficulty).2 = FileParser.Rejected m →
  m ≠ ""
  ∧ ((generateQuizFromContent generateContent JSON_parse env content
        questionCount difficulty).1 = [] → m = KEY_MISSING)
  ∧ (∀ call, (generateQuizFromContent generateContent JSON_parse env content
                questionCount difficulty).1 = [call] →
       (∃ m', generateContent call = FileParser.Rejected m'
              ∧ m = JS.orElse (Some m') INVALID_DATA)
       ∨ (∃ text, generateContent call = FileParser.Resolved text
                  ∧ JS.truthy text = false ∧ m = NO_RESPONSE)
       ∨ (∃ text m', generateContent call = FileParser.Resolved (Some text)
                     ∧ text ≠ ""
                     ∧ JSON_parse text = FileParser.Rejected m'
                     ∧ m = JS.orElse (Some m') INVALID_DATA)).
Proof.
  assert (Hor : ∀ m', JS.orElse (Some m') INVALID_DATA ≠ "").
  { intros m'. unfold JS.orElse. case_bool_decide; done. }
  unfold generateQuizFromContent.
  destruct (orUndefined (API_KEY env) (GEMINI_API_KEY env)) as [key|]; simpl.
  2:{ intros [= <-]. split; [done|]. split; done. }
  case_bool_decide as Hkey; simpl.
  { intros [= <-]. split; [done|]. split; done. }
  set (call := mkCall key (contentsOf content questionCount difficulty)).
  destruct (generateContent call) as [text|m'] eqn:Hgen.
  - destruct (JS.truthy text) eqn:Htr.
    + destruct text as [t|]; [|done]. simpl.
      destruct (JSON_parse t) as [data|m'] eqn:Hparse; [done|].
      intros [= <-]. split; [apply Hor|]. split; [done|].
      intros call' [= <-]. right. right. exists t, m'.
      split; [done|]. split; [|done]. intros ->. done.
    + intros [= <-]. split; [done|]. split; [done|].
      intros call' [= <-]. right. left. by exists text.
  - intros [= <-]. split; [apply Hor|]. split; [done|].
    intros call' [= <-]. left. by exists m'.
Qed.

End Gemini.

Lemma generateQuiz_rejections_witness :
  let generateContent := λ _ : GeminiService.Call,
        FileParser.Resolved (Some "{title: 'Capitals'") in
  let JSON_parse := λ _ : string,
        @FileParser.Rejected (string * list Question) "Unexpected end of JSON input" in
  let env := GeminiService.mkEnv None (Some "key") in
  (GeminiService.generateQuizFromContent generateContent JSON_parse env
     (FileParser.text "Paris is the capital of France.") 5 "Medium").2
  = FileParser.Rejected "Unexpected end of JSON input"
  ∧ "Unexpected end of JSON input" ≠ "".
Proof.
  intros generateContent JSON_parse env.
  assert (H : (GeminiService.generateQuizFromContent generateContent JSON_parse env
                 (FileParser.text "Paris is the capital of France.") 5 "Medium").2
              = FileParser.Rejected "Unexpected end of JSON input")
    by reflexivity.
  split; [exact H|].
  exact (proj1 (generateQuiz_rejections generateContent JSON_parse env
                  (FileParser.text "Paris is the capital of France.") 5 "Medium"
                  "Unexpected end of JSON input" H)).
Defined.

Lemma generateQuiz_request_witness :
  ∃ call,
    (GeminiService.generateQuizFromContent
       (λ _, FileParser.Resolved None) (λ _, FileParser.Rejected "")
       (GeminiService.mkEnv (Some "") (Some "key"))
       (FileParser.image (Some "AAAA") "image/png") 5 "Medium").1 = [call]
    ∧ GeminiService.apiKey call = "key"
    ∧ GeminiService.parts call !! 1
      = Some (GeminiService.inlineDataPart (Some "AAAA") "image/png").
Proof.
  eexists. split; [reflexivity|]. split; [reflexivity|].
  refine (proj2 (proj2 (proj2 (proj2 (proj2 (proj2
    (generateQuiz_request (λ _, FileParser.Resolved None) (λ _, FileParser.Rejected "")
       (GeminiService.mkEnv (Some "") (Some "key"))
       (FileParser.image (Some "AAAA") "image/png") 5 "Medium")) _ _))))).
  apply list_elem_of_here.
Defined.
